(** * ghe-reposec: repository filter, Lava scan worker and output writer

    A shallow embedding of the Go packages [internal/github],
    [internal/lava], [internal/config], [internal/output] and
    [internal/metrics] of adevinta/ghe-reposec and of the summary gauges of
    its [main], and the properties of their specification.

    Go strings and byte slices are byte sequences: both are modelled as
    [string] (a sequence of 8-bit [ascii] characters).  Go [int] values are
    only compared, incremented by one, formatted or converted to [float64]
    here, so they are modelled as [Z]. *)

From Stdlib Require Import ZArith Lia Bool Ascii String DecimalString List Permutation.
From Stdlib Require Import Floats.SpecFloat.
From stdpp Require Import base option gmap strings list.
From Equations Require Import Equations.

Local Open Scope string_scope.
Local Open Scope Z_scope.

(** ** The functions of Go's [strings], [strconv] and [fmt] that the code calls *)

Module gostrings.

Fixpoint take (n : nat) (s : string) : string :=
  match n, s with
  | S n', String c s' => String c (take n' s')
  | _, _ => ""
  end.

Fixpoint drop (n : nat) (s : string) : string :=
  match n, s with
  | S n', String _ s' => drop n' s'
  | _, _ => s
  end.

(** [HasPrefix s p]: [p] is a prefix of [s]. *)
Fixpoint HasPrefix (s p : string) : bool :=
  match p, s with
  | "", _ => true
  | String a p', String b s' => Ascii.eqb a b && HasPrefix s' p'
  | String _ _, "" => false
  end.

(** [Index s substr]: the position of the first instance of [substr] in
    [s]; [None] is Go's [-1]. *)
Fixpoint Index (s substr : string) : option nat :=
  if HasPrefix s substr then Some 0%nat
  else match s with
       | "" => None
       | String _ s' => S <$> Index s' substr
       end.

Definition Contains (s substr : string) : bool :=
  match Index s substr with Some _ => true | None => false end.

(** [IndexByte]-style membership of a character in a cutset. *)
Fixpoint hasChar (c : ascii) (cutset : string) : bool :=
  match cutset with
  | "" => false
  | String d r => Ascii.eqb c d || hasChar c r
  end.

Definition headChar (s : string) : option ascii :=
  match s with "" => None | String c _ => Some c end.

Fixpoint lastChar (s : string) : option ascii :=
  match s with
  | "" => None
  | String c "" => Some c
  | String _ s' => lastChar s'
  end.

Lemma HasPrefix_length s p :
  HasPrefix s p = true -> (String.length p <= String.length s)%nat.
Proof.
  revert p. induction s as [|d s IH]; intros [|e p]; simpl; try lia; try discriminate.
  intros [_ H]%andb_true_iff. specialize (IH _ H). lia.
Qed.

Lemma HasPrefix_empty s : HasPrefix s "" = true.
Proof. destruct s; reflexivity. Qed.

Lemma Index_unfold s t :
  Index s t =
    if HasPrefix s t then Some 0%nat
    else match s with "" => None | String _ s' => S <$> Index s' t end.
Proof. destruct s; reflexivity. Qed.

Lemma Index_bound s t j :
  Index s t = Some j -> (j + String.length t <= String.length s)%nat.
Proof.
  revert j. induction s as [|c s IH]; intros j; rewrite Index_unfold.
  - destruct (HasPrefix "" t) eqn:Hp; [|discriminate].
    intros [= <-]. apply HasPrefix_length in Hp. simpl in *. lia.
  - destruct (HasPrefix (String c s) t) eqn:Hp.
    + intros [= <-]. apply HasPrefix_length in Hp. simpl in *. lia.
    + destruct (Index s t) as [k|] eqn:Hk; simpl; [|discriminate].
      intros [= <-]. specialize (IH _ eq_refl). simpl. lia.
Qed.

Lemma length_drop n s : String.length (drop n s) = (String.length s - n)%nat.
Proof.
  revert s. induction n as [|n IH]; intros [|c s]; simpl; auto.
Qed.

(** A value together with the equation that names it, for the loops below. *)
Definition inspect {A : Type} (x : A) : { y : A | x = y } := exist _ x eq_refl.

(** The loop of [strings.Replace] for a non-empty [old = String c old']
    and no limit on the number of replacements: the text up to the next
    instance is copied, the instance is replaced, and the scan goes on
    after it. *)
Equations? replaceLoop (c : ascii) (old' new s : string) : string
  by wf (String.length s) lt :=
  replaceLoop c old' new s with inspect (Index s (String c old')) := {
    | exist _ None _ => s
    | exist _ (Some j) H =>
        take j s ++ new ++ replaceLoop c old' new (drop (j + String.length (String c old')) s) }.
Proof.
  apply Index_bound in H. rewrite length_drop. simpl in *. lia.
Qed.

Lemma replaceLoop_eq c old' new s :
  replaceLoop c old' new s =
    match Index s (String c old') with
    | None => s
    | Some j =>
        take j s ++ new ++ replaceLoop c old' new (drop (j + String.length (String c old')) s)
    end.
Proof.
  simp replaceLoop. generalize (inspect (Index s (String c old'))).
  intros [[j|] H]; simpl; rewrite H; reflexivity.
Qed.

(** An empty [old] matches before every character and at the end (Go: at
    the beginning of the string and after each UTF-8 sequence; the two
    agree on ASCII text). *)
Fixpoint intersperse (new s : string) : string :=
  match s with
  | "" => new
  | String c s' => new ++ String c (intersperse new s')
  end.

(** [strings.Replace s old new (-1)]. *)
Definition ReplaceAll (s old new : string) : string :=
  if String.eqb old new then s
  else match old with
       | "" => intersperse new s
       | String c old' => replaceLoop c old' new s
       end.

(** [strings.Join]. *)
Fixpoint Join (elems : list string) (sep : string) : string :=
  match elems with
  | [] => ""
  | [e] => e
  | e :: rest => e ++ sep ++ Join rest sep
  end.

(** The loop of [strings.Split] ([genSplit]) for a non-empty separator. *)
Equations? splitLoop (c : ascii) (sep' s : string) : list string
  by wf (String.length s) lt :=
  splitLoop c sep' s with inspect (Index s (String c sep')) := {
    | exist _ None _ => [s]
    | exist _ (Some m) H =>
        take m s :: splitLoop c sep' (drop (m + String.length (String c sep')) s) }.
Proof.
  apply Index_bound in H. rewrite length_drop. simpl in *. lia.
Qed.

Lemma splitLoop_eq c sep' s :
  splitLoop c sep' s =
    match Index s (String c sep') with
    | None => [s]
    | Some m => take m s :: splitLoop c sep' (drop (m + String.length (String c sep')) s)
    end.
Proof.
  simp splitLoop. generalize (inspect (Index s (String c sep'))).
  intros [[m|] H]; simpl; rewrite H; reflexivity.
Qed.

Fixpoint explode (s : string) : list string :=
  match s with
  | "" => []
  | String c s' => String c "" :: explode s'
  end.

(** [strings.Split]; an empty separator splits after every character
    (after each UTF-8 sequence in Go). *)
Definition Split (s sep : string) : list string :=
  match sep with
  | "" => explode s
  | String c sep' => splitLoop c sep' s
  end.

Fixpoint TrimLeft (s cutset : string) : string :=
  match s with
  | "" => ""
  | String c s' => if hasChar c cutset then TrimLeft s' cutset else s
  end.

Fixpoint TrimRight (s cutset : string) : string :=
  match s with
  | "" => ""
  | String c s' =>
      match TrimRight s' cutset with
      | "" => if hasChar c cutset then "" else String c ""
      | r => String c r
      end
  end.

(** [strings.Trim]: leading and trailing characters of [cutset] removed. *)
Definition Trim (s cutset : string) : string :=
  TrimRight (TrimLeft s cutset) cutset.

Definition lowerChar (c : ascii) : ascii :=
  let n := nat_of_ascii c in
  if ((65 <=? n)%nat && (n <=? 90)%nat)%bool then ascii_of_nat (n + 32) else c.

(** [strings.ToLower] on the ASCII letters.  Go also maps upper-case
    letters outside ASCII; none of them is mapped to a letter of "csv" or
    "json", the only strings the result is compared with. *)
Fixpoint ToLower (s : string) : string :=
  match s with
  | "" => ""
  | String c s' => String (lowerChar c) (ToLower s')
  end.

(** [strconv.FormatBool]. *)
Definition FormatBool (b : bool) : string := if b then "true" else "false".

(** [strconv.Itoa]: base 10, a leading minus sign for negative numbers. *)
Definition Itoa (z : Z) : string := NilEmpty.string_of_int (Z.to_int z).

End gostrings.

Module gostrings_tests.
Import gostrings.
Example replace1 : ReplaceAll "a tok b tok" "tok" "REDACTED" = "a REDACTED b REDACTED".
Proof. reflexivity. Qed.
Example split1 : Split "org//repo" "/" = ["org"; ""; "repo"].
Proof. reflexivity. Qed.
Example trim1 : Trim "//org/repo.git/" "/" = "org/repo.git".
Proof. reflexivity. Qed.
Example itoa1 : Itoa 1205 = "1205" /\ Itoa 0 = "0" /\ Itoa (-37) = "-37".
Proof. repeat split; reflexivity. Qed.
Example lower1 : ToLower "JsOn" = "json".
Proof. reflexivity. Qed.
Example join1 : Join ["a"; "b"; "c"] "#" = "a#b#c" /\ Join [] "#" = "".
Proof. split; reflexivity. Qed.
End gostrings_tests.

(** ** [log/slog]: the log records the code emits *)

Module slog.

Inductive Level := LevelDebug | LevelInfo | LevelWarn | LevelError.

(** The value of a key/value attribute.  A duration ([time.Since]) is
    wall-clock time and carries no information here. *)
Inductive Value :=
| VString (s : string)
| VInt (n : Z)
| VBool (b : bool)
| VError (err : string)
| VDuration.

Record Record := mkRecord {
  level : Level;
  msg : string;
  attrs : list (string * Value)
}.

Definition attr (r : Record) (key : string) : option Value :=
  snd <$> List.find (fun kv => String.eqb (fst kv) key) (attrs r).

End slog.

(** ** [internal/config] *)

Module config.

(** [GHEAPIPath] is the default GitHub Enterprise API path. *)
Definition GHEAPIPath : string := "/api/v3/".

Module GHEConfig.
Record t := mk {
  Token : string;
  BaseURL : string;
  Concurrency : Z;
  RepositorySizeLimit : Z;
  IncludeArchived : bool;
  IncludeEmpty : bool;
  IncludeForks : bool;
  IncludeTemplates : bool;
  IncludeDisabled : bool;
  MinLastActivityDays : Z
}.

Definition withConcurrency (cfg : t) (n : Z) : t :=
  mk (Token cfg) (BaseURL cfg) n (RepositorySizeLimit cfg)
     (IncludeArchived cfg) (IncludeEmpty cfg) (IncludeForks cfg)
     (IncludeTemplates cfg) (IncludeDisabled cfg) (MinLastActivityDays cfg).
End GHEConfig.

Module LavaConfig.
Record t := mk {
  Token : string;
  BaseURL : string;
  Concurrency : Z;
  BinaryPath : string;
  CheckImage : string;
  ResultsPath : string
}.

Definition withConcurrency (cfg : t) (n : Z) : t :=
  mk (Token cfg) (BaseURL cfg) n (BinaryPath cfg) (CheckImage cfg) (ResultsPath cfg).
End LavaConfig.

End config.

(** ** [net/url]: the part of a parsed URL the code reads *)

Module url.
Record URL := mkURL { Path : string }.
End url.

(** ** [internal/github]: the repository filter of [orgRepositories] *)

Module github.
Import config.

Inductive Error :=
| ErrTokenRequired
| ErrAPIBaseURLRequired
| ErrParseURL (cause : string)
| ErrAuthenticate (cause : string).

(** [gh.Repository]: every field the filter reads is a pointer, [None]
    when the API response left it out. *)
Record Repository (Time : Type) := mkRepository {
  FullName : option string;
  CloneURL : option string;
  Size : option Z;
  Archived : option bool;
  Disabled : option bool;
  Fork : option bool;
  IsTemplate : option bool;
  UpdatedAt : option Time;
  PushedAt : option Time
}.
Arguments mkRepository {Time}.
Arguments FullName {Time}. Arguments CloneURL {Time}. Arguments Size {Time}.
Arguments Archived {Time}. Arguments Disabled {Time}. Arguments Fork {Time}.
Arguments IsTemplate {Time}. Arguments UpdatedAt {Time}. Arguments PushedAt {Time}.

Definition GetFullName {Time} (r : Repository Time) : string := default "" (FullName r).

(** The keys of the [repoMetrics] map. *)
Inductive Status :=
| too_big | empty | archived | disabled | fork | template | inactive | selected.

Definition statusKey (s : Status) : string :=
  match s with
  | too_big => "too_big" | empty => "empty" | archived => "archived"
  | disabled => "disabled" | fork => "fork" | template => "template"
  | inactive => "inactive" | selected => "selected"
  end.

Definition initialMetrics : gmap string Z :=
  list_to_map (map (fun s => (statusKey s, 0))
    [too_big; empty; archived; disabled; fork; template; inactive; selected]).

(** [m[k]++] on a Go map: a missing key reads as zero. *)
Definition incr (k : string) (m : gmap string Z) : gmap string Z :=
  <[k := default 0 (m !! k) + 1]> m.

(** What the loop over the listed repositories carries. *)
Record ListState := mkListState {
  allRepos : list string;
  repoMetrics : gmap string Z;
  logs : list slog.Record
}.

Definition initialState : ListState := mkListState [] initialMetrics [].

Section Filter.
(** [time.Time] with [Before] and [AddDate] (calendar arithmetic in the
    local time zone), as the [time] package provides them. *)
Variable Time : Type.
Variable Before : Time -> Time -> bool.
Variable AddDate : Time -> Z -> Z -> Z -> Time.

Variable cfg : GHEConfig.t.

Local Abbreviation Repo := (Repository Time).

(** The conditions of the seven [if] statements, in source order. *)
Definition isTooBig (repo : Repo) : bool :=
  match Size repo with
  | Some size => GHEConfig.RepositorySizeLimit cfg <? size
  | None => false
  end.

Definition isEmpty (repo : Repo) : bool :=
  match Size repo with
  | Some size => size =? 0
  | None => false
  end && negb (GHEConfig.IncludeEmpty cfg).

Definition isArchived (repo : Repo) : bool :=
  default false (Archived repo) && negb (GHEConfig.IncludeArchived cfg).

Definition isDisabled (repo : Repo) : bool :=
  default false (Disabled repo) && negb (GHEConfig.IncludeDisabled cfg).

Definition isFork (repo : Repo) : bool :=
  default false (Fork repo) && negb (GHEConfig.IncludeForks cfg).

Definition isTemplate (repo : Repo) : bool :=
  default false (IsTemplate repo) && negb (GHEConfig.IncludeTemplates cfg).

Definition minLastActivityTS (now : Time) : Time :=
  AddDate now 0 0 (- GHEConfig.MinLastActivityDays cfg).

Definition isUpdatedInactive (now : Time) (repo : Repo) : bool :=
  match UpdatedAt repo with
  | Some t => Before t (minLastActivityTS now)
  | None => false
  end.

Definition isPushedInactive (now : Time) (repo : Repo) : bool :=
  match PushedAt repo with
  | Some t => Before t (minLastActivityTS now)
  | None => false
  end.

Definition isInactive (now : Time) (repo : Repo) : bool :=
  if 0 <? GHEConfig.MinLastActivityDays cfg
  then isUpdatedInactive now repo && isPushedInactive now repo
  else false.

(** [logger.Warn(...); repoMetrics[key]++; continue]. *)
Definition skip (st : ListState) (message : string)
    (extra : list (string * slog.Value)) (repo : Repo) (s : Status) : ListState :=
  mkListState (allRepos st) (incr (statusKey s) (repoMetrics st))
    (logs st ++ [slog.mkRecord slog.LevelWarn message
                   (extra ++ [("repository", slog.VString (GetFullName repo))])]).

(** The body of [for _, repo := range repos]; [now] is what [time.Now]
    returns in this iteration.  [None] is the run-time panic of
    [*repo.CloneURL] on a nil pointer. *)
Definition visit (now : Time) (st : ListState) (repo : Repo) : option ListState :=
  if isTooBig repo then
    Some (skip st "repository is too big, skipping"
            [("size_kb", slog.VInt (default 0 (Size repo)))] repo too_big)
  else if isEmpty repo then
    Some (skip st "repository is empty, skipping" [] repo empty)
  else if isArchived repo then
    Some (skip st "repository is archived, skipping" [] repo archived)
  else if isDisabled repo then
    Some (skip st "repository is disabled, skipping" [] repo disabled)
  else if isFork repo then
    Some (skip st "repository is a fork, skipping" [] repo fork)
  else if isTemplate repo then
    Some (skip st "repository is a template, skipping" [] repo template)
  else if isInactive now repo then
    Some (skip st "repository has not been active for a while, skipping" [] repo inactive)
  else
    match CloneURL repo with
    | Some cloneURL =>
        Some (mkListState (allRepos st ++ [cloneURL])
                (incr (statusKey selected) (repoMetrics st)) (logs st))
    | None => None
    end.

(** One page of repositories; [nows] gives [time.Now] per iteration. *)
Fixpoint visitAll (st : ListState) (page : list (Time * Repo)) : option ListState :=
  match page with
  | [] => Some st
  | (now, repo) :: rest =>
      match visit now st repo with
      | Some st' => visitAll st' rest
      | None => None
      end
  end.

(** The filter in the words of the specification: seven exclusion
    predicates in a fixed order, the first one that holds decides. *)
Definition spec_predicates (now : Time) : list (Status * (Repo -> bool)) :=
  [ (too_big, isTooBig); (empty, isEmpty); (archived, isArchived);
    (disabled, isDisabled); (fork, isFork); (template, isTemplate);
    (inactive, isInactive now) ].

Definition spec_first_failing (now : Time) (repo : Repo) : option Status :=
  fst <$> List.find (fun p => snd p repo) (spec_predicates now).

Definition spec_include (now : Time) (repo : Repo) : bool :=
  match spec_first_failing now repo with Some _ => false | None => true end.

End Filter.

(** [Client.cfg] after [NewClient]. *)
Record Client := mkClient { cfg : GHEConfig.t }.

Section NewClient.
(** [url.Parse] and the identity check [client.Users.Get(ctx, "")]
    against the API at the parsed URL with the token: the login, or the
    error text. *)
Variable url_Parse : string -> string + url.URL.
Variable Users_Get : url.URL -> string -> string + string.

Definition NewClient (cfg : GHEConfig.t) : Error + Client :=
  if String.eqb (GHEConfig.Token cfg) "" then inl ErrTokenRequired
  else if String.eqb (GHEConfig.BaseURL cfg) "" then inl ErrAPIBaseURLRequired
  else
    let cfg := if GHEConfig.Concurrency cfg <=? 0
               then GHEConfig.withConcurrency cfg 1 else cfg in
    match url_Parse (GHEConfig.BaseURL cfg ++ GHEAPIPath) with
    | inl err => inl (ErrParseURL err)
    | inr u =>
        match Users_Get u (GHEConfig.Token cfg) with
        | inl err => inl (ErrAuthenticate err)
        | inr _ => inr (mkClient cfg)
        end
    end.
End NewClient.

End github.

(** ** A trace monad: the effects of a call, in program order *)

Module trace.

Definition M (E A : Type) : Type := list E * A.

Definition ret {E A} (a : A) : M E A := ([], a).

Definition bind {E A B} (m : M E A) (k : A -> M E B) : M E B :=
  let (t1, a) := m in
  let (t2, b) := k a in
  ((t1 ++ t2)%list, b).

Definition emit {E} (e : E) : M E unit := ([e], tt).

Definition events {E A} (m : M E A) : list E := fst m.
Definition value {E A} (m : M E A) : A := snd m.

End trace.

#[global] Instance trace_ret {E} : MRet (trace.M E) := fun _ a => trace.ret a.
#[global] Instance trace_bind {E} : MBind (trace.M E) := fun _ _ k m => trace.bind m k.

(** ** [github.com/adevinta/vulcan-report] *)

Module report.

(** Modelled from the spec: the scanner's report types are declared in the
    vulcan-report module, outside the repository.  A Finding has the shape
    [{AffectedResource: string, Score: number, Resources: [{Rows: [{<key>:
    <string>, ...}, ...]}, ...]}]; the score is a [float32], here a
    [spec_float]. *)
Record ResourcesGroup := mkResourcesGroup {
  Rows : list (gmap string string)
}.

Record Vulnerability := mkVulnerability {
  AffectedResource : string;
  Score : spec_float;
  Resources : list ResourcesGroup
}.

End report.

(** ** [os/exec]: what [cmd.Run] reports *)

Module exec.

(** [syscall.WaitStatus]: the process exited with a status, or a signal
    terminated it. *)
Inductive WaitStatus :=
| Exited (status : N)
| Signaled (sig : N).

(** [os.ProcessState.ExitCode]: the exit code of the exited process, or
    -1 if the process has not exited or was terminated by a signal; the
    state is nil ([None]) when the process never started. *)
Definition ExitCode (p : option WaitStatus) : Z :=
  match p with
  | Some (Exited status) => Z.of_N status
  | Some (Signaled _) => -1
  | None => -1
  end.

(** The outcome of [cmd.Run]: the returned error is nil exactly "if the
    command runs, has no problems copying stdin, stdout, and stderr, and
    exits with a zero exit status"; otherwise it carries a text. *)
Inductive RunResult :=
| RunOk
| RunErr (err : string) (state : option WaitStatus).

Definition ProcessState (r : RunResult) : option WaitStatus :=
  match r with
  | RunOk => Some (Exited 0)
  | RunErr _ state => state
  end.

(** [err.Error()]; on [RunOk] the error is nil and the call is never made
    (see [ExitCode_pos_err]). *)
Definition Error_ (r : RunResult) : string :=
  match r with
  | RunOk => ""
  | RunErr err _ => err
  end.

End exec.

(** ** [internal/lava] *)

Module lava.
Import config gostrings.

Inductive Error :=
| ErrTokenRequired
| ErrAPIBaseURLRequired
| ErrLavaBinaryNotFound
| ErrLavaCheckImageRequired.

(** [Summary] represents a Lava scan summary.  A nil and an empty
    [Controls] slice are both the empty list; [Error_] is the field
    [Error]. *)
Record Summary := mkSummary {
  Repository : string;
  Controls : list string;
  ControlInPlace : bool;
  NumberOfControls : Z;
  Error_ : string
}.

Record Client := mkClient { cfg : LavaConfig.t }.

(** What a call leaves behind, in order. *)
Inductive Event :=
| Log (r : slog.Record)
| Exec (binary : string) (args : list string)
| MkdirAll (path : string)
| WriteFile (path : string) (data : string).

(** What the world answers during one [scanRepo]: the outcome of the child
    process with the two captured streams, and the error ([Some]) or
    success ([None]) of each file-system call. *)
Record World := mkWorld {
  run : exec.RunResult;
  outBuf : string;
  errBuf : string;
  os_MkdirAll : string -> option string;
  os_WriteFile : string -> string -> option string
}.

Definition logf (l : slog.Level) (message : string) (attrs : list (string * slog.Value))
  : trace.M Event unit :=
  trace.emit (Log (slog.mkRecord l message attrs)).

Section Client.
(** [exec.LookPath], [json.Unmarshal] into [[]report.Vulnerability] and
    [url.Parse]: the value, or the text of the error. *)
Variable exec_LookPath : string -> string + string.
Variable json_Unmarshal : string -> string + list report.Vulnerability.
Variable url_Parse : string -> string + url.URL.

Definition NewClient (cfg : LavaConfig.t) : Error + Client :=
  if String.eqb (LavaConfig.Token cfg) "" then inl ErrTokenRequired
  else if String.eqb (LavaConfig.BaseURL cfg) "" then inl ErrAPIBaseURLRequired
  else
    let cfg := if LavaConfig.Concurrency cfg <=? 0
               then LavaConfig.withConcurrency cfg 1 else cfg in
    match exec_LookPath (LavaConfig.BinaryPath cfg) with
    | inl _ => inl ErrLavaBinaryNotFound
    | inr _ =>
        if String.eqb (LavaConfig.CheckImage cfg) "" then inl ErrLavaCheckImageRequired
        else inr (mkClient cfg)
    end.

Definition orgAndRepo (target : string) : string + (string * string) :=
  match url_Parse target with
  | inl err => inl ("invalid URL: " ++ err)
  | inr parsedURL =>
      let pathParts := Split (Trim (url.Path parsedURL) "/") "/" in
      match pathParts with
      | org :: repo :: _ => inr (org, repo)
      | _ => inl ("invalid GitHub URL path: " ++ url.Path parsedURL)
      end
  end.

Definition storeResults (c : Client) (w : World) (target stdout stderr : string)
  : trace.M Event unit :=
  if String.eqb (LavaConfig.ResultsPath (cfg c)) "" then trace.ret tt
  else
    match orgAndRepo target with
    | inl err =>
        logf slog.LevelError "failed to parse target"
          [("target", slog.VString target); ("error", slog.VError err)]
    | inr (org, repo) =>
        let resultsPath := LavaConfig.ResultsPath (cfg c) ++ org ++ "/" ++ repo in
        trace.emit (MkdirAll resultsPath) ;;
        match os_MkdirAll w resultsPath with
        | Some err =>
            logf slog.LevelError "failed to create results directory"
              [("path", slog.VString resultsPath); ("error", slog.VError err)]
        | None =>
            let stdOutFile := resultsPath ++ "/stdout.json" in
            let stdErrFile := resultsPath ++ "/stderr.log" in
            trace.emit (WriteFile stdOutFile stdout) ;;
            match os_WriteFile w stdOutFile stdout with
            | Some err =>
                logf slog.LevelError "failed to write stdout Lava scan results"
                  [("repository", slog.VString target); ("path", slog.VString stdOutFile);
                   ("error", slog.VError err)]
            | None =>
                trace.emit (WriteFile stdErrFile stderr) ;;
                match os_WriteFile w stdErrFile stderr with
                | Some err =>
                    logf slog.LevelError "failed to write stderr Lava scan results"
                      [("repository", slog.VString target); ("path", slog.VString stdErrFile);
                       ("error", slog.VError err)]
                | None =>
                    logf slog.LevelDebug "Lava scan results stored"
                      [("repository", slog.VString target); ("stdout", slog.VString stdOutFile);
                       ("stderr", slog.VString stdErrFile)]
                end
            end
        end
    end.

Definition lavaCmdArgs (c : Client) (repo : string) : list string :=
  [ "run";
    "-var"; "GITHUB_ENTERPRISE_ENDPOINT=" ++ LavaConfig.BaseURL (cfg c);
    "-var"; "GITHUB_ENTERPRISE_TOKEN=" ++ LavaConfig.Token (cfg c);
    "-type=GitRepository";
    "-show"; "info";
    "-fmt=json";
    LavaConfig.CheckImage (cfg c);
    repo ].

(** The string logged under the key ["args"]. *)
Definition loggedArgs (c : Client) (repo : string) : string :=
  ReplaceAll (Join (lavaCmdArgs c repo) " ") (LavaConfig.Token (cfg c)) "REDACTED".

(** [r.Score == 0] on a float: both zeros are equal to 0, a NaN is not. *)
Definition scoreIsZero (score : spec_float) : bool := SFeqb score (S754_zero false).

(** The two inner loops over the resources and their rows: each row with
    a ["Control"] key increments the counter and appends its value. *)
Definition addRow (s : Summary) (control : gmap string string) : Summary :=
  match control !! "Control" with
  | Some val =>
      mkSummary (Repository s) (Controls s ++ [val])%list (ControlInPlace s)
        (NumberOfControls s + 1) (Error_ s)
  | None => s
  end.

Definition addResource (s : Summary) (resource : report.ResourcesGroup) : Summary :=
  fold_left addRow (report.Rows resource) s.

Definition summarize (r : report.Vulnerability) : Summary :=
  fold_left addResource (report.Resources r)
    (mkSummary (report.AffectedResource r) [] (scoreIsZero (report.Score r)) 0 "").

Definition errorSummary (repo message : string) : Summary :=
  mkSummary repo [] false 0 message.

Definition runAttrs (err : slog.Value) (repo : string) (w : World) : list (string * slog.Value) :=
  [("error", err); ("repository", slog.VString repo);
   ("stderr", slog.VString (errBuf w)); ("stdout", slog.VString (outBuf w));
   ("duration", slog.VDuration)].

Definition scanRepo (c : Client) (w : World) (repo : string) : trace.M Event (list Summary) :=
  let summary : list Summary := [] in
  logf slog.LevelDebug "repository scan started" [("repository", slog.VString repo)] ;;
  logf slog.LevelDebug "scan repository command"
    [("repository", slog.VString repo); ("args", slog.VString (loggedArgs c repo))] ;;
  trace.emit (Exec (LavaConfig.BinaryPath (cfg c)) (lavaCmdArgs c repo)) ;;
  storeResults c w repo (outBuf w) (errBuf w) ;;
  if 0 <? exec.ExitCode (exec.ProcessState (run w)) then
    logf slog.LevelError "failed to run Lava"
      (runAttrs (slog.VError (exec.Error_ (run w))) repo w) ;;
    trace.ret (summary ++ [errorSummary repo ("error running Lava: " ++ exec.Error_ (run w))])%list
  else
    match json_Unmarshal (outBuf w) with
    | inl err =>
        logf slog.LevelError "failed to unmarshal Lava report"
          (runAttrs (slog.VError err) repo w) ;;
        trace.ret (summary ++ [errorSummary repo ("error unmarsalling Lava report: " ++ err)])%list
    | inr lr =>
        let summary := fold_left (fun summary r => (summary ++ [summarize r])%list) lr summary in
        logf slog.LevelInfo "repository scan completed successfully"
          [("repository", slog.VString repo); ("duration", slog.VDuration)] ;;
        trace.ret summary
    end.

(** *** The worker pool of [Scan]

    [jobs] is what is left of [jobsChan], filled with all the targets and
    closed; [results] is [jobResultsChan], large enough never to block.  A
    worker is between two jobs, inside [scanRepo], or has left its loop
    because the closed channel was empty. *)
Inductive Worker :=
| Idle
| Scanning (repo : string)
| Done.

Record Pool := mkPool {
  jobs : list string;
  workers : list Worker;
  results : list (list Summary)
}.

Definition start (c : Client) (targets : list string) : Pool :=
  mkPool targets (replicate (Z.to_nat (LavaConfig.Concurrency (cfg c))) Idle) [].

Inductive step (c : Client) : Pool -> Pool -> Prop :=
| step_receive i repo rest ws rs :
    ws !! i = Some Idle ->
    step c (mkPool (repo :: rest) ws rs) (mkPool rest (<[i := Scanning repo]> ws) rs)
| step_scanned i repo w js ws rs :
    ws !! i = Some (Scanning repo) ->
    step c (mkPool js ws rs)
           (mkPool js (<[i := Idle]> ws) (rs ++ [trace.value (scanRepo c w repo)])%list)
| step_closed i ws rs :
    ws !! i = Some Idle ->
    step c (mkPool [] ws rs) (mkPool [] (<[i := Done]> ws) rs).

(** [wg.Wait()] returns: every worker has left its loop. *)
Definition finished (p : Pool) : Prop := Forall (fun w => w = Done) (workers p).

(** The slice [Scan] returns: the batches of [jobResultsChan], flattened in
    channel order. *)
Definition collect (p : Pool) : list Summary := concat (results p).

Definition Scan (c : Client) (targets : list string) (summary : list Summary) : Prop :=
  exists p, rtc (step c) (start c targets) p /\ finished p /\ summary = collect p.

End Client.

End lava.

(** ** [internal/output] *)

Module output.
Import gostrings.

Inductive Error :=
| ErrUnsupportedFormat
| ErrOutputFileRequired
| ErrIO (cause : string).

(** The calls [Write] makes on the file, the CSV writer and the JSON
    encoder, in order. *)
Inductive Event :=
| Create (file : string)
| CsvWrite (record : list string)
| CsvFlush
| JsonEncode (prefix indent : string) (v : list lava.Summary)
| Close.

(** The errors of [os.Create], of the [k]-th [writer.Write] and of
    [encoder.Encode]; [None] is success. *)
Record World := mkWorld {
  os_Create : string -> option string;
  csv_Write : nat -> list string -> option string;
  json_Encode : list lava.Summary -> option string
}.

Definition csvHeader : list string :=
  ["repository"; "control_in_place"; "number_of_controls"; "controls"; "error"].

Definition csvRecord (s : lava.Summary) : list string :=
  [ lava.Repository s;
    FormatBool (lava.ControlInPlace s);
    Itoa (lava.NumberOfControls s);
    Join (lava.Controls s) "#";
    lava.Error_ s ].

(** [for _, s := range summary]: the [k]-th record is written; the first
    error ends the loop and is returned. *)
Fixpoint writeRows (w : World) (k : nat) (summary : list lava.Summary)
  : trace.M Event (option Error) :=
  match summary with
  | [] => trace.ret None
  | s :: rest =>
      trace.emit (CsvWrite (csvRecord s)) ;;
      match csv_Write w k (csvRecord s) with
      | Some err => trace.ret (Some (ErrIO err))
      | None => writeRows w (S k) rest
      end
  end.

(** The deferred calls run when [Write] returns, last deferred first. *)
Definition deferred {A} (ds : list Event) (m : trace.M Event A) : trace.M Event A :=
  a ← m; foldr (fun d k => trace.emit d ;; k) (trace.ret a) ds.

Definition Write (w : World) (format file : string) (summary : list lava.Summary)
  : trace.M Event (option Error) :=
  if String.eqb file "" then trace.ret (Some ErrOutputFileRequired)
  else
    trace.emit (Create file) ;;
    match os_Create w file with
    | Some err => trace.ret (Some (ErrIO err))
    | None =>
        let format := ToLower format in
        if String.eqb format "csv" then
          deferred [CsvFlush; Close]
            (trace.emit (CsvWrite csvHeader) ;;
             match csv_Write w 0 csvHeader with
             | Some err => trace.ret (Some (ErrIO err))
             | None => writeRows w 1 summary
             end)
        else if String.eqb format "json" then
          deferred [Close]
            (trace.emit (JsonEncode "" "  " summary) ;;
             match json_Encode w summary with
             | Some err => trace.ret (Some (ErrIO err))
             | None => trace.ret None
             end)
        else
          deferred [Close] (trace.ret (Some ErrUnsupportedFormat))
    end.

End output.

(** * Properties *)

(** ** The repository filter *)

Module github_props.
Import config github.

(** The repository is left out of [allRepos] and counted under [s]. *)
Definition excluded_as (s : Status) (st st' : ListState) : Prop :=
  allRepos st' = allRepos st /\
  repoMetrics st' = incr (statusKey s) (repoMetrics st).

(** The repository is appended to [allRepos] under its clone address. *)
Definition included_as (cloneURL : string) (st : ListState) : ListState :=
  mkListState (allRepos st ++ [cloneURL])%list
    (incr (statusKey selected) (repoMetrics st)) (logs st).

Section Filter.
Variable Time : Type.
Variable Before : Time -> Time -> bool.
Variable AddDate : Time -> Z -> Z -> Z -> Time.
Variable cfg : GHEConfig.t.

Local Abbreviation Repo := (Repository Time).
Local Abbreviation visit := (github.visit Time Before AddDate cfg).
Local Abbreviation first_failing := (spec_first_failing Time Before AddDate cfg).
Local Abbreviation isInactive := (github.isInactive Time Before AddDate cfg).
Local Abbreviation stale :=
  (fun now t => Before t (minLastActivityTS Time AddDate cfg now)).

Lemma skip_excluded (st : ListState) message extra (repo : Repo) s :
  excluded_as s st (skip Time st message extra repo s).
Proof. split; reflexivity. Qed.

(** [visit] decides as the ordered list of predicates does. *)
Lemma visit_first_failing now st (repo : Repo) :
  match first_failing now repo with
  | Some s => exists st', visit now st repo = Some st' /\ excluded_as s st st'
  | None => visit now st repo = (fun u => included_as u st) <$> CloneURL repo
  end.
Proof.
  unfold github.visit, spec_first_failing, spec_predicates. cbn [List.find snd fst fmap option_fmap option_map].
  repeat match goal with
  | |- context [if ?b then _ else _] =>
      lazymatch b with
      | context [if _ then _ else _] => fail
      | _ => destruct b eqn:?
      end
  end; cbn; eauto using skip_excluded.
Qed.



Lemma first_failing_None now (repo : Repo) :
  first_failing now repo = None <->
  isTooBig Time cfg repo = false /\ isEmpty Time cfg repo = false /\
  isArchived Time cfg repo = false /\ isDisabled Time cfg repo = false /\
  isFork Time cfg repo = false /\ isTemplate Time cfg repo = false /\
  isInactive now repo = false.
Proof.
  unfold spec_first_failing, spec_predicates. cbn [List.find snd fst].
  destruct (isTooBig Time cfg repo), (isEmpty Time cfg repo), (isArchived Time cfg repo),
    (isDisabled Time cfg repo), (isFork Time cfg repo), (isTemplate Time cfg repo),
    (isInactive now repo); cbn; intuition congruence.
Qed.

Lemma visit_passes now st (repo : Repo) cloneURL :
  first_failing now repo = None -> CloneURL repo = Some cloneURL ->
  visit now st repo = Some (included_as cloneURL st).
Proof.
  intros Hnone Hu. pose proof (visit_first_failing now st repo) as Hv.
  rewrite Hnone, Hu in Hv. exact Hv.
Qed.

(** C3: the filter decides as the seven predicates size-ceiling, empty,
    archived, disabled, fork, template, inactive do when they are tried in
    this order and the first one that holds excludes the repository (the
    decision depends on the metadata, the policy and the clock only); a
    repository whose size is above the ceiling is excluded whatever its
    other fields and the policy are; a repository on which no predicate
    holds is appended under its clone address; so the list of addresses
    grows by the clone address exactly when [spec_include] is true; the
    clock matters to the inactivity predicate only, and not at all when
    the minimum recency is 0. *)
Theorem C3_filter_order now st (repo : Repo) :
  (forall s, first_failing now repo = Some s ->
     exists st', visit now st repo = Some st' /\ excluded_as s st st') /\
  (forall size, Size repo = Some size -> GHEConfig.RepositorySizeLimit cfg < size ->
     first_failing now repo = Some too_big /\
     exists st', visit now st repo = Some st' /\ excluded_as too_big st st') /\
  (forall cloneURL, first_failing now repo = None -> CloneURL repo = Some cloneURL ->
     visit now st repo = Some (included_as cloneURL st)) /\
  (forall cloneURL st', CloneURL repo = Some cloneURL -> visit now st repo = Some st' ->
     allRepos st' = if spec_include Time Before AddDate cfg now repo
                    then (allRepos st ++ [cloneURL])%list else allRepos st) /\
  (GHEConfig.MinLastActivityDays cfg <= 0 ->
     forall now', first_failing now' repo = first_failing now repo).
Proof.
  pose proof (visit_first_failing now st repo) as Hv.
  split; [|split; [|split; [|split]]]; cycle 3.
  2:{ intros Hd now'. unfold spec_first_failing, spec_predicates, github.isInactive.
      apply Z.ltb_ge in Hd. cbn [List.find snd]. rewrite Hd. reflexivity. }
  - intros u st' Hu Hvisit. unfold spec_include.
    destruct (first_failing now repo) as [s|].
    + destruct Hv as (st'' & Hv & Hex & _). congruence.
    + rewrite Hu in Hv. cbn in Hv. rewrite Hv in Hvisit. injection Hvisit as <-. reflexivity.
  - intros s Hs. rewrite Hs in Hv. exact Hv.
  - intros size Hsize Hlt.
    assert (Hbig : first_failing now repo = Some too_big).
    { unfold spec_first_failing, spec_predicates. cbn [List.find snd].
      unfold isTooBig. rewrite Hsize.
      apply Z.ltb_lt in Hlt. rewrite Hlt. reflexivity. }
    split; [exact Hbig|]. rewrite Hbig in Hv. exact Hv.
  - intros u Hnone Hu. apply visit_passes; assumption.
Qed.


(** C10: a field the listing left out never makes its predicate hold: no
    size is neither too big nor empty, a missing archived, disabled, fork
    or template flag is false, a missing last-updated or last-pushed
    timestamp is not stale; a repository with none of these fields passes
    every predicate and is appended under its clone address. *)
Theorem C10_absent_metadata now st (repo : Repo) :
  (Size repo = None -> isTooBig Time cfg repo = false /\ isEmpty Time cfg repo = false) /\
  (Archived repo = None -> isArchived Time cfg repo = false) /\
  (Disabled repo = None -> isDisabled Time cfg repo = false) /\
  (Fork repo = None -> isFork Time cfg repo = false) /\
  (IsTemplate repo = None -> isTemplate Time cfg repo = false) /\
  (UpdatedAt repo = None -> isUpdatedInactive Time Before AddDate cfg now repo = false) /\
  (PushedAt repo = None -> isPushedInactive Time Before AddDate cfg now repo = false) /\
  (UpdatedAt repo = None \/ PushedAt repo = None -> isInactive now repo = false) /\
  (Size repo = None -> Archived repo = None -> Disabled repo = None ->
   Fork repo = None -> IsTemplate repo = None ->
   UpdatedAt repo = None -> PushedAt repo = None ->
   first_failing now repo = None /\
   forall cloneURL, CloneURL repo = Some cloneURL ->
     visit now st repo = Some (included_as cloneURL st)).
Proof.
  assert (Hin : UpdatedAt repo = None \/ PushedAt repo = None -> isInactive now repo = false).
  { unfold github.isInactive, isUpdatedInactive, isPushedInactive.
    intros [-> | ->]; destruct (0 <? _); try reflexivity.
    destruct (UpdatedAt repo); [apply andb_false_r | reflexivity]. }
  assert (Hff : Size repo = None -> Archived repo = None -> Disabled repo = None ->
                Fork repo = None -> IsTemplate repo = None ->
                UpdatedAt repo = None -> PushedAt repo = None ->
                first_failing now repo = None).
  { intros HS HA HD HF HT HU HP. apply first_failing_None.
    unfold isTooBig, isEmpty, isArchived, isDisabled, isFork, isTemplate.
    rewrite HS, HA, HD, HF, HT, (Hin (or_introl HU)). tauto. }
  split. { intros H. unfold isTooBig, isEmpty. rewrite H. split; reflexivity. }
  split. { intros H. unfold isArchived. rewrite H. reflexivity. }
  split. { intros H. unfold isDisabled. rewrite H. reflexivity. }
  split. { intros H. unfold isFork. rewrite H. reflexivity. }
  split. { intros H. unfold isTemplate. rewrite H. reflexivity. }
  split. { intros H. unfold isUpdatedInactive. rewrite H. reflexivity. }
  split. { intros H. unfold isPushedInactive. rewrite H. reflexivity. }
  split. { exact Hin. }
  intros HS HA HD HF HT HU HP. split; [auto|].
  intros u Hu. apply visit_passes; auto.
Qed.

End Filter.

End github_props.

(** ** The filter on concrete repositories

    The clock of the examples counts seconds; [AddDate] moves it by whole
    days of 86400 seconds. *)

Module github_examples.
Import config github github_props.

Definition Before (t u : Z) : bool := t <? u.
Definition AddDate (t years months days : Z) : Z :=
  t + 86400 * (365 * years + 30 * months + days).

(** The defaults of [GHEConfig], and the same with a recency of 30 days. *)
Definition defaults : GHEConfig.t :=
  GHEConfig.mk "ghp_token" "https://ghe.example" 15 3145728 false false false false false 0.
Definition recent30 : GHEConfig.t :=
  GHEConfig.mk "ghp_token" "https://ghe.example" 15 3145728 false false false false false 30.

Definition day (n : Z) : Z := 86400 * n.

Definition repo1 : Repository Z :=
  mkRepository (Some "org1/repo1") (Some "https://ghe.example/org1/repo1")
    (Some 500) (Some false) (Some false) (Some false) (Some false)
    (Some (day 10)) (Some (day 90)).

(** Above the ceiling, and archived, a fork and a template as well. *)
Definition huge : Repository Z :=
  mkRepository (Some "org1/huge") (Some "https://ghe.example/org1/huge")
    (Some 4000000) (Some true) (Some false) (Some true) (Some true)
    (Some (day 10)) (Some (day 20)).

Definition dormant : Repository Z :=
  mkRepository (Some "org1/dormant") (Some "https://ghe.example/org1/dormant")
    (Some 500) (Some false) (Some false) (Some false) (Some false)
    (Some (day 10)) (Some (day 20)).

Definition bare : Repository Z :=
  mkRepository None (Some "https://ghe.example/org1/bare")
    None None None None None None None.

Example visit_repo1 :
  allRepos <$> visit Z Before AddDate defaults (day 100) initialState repo1
  = Some ["https://ghe.example/org1/repo1"].
Proof. reflexivity. Qed.

Example visit_page :
  allRepos <$> visitAll Z Before AddDate recent30 initialState
    [(day 100, repo1); (day 100, huge); (day 100, dormant); (day 100, bare)]
  = Some ["https://ghe.example/org1/repo1"; "https://ghe.example/org1/bare"].
Proof. reflexivity. Qed.

Example visit_page_metrics :
  (fun st => map (fun k => repoMetrics st !! k) ["too_big"; "inactive"; "selected"; "fork"])
    <$> visitAll Z Before AddDate recent30 initialState
          [(day 100, repo1); (day 100, huge); (day 100, dormant); (day 100, bare)]
  = Some [Some 1; Some 1; Some 2; Some 0].
Proof. vm_compute. reflexivity. Qed.

Lemma C3_filter_order_witness :
  (exists st', visit Z Before AddDate defaults (day 100) initialState huge = Some st' /\
               excluded_as too_big initialState st') /\
  visit Z Before AddDate defaults (day 100) initialState repo1
  = Some (included_as "https://ghe.example/org1/repo1" initialState).
Proof.
  split.
  - destruct (C3_filter_order Z Before AddDate defaults (day 100) initialState huge)
      as (_ & Hbig & _).
    apply (Hbig 4000000); reflexivity.
  - destruct (C3_filter_order Z Before AddDate defaults (day 100) initialState repo1)
      as (_ & _ & Hin).
    apply Hin; reflexivity.
Defined.


Lemma C10_absent_metadata_witness :
  spec_first_failing Z Before AddDate recent30 (day 100) bare = None /\
  visit Z Before AddDate recent30 (day 100) initialState bare
  = Some (included_as "https://ghe.example/org1/bare" initialState).
Proof.
  destruct (C10_absent_metadata Z Before AddDate recent30 (day 100) initialState bare)
    as (_ & _ & _ & _ & _ & _ & _ & _ & Hall).
  destruct Hall as [Hnone Hin]; try reflexivity.
  split; [exact Hnone | apply Hin; reflexivity].
Defined.

End github_examples.

(** ** Traces *)

Module trace_props.

Lemma value_bind {E A B} (m : trace.M E A) (k : A -> trace.M E B) :
  trace.value (m ≫= k) = trace.value (k (trace.value m)).
Proof.
  unfold mbind, trace_bind, trace.bind, trace.value.
  destruct m as [t1 a]. cbn. destruct (k a). reflexivity.
Qed.

Lemma events_bind {E A B} (m : trace.M E A) (k : A -> trace.M E B) :
  trace.events (m ≫= k) = (trace.events m ++ trace.events (k (trace.value m)))%list.
Proof.
  unfold mbind, trace_bind, trace.bind, trace.events, trace.value.
  destruct m as [t1 a]. cbn. destruct (k a). reflexivity.
Qed.

Lemma value_ret {E A} (a : A) : trace.value (trace.ret a : trace.M E A) = a.
Proof. reflexivity. Qed.

Lemma events_ret {E A} (a : A) : trace.events (trace.ret a : trace.M E A) = [].
Proof. reflexivity. Qed.

Lemma events_emit {E} (e : E) : trace.events (trace.emit e) = [e].
Proof. reflexivity. Qed.

End trace_props.

(** ** The scan of one repository *)

Module lava_props.
Import config gostrings lava trace_props.

(** The controls of a Finding in the words of the specification: the
    values of the row entries keyed "Control", over all the resources of
    the Finding, in the order they are met. *)
Definition spec_controls (r : report.Vulnerability) : list string :=
  flat_map (fun resource => omap (fun row : gmap string string => row !! "Control")
                              (report.Rows resource))
           (report.Resources r).

Definition isExec (e : Event) : bool :=
  match e with Exec _ _ => true | _ => false end.

(** The number of times the scanner was started. *)
Definition execCount (t : list Event) : nat := length (List.filter isExec t).

Lemma ExitCode_pos_err r :
  0 < exec.ExitCode (exec.ProcessState r) ->
  exists err state, r = exec.RunErr err state.
Proof. destruct r as [|err state]; cbn; [lia | eauto]. Qed.

Lemma fold_left_append {A B} (f : A -> B) (l : list A) (acc : list B) :
  fold_left (fun acc a => (acc ++ [f a])%list) l acc = (acc ++ map f l)%list.
Proof.
  revert acc. induction l as [|a l IH]; intros acc; cbn.
  - symmetry. apply app_nil_r.
  - rewrite IH, <- app_assoc. reflexivity.
Qed.

Record same_but_controls (s s' : Summary) (vals : list string) : Prop := {
  sbc_repo : Repository s' = Repository s;
  sbc_in_place : ControlInPlace s' = ControlInPlace s;
  sbc_error : Error_ s' = Error_ s;
  sbc_controls : Controls s' = (Controls s ++ vals)%list;
  sbc_number : NumberOfControls s' = NumberOfControls s + Z.of_nat (length vals)
}.

Lemma addRow_rows rows s :
  same_but_controls s (fold_left addRow rows s)
    (omap (fun row : gmap string string => row !! "Control") rows).
Proof.
  revert s. induction rows as [|row rows IH]; intros s; cbn [fold_left omap list_omap].
  - split; cbn; rewrite ?app_nil_r; auto; lia.
  - destruct (IH (addRow s row)) as [H1 H2 H3 H4 H5].
    unfold addRow in *. destruct (row !! "Control") as [val|] eqn:Hrow.
    + cbn in *. split; try congruence.
      * rewrite H4, <- app_assoc. reflexivity.
      * rewrite H5. cbn [length]. lia.
    + split; assumption.
Qed.

Lemma addResource_resources resources s :
  same_but_controls s (fold_left addResource resources s)
    (flat_map (fun resource => omap (fun row : gmap string string => row !! "Control")
                                 (report.Rows resource)) resources).
Proof.
  revert s. induction resources as [|res resources IH]; intros s; cbn [fold_left flat_map].
  - split; cbn; rewrite ?app_nil_r; auto; lia.
  - destruct (IH (addResource s res)) as [H1 H2 H3 H4 H5].
    destruct (addRow_rows (report.Rows res) s) as [G1 G2 G3 G4 G5].
    fold (addResource s res) in G1, G2, G3, G4, G5.
    split; try congruence.
    + rewrite H4, G4, <- app_assoc. reflexivity.
    + rewrite H5, G5, length_app. lia.
Qed.

Lemma summarize_spec r :
  summarize r =
    mkSummary (report.AffectedResource r) (spec_controls r)
      (scoreIsZero (report.Score r)) (Z.of_nat (length (spec_controls r))) "".
Proof.
  unfold summarize.
  destruct (addResource_resources (report.Resources r)
              (mkSummary (report.AffectedResource r) [] (scoreIsZero (report.Score r)) 0 ""))
    as [H1 H2 H3 H4 H5].
  fold (spec_controls r) in H4, H5. cbn in *.
  destruct (fold_left addResource _ _) as [rp cs ip n e]. cbn in *. subst. reflexivity.
Qed.

Lemma scoreIsZero_iff x :
  scoreIsZero x = true <-> exists sign, x = S754_zero sign.
Proof.
  unfold scoreIsZero, SFeqb. split.
  - destruct x as [s| [|] | |s m e]; cbn; try discriminate; eauto.
    destruct s; discriminate.
  - intros [s ->]. reflexivity.
Qed.

(** Every path through [storeResults]. *)
Ltac store_cases :=
  unfold lava.storeResults, lava.orgAndRepo, logf;
  repeat match goal with
  | |- context [match ?x with _ => _ end] => destruct x eqn:?
  | |- context [if ?x then _ else _] => destruct x eqn:?
  end.

Section Client.
Variable json_Unmarshal : string -> string + list report.Vulnerability.
Variable url_Parse : string -> string + url.URL.

Local Abbreviation scanRepo := (lava.scanRepo json_Unmarshal url_Parse).
Local Abbreviation storeResults := (lava.storeResults url_Parse).

(** The summaries of a scan: one error summary when the exit code is
    positive or the output does not parse, one summary per Finding
    otherwise. *)
Lemma scanRepo_value c w repo :
  trace.value (scanRepo c w repo) =
    if 0 <? exec.ExitCode (exec.ProcessState (run w)) then
      [errorSummary repo ("error running Lava: " ++ exec.Error_ (run w))]
    else match json_Unmarshal (outBuf w) with
         | inl err => [errorSummary repo ("error unmarsalling Lava report: " ++ err)]
         | inr lr => map summarize lr
         end.
Proof.
  unfold lava.scanRepo. cbv zeta. rewrite !value_bind.
  destruct (0 <? _).
  - rewrite value_bind. reflexivity.
  - destruct (json_Unmarshal (outBuf w)) as [err|lr].
    + rewrite value_bind. reflexivity.
    + rewrite value_bind, value_ret, fold_left_append. reflexivity.
Qed.

(** The log records that close a scan. *)
Definition isOutcomeLog (e : Event) : Prop :=
  exists r, e = Log r /\
    In (slog.msg r) ["failed to run Lava"; "failed to unmarshal Lava report";
                     "repository scan completed successfully"].

Definition isFileEvent (e : Event) : bool :=
  match e with MkdirAll _ | WriteFile _ _ => true | _ => false end.

(** The trace of a scan: the two debug records, the child process, what
    [storeResults] does, and one closing record. *)
Lemma scanRepo_events c w repo :
  exists outcome,
    trace.events (scanRepo c w repo) =
      ([ Log (slog.mkRecord slog.LevelDebug "repository scan started"
                [("repository", slog.VString repo)]);
         Log (slog.mkRecord slog.LevelDebug "scan repository command"
                [("repository", slog.VString repo);
                 ("args", slog.VString (loggedArgs c repo))]);
         Exec (LavaConfig.BinaryPath (cfg c)) (lavaCmdArgs c repo) ]
       ++ trace.events (storeResults c w repo (outBuf w) (errBuf w))
       ++ [outcome])%list /\
    isOutcomeLog outcome.
Proof.
  unfold lava.scanRepo. cbv zeta. rewrite !events_bind.
  unfold logf at 1 2. rewrite !events_emit. cbn [app].
  destruct (0 <? _); [|destruct (json_Unmarshal (outBuf w))].
  all: rewrite events_bind, events_ret, app_nil_r; unfold logf; rewrite events_emit.
  all: eexists; split; [reflexivity|]; eexists; split; [reflexivity|]; cbn; auto.
Qed.

Lemma storeResults_no_exec c w target stdout stderr :
  execCount (trace.events (storeResults c w target stdout stderr)) = 0%nat.
Proof. store_cases; reflexivity. Qed.

Lemma scanRepo_exec_once c w repo :
  execCount (trace.events (scanRepo c w repo)) = 1%nat.
Proof.
  destruct (scanRepo_events c w repo) as (outcome & -> & (r & -> & _)).
  unfold execCount. cbn [app List.filter isExec length].
  rewrite List.filter_app, length_app.
  fold (execCount (trace.events (storeResults c w repo (outBuf w) (errBuf w)))).
  rewrite storeResults_no_exec. reflexivity.
Qed.

(** C1: when the scanner's output is parsed, the scan returns one summary
    per Finding, in order: its repository is the Finding's affected
    resource, its control-in-place flag is true exactly when the score is
    a zero, its controls are the values keyed "Control" of the rows of the
    Finding's resources in the order they are met, its number of controls
    is the length of that list, and its error is empty. *)
Theorem C1_summary_per_finding c w repo lr :
  exec.ExitCode (exec.ProcessState (run w)) <= 0 ->
  json_Unmarshal (outBuf w) = inr lr ->
  let summaries := trace.value (scanRepo c w repo) in
  length summaries = length lr /\
  Forall2 (fun r s =>
             Repository s = report.AffectedResource r /\
             (ControlInPlace s = true <-> exists sign, report.Score r = S754_zero sign) /\
             Controls s = spec_controls r /\
             NumberOfControls s = Z.of_nat (length (Controls s)) /\
             Error_ s = "")
          lr summaries.
Proof.
  intros Hexit Hparse. cbv zeta. rewrite scanRepo_value, Hparse.
  apply Z.ltb_ge in Hexit. rewrite Hexit.
  split; [apply length_map|].
  clear Hparse. induction lr as [|r lr IH]; cbn [map]; constructor; [|exact IH].
  rewrite summarize_spec. cbn. rewrite scoreIsZero_iff. auto.
Qed.

(** C2 (amended): a scanner whose exit code is positive gives exactly one
    summary for the repository, whatever its standard output holds: no
    controls, and the error "error running Lava: " followed by the text of
    the failure, which is the error [cmd.Run] returned; a scanner whose
    exit code is not positive (zero, or the -1 of a scanner that a signal
    ended or that never started) and whose output does not parse gives
    exactly one summary with the error "error unmarsalling Lava report: "
    followed by the text of the parse error, which is never equal to a
    message of the first kind; the two cases are told apart by the exit
    code alone, and in both the scanner was started exactly once. *)
Theorem C2_error_summaries c w repo :
  let code := exec.ExitCode (exec.ProcessState (run w)) in
  (0 < code ->
   (exists err state, run w = exec.RunErr err state /\
      trace.value (scanRepo c w repo)
        = [mkSummary repo [] false 0 ("error running Lava: " ++ err)]) /\
   trace.value (scanRepo c w repo)
     = [mkSummary repo [] false 0 ("error running Lava: " ++ exec.Error_ (run w))] /\
   "error running Lava: " ++ exec.Error_ (run w) <> "") /\
  (forall err,
     code <= 0 ->
     json_Unmarshal (outBuf w) = inl err ->
     trace.value (scanRepo c w repo)
       = [mkSummary repo [] false 0 ("error unmarsalling Lava report: " ++ err)] /\
     "error unmarsalling Lava report: " ++ err <> "") /\
  (forall s, In s (trace.value (scanRepo c w repo)) ->
     HasPrefix (Error_ s) "error running Lava: " = true -> 0 < code) /\
  (forall e1 e2, "error running Lava: " ++ e1 <> "error unmarsalling Lava report: " ++ e2) /\
  execCount (trace.events (scanRepo c w repo)) = 1%nat.
Proof.
  cbv zeta. split; [|split; [|split; [|split]]].
  - intros Hpos. rewrite scanRepo_value.
    pose proof Hpos as Hlt. apply Z.ltb_lt in Hlt. rewrite Hlt.
    split; [|split; [reflexivity | discriminate]].
    destruct (run w) as [|err state] eqn:Hrun; [cbn in Hpos; lia|].
    exists err, state. split; reflexivity.
  - intros err Hexit Hparse. rewrite scanRepo_value, Hparse.
    apply Z.ltb_ge in Hexit. rewrite Hexit. split; [reflexivity | discriminate].
  - intros s. rewrite scanRepo_value.
    destruct (0 <? _) eqn:Hexit; [intros _ _; apply Z.ltb_lt, Hexit|].
    destruct (json_Unmarshal (outBuf w)) as [err|lr].
    + intros [<-|[]]. cbn. discriminate.
    + intros (r & <- & _)%in_map_iff. rewrite summarize_spec. cbn. discriminate.
  - intros e1 e2. cbn. discriminate.
  - apply scanRepo_exec_once.
Qed.

End Client.

End lava_props.

(** ** The worker pool of [Scan] *)

Module pool_props.
Import config lava trace_props lava_props.

(** The repositories inside [scanRepo] right now. *)
Definition scanning (ws : list Worker) : list string :=
  omap (fun w => match w with Scanning repo => Some repo | _ => None end) ws.

Definition weight (w : Worker) : nat :=
  match w with Scanning _ => 2 | Idle => 1 | Done => 0 end.

(** What is left to do: it decreases with every step of the pool. *)
Definition measure (p : Pool) : nat :=
  3 * length (jobs p) + sum_list (weight <$> workers p).

Arguments scanning : simpl never.

Lemma scanning_cons w ws :
  scanning (w :: ws) =
    match w with Scanning repo => repo :: scanning ws | _ => scanning ws end.
Proof. destruct w; reflexivity. Qed.

Lemma scanning_receive ws i repo :
  ws !! i = Some Idle -> scanning (<[i := Scanning repo]> ws) ≡ₚ repo :: scanning ws.
Proof.
  revert i. induction ws as [|w ws IH]; intros [|i]; simpl; try discriminate.
  - intros [= ->]. reflexivity.
  - intros H. specialize (IH _ H). rewrite !scanning_cons.
    destruct w; rewrite IH; first [reflexivity | apply perm_swap].
Qed.

Lemma scanning_scanned ws i repo :
  ws !! i = Some (Scanning repo) -> scanning ws ≡ₚ repo :: scanning (<[i := Idle]> ws).
Proof.
  revert i. induction ws as [|w ws IH]; intros [|i]; simpl; try discriminate.
  - intros [= ->]. reflexivity.
  - intros H. specialize (IH _ H). rewrite !scanning_cons.
    destruct w; rewrite IH; first [reflexivity | apply perm_swap].
Qed.

Lemma scanning_closed ws i :
  ws !! i = Some Idle -> scanning (<[i := Done]> ws) = scanning ws.
Proof.
  revert i. induction ws as [|w ws IH]; intros [|i]; simpl; try discriminate.
  - intros [= ->]. reflexivity.
  - intros H. specialize (IH _ H). rewrite !scanning_cons.
    destruct w; first [exact IH | f_equal; exact IH].
Qed.

Lemma scanning_finished ws : Forall (fun w => w = Done) ws -> scanning ws = [].
Proof. induction 1 as [|w ws -> _ IH]; [reflexivity | exact IH]. Qed.

Lemma weight_insert ws i a b :
  ws !! i = Some a ->
  (sum_list (weight <$> <[i := b]> ws) + weight a = sum_list (weight <$> ws) + weight b)%nat.
Proof.
  revert i. induction ws as [|w ws IH]; intros [|i]; simpl; try discriminate.
  - intros [= ->]. lia.
  - intros H. specialize (IH _ H). unfold fmap in *. lia.
Qed.

Section Client.
Variable json_Unmarshal : string -> string + list report.Vulnerability.
Variable url_Parse : string -> string + url.URL.
Variable c : Client.

Local Abbreviation step := (lava.step json_Unmarshal url_Parse c).
Local Abbreviation Scan := (lava.Scan json_Unmarshal url_Parse c).

(** The summaries of one scan of [repo] in the world [w]. *)
Definition batch (job : string * World) : list Summary :=
  trace.value (lava.scanRepo json_Unmarshal url_Parse c job.2 job.1).

(** Every target is waiting, being scanned, or scanned once with its batch
    in the results; a worker leaves only when nothing is waiting. *)
Definition pool_inv (targets : list string) (p : Pool) : Prop :=
  exists scanned : list (string * World),
    results p = batch <$> scanned /\
    targets ≡ₚ (scanned.*1 ++ scanning (workers p) ++ jobs p)%list /\
    (Done ∈ workers p -> jobs p = []) /\
    length (workers p) = Z.to_nat (LavaConfig.Concurrency (cfg c)).

Lemma pool_inv_start targets : pool_inv targets (start c targets).
Proof.
  exists []. unfold start. cbn. repeat split.
  - assert (scanning (replicate (Z.to_nat (LavaConfig.Concurrency (cfg c))) Idle) = []) as ->;
      [|reflexivity].
    induction (Z.to_nat _); [reflexivity | assumption].
  - intros [[=] _]%elem_of_replicate.
  - apply length_replicate.
Qed.

Lemma pool_inv_step targets p p' :
  step p p' -> pool_inv targets p -> pool_inv targets p'.
Proof.
  unfold pool_inv. intros Hstep (scanned & Hres & Hperm & Hdone & Hlen).
  destruct Hstep as [i repo rest ws rs Hi | i repo w js ws rs Hi | i ws rs Hi];
    cbn [jobs workers results] in *.
  - exists scanned. repeat split; auto.
    + rewrite Hperm, (scanning_receive _ _ _ Hi).
      apply Permutation_app_head. symmetry. apply Permutation_middle.
    + intros Hin. exfalso.
      apply list_elem_of_lookup in Hin as [j Hj].
      destruct (decide (i = j)) as [->|Hne].
      * rewrite list_lookup_insert_eq in Hj by eauto using lookup_lt_Some. discriminate.
      * rewrite list_lookup_insert_ne in Hj by done.
        assert (Done ∈ ws) as Hd%Hdone by eauto using list_elem_of_lookup_2. discriminate.
    + rewrite length_insert. exact Hlen.
  - exists (scanned ++ [(repo, w)])%list. repeat split.
    + rewrite fmap_app, Hres. reflexivity.
    + rewrite Hperm, (scanning_scanned _ _ _ Hi), fmap_app. cbn.
      rewrite <- app_assoc. reflexivity.
    + intros Hin. apply Hdone.
      apply list_elem_of_lookup in Hin as [j Hj].
      destruct (decide (i = j)) as [->|Hne].
      * rewrite list_lookup_insert_eq in Hj by eauto using lookup_lt_Some. discriminate.
      * rewrite list_lookup_insert_ne in Hj by done. eauto using list_elem_of_lookup_2.
    + rewrite length_insert. exact Hlen.
  - exists scanned. repeat split; auto.
    + rewrite (scanning_closed _ _ Hi). exact Hperm.
    + rewrite length_insert. exact Hlen.
Qed.

Lemma pool_inv_rtc targets p :
  rtc step (start c targets) p -> pool_inv targets p.
Proof.
  revert p. apply (rtc_ind_r (pool_inv targets) (start c targets)).
  - apply pool_inv_start.
  - eauto using pool_inv_step.
Qed.

(** With at least one worker, what [Scan] returns is the batches of one
    scan per target, in the order the scans ended. *)
Lemma Scan_scanned targets summary :
  1 <= LavaConfig.Concurrency (cfg c) ->
  Scan targets summary ->
  exists scanned : list (string * World),
    targets ≡ₚ scanned.*1 /\ summary = concat (batch <$> scanned).
Proof.
  intros Hn (p & Hrtc & Hfin & ->).
  destruct (pool_inv_rtc _ _ Hrtc) as (scanned & Hres & Hperm & Hdone & Hlen).
  exists scanned. unfold collect. rewrite Hres. split; [|reflexivity].
  unfold finished in Hfin. rewrite (scanning_finished _ Hfin) in Hperm.
  rewrite Hdone in Hperm; [rewrite !app_nil_r in Hperm; exact Hperm|].
  destruct (workers p) as [|w ws]; [cbn in Hlen; lia|].
  inversion Hfin; subst. left.
Qed.

(** Every step of the pool brings it closer to the end. *)
Lemma step_measure p p' : step p p' -> (measure p' < measure p)%nat.
Proof.
  unfold measure.
  intros [i repo rest ws rs Hi | i repo w js ws rs Hi | i ws rs Hi]; cbn [jobs workers length].
  - pose proof (weight_insert ws i Idle (Scanning repo) Hi). cbn in *. lia.
  - pose proof (weight_insert ws i (Scanning repo) Idle Hi). cbn in *. lia.
  - pose proof (weight_insert ws i Idle Done Hi). cbn in *. lia.
Qed.

(** A pool that has not ended can go on: no worker is ever stuck. *)
Lemma step_progress p : ~ finished p -> exists p', step p p'.
Proof.
  intros Hnot. destruct p as [js ws rs].
  apply not_Forall_Exists in Hnot; [|intros w; destruct w; (left; congruence) || (right; congruence)].
  apply Exists_exists in Hnot as (w & Hin & Hw).
  cbn [workers] in Hin. apply list_elem_of_lookup in Hin as [i Hi].
  destruct w as [|repo|]; [| |congruence].
  - destruct js as [|repo rest].
    + eexists. apply step_closed. exact Hi.
    + eexists. apply step_receive. exact Hi.
  - eexists. apply step_scanned with (w := mkWorld exec.RunOk "" "" (fun _ => None) (fun _ _ => None)).
    exact Hi.
Qed.

Lemma run_jobs (world : string -> World) js ws rs :
  ws !! 0%nat = Some Idle ->
  rtc step (mkPool js ws rs)
           (mkPool [] ws (rs ++ ((fun repo => batch (repo, world repo)) <$> js))%list).
Proof.
  intros Hidle. revert rs. induction js as [|repo js IH]; intros rs; cbn.
  - rewrite app_nil_r. reflexivity.
  - eapply rtc_l; [apply step_receive with (i := 0%nat); exact Hidle|].
    eapply rtc_l.
    { apply step_scanned with (i := 0%nat) (repo := repo) (w := world repo).
      destruct ws; [discriminate | reflexivity]. }
    assert (<[0%nat := Idle]> (<[0%nat := Scanning repo]> ws) = ws) as ->.
    { destruct ws as [|w ws]; [discriminate|]. cbn in *. congruence. }
    specialize (IH (rs ++ [batch (repo, world repo)])%list).
    rewrite <- app_assoc in IH. exact IH.
Qed.

Lemma close_all k gone rs :
  rtc step (mkPool [] (gone ++ replicate k Idle) rs)
           (mkPool [] (gone ++ replicate k Done) rs).
Proof.
  revert gone. induction k as [|k IH]; intros gone; cbn; [reflexivity|].
  eapply rtc_l.
  - apply step_closed with (i := length gone).
    rewrite lookup_app_r, Nat.sub_diag by lia. reflexivity.
  - replace (length gone) with (length gone + 0)%nat by lia.
    rewrite insert_app_r. cbn.
    specialize (IH (gone ++ [Done])%list). rewrite <- !app_assoc in IH. exact IH.
Qed.

(** [Scan] returns: whatever the scanner answers, the pool has a run to
    its end. *)
Lemma Scan_returns (world : string -> World) targets :
  exists summary, Scan targets summary.
Proof.
  unfold lava.Scan, start.
  destruct (Z.to_nat (LavaConfig.Concurrency (cfg c))) as [|n] eqn:Hn.
  - exists [], (mkPool targets [] []). repeat split; [reflexivity | constructor].
  - eexists. eexists. split; [|split; [|reflexivity]].
    + etransitivity; [apply (run_jobs world); reflexivity|].
      apply (close_all (S n) []).
    + apply (Forall_replicate (fun w => w = Done) (S n)). reflexivity.
Qed.

End Client.

End pool_props.

(** ** What a scan contributes, and the concurrency floor *)

Module scan_props.
Import config lava trace_props lava_props pool_props.

Section Client.
Variable exec_LookPath : string -> string + string.
Variable json_Unmarshal : string -> string + list report.Vulnerability.
Variable url_Parse : string -> string + url.URL.
Variable Users_Get : url.URL -> string -> string + string.

Local Abbreviation batch := (pool_props.batch json_Unmarshal url_Parse).

Lemma batch_nil_iff c job :
  batch c job = [] <->
  exec.ExitCode (exec.ProcessState (run job.2)) <= 0 /\
  json_Unmarshal (outBuf job.2) = inr [].
Proof.
  unfold pool_props.batch. rewrite scanRepo_value.
  destruct (0 <? _) eqn:Hexit.
  - apply Z.ltb_lt in Hexit. split; [discriminate | lia].
  - apply Z.ltb_ge in Hexit.
    destruct (json_Unmarshal (outBuf job.2)) as [err|[|r lr]].
    + split; [discriminate | intros [_ [=]]].
    + split; auto.
    + split; [discriminate | intros [_ [=]]].
Qed.

(** What the summaries of one scan are, by the exit code of the scanner
    and what its output parses to. *)
Definition batch_shape (c : Client) (job : string * World) : Prop :=
  let code := exec.ExitCode (exec.ProcessState (run job.2)) in
  (0 < code ->
   batch c job
   = [mkSummary job.1 [] false 0 ("error running Lava: " ++ exec.Error_ (run job.2))]) /\
  (forall err, code <= 0 -> json_Unmarshal (outBuf job.2) = inl err ->
     batch c job
     = [mkSummary job.1 [] false 0 ("error unmarsalling Lava report: " ++ err)]) /\
  (forall lr, code <= 0 -> json_Unmarshal (outBuf job.2) = inr lr ->
     Forall2 (fun r s => Repository s = report.AffectedResource r /\ Error_ s = "")
       lr (batch c job)) /\
  (batch c job = [] <-> code <= 0 /\ json_Unmarshal (outBuf job.2) = inr []).

Lemma batch_shape_holds c job : batch_shape c job.
Proof.
  unfold batch_shape. cbv zeta. split; [|split; [|split]].
  - intros Hpos%Z.ltb_lt. unfold pool_props.batch. rewrite scanRepo_value, Hpos. reflexivity.
  - intros err Hle%Z.ltb_ge Hparse. unfold pool_props.batch.
    rewrite scanRepo_value, Hle, Hparse. reflexivity.
  - intros lr Hle%Z.ltb_ge Hparse. unfold pool_props.batch.
    rewrite scanRepo_value, Hle, Hparse.
    clear Hparse. induction lr as [|r lr IH]; cbn [map]; constructor; [|exact IH].
    rewrite summarize_spec. split; reflexivity.
  - apply batch_nil_iff.
Qed.

(** C5 (amended): with a concurrency ceiling of at least 1, [Scan]
    returns: its pool is never stuck before the end and every step brings
    the end closer.  Whatever it returns is made of one batch per target
    address, each the summaries of one scan of that address, so no
    address is skipped and none is scanned twice; the batch is exactly
    one error summary when the exit code of the scanner is positive or
    its output does not parse, and one summary per Finding otherwise; it
    is empty exactly when the exit code is not positive and the output
    parses to an empty Finding array. *)
Theorem C5_one_batch_per_address c targets :
  1 <= LavaConfig.Concurrency (cfg c) ->
  (exists summary, Scan json_Unmarshal url_Parse c targets summary) /\
  (forall p, rtc (step json_Unmarshal url_Parse c) (start c targets) p ->
     ~ finished p -> exists p', step json_Unmarshal url_Parse c p p') /\
  (forall p p', step json_Unmarshal url_Parse c p p' -> (measure p' < measure p)%nat) /\
  forall summary,
    Scan json_Unmarshal url_Parse c targets summary ->
    exists scanned : list (string * World),
      targets ≡ₚ scanned.*1 /\
      summary = concat (batch c <$> scanned) /\
      Forall (batch_shape c) scanned.
Proof.
  intros Hn. split; [|split; [|split]].
  - apply (Scan_returns json_Unmarshal url_Parse c
             (fun _ => mkWorld exec.RunOk "" "" (fun _ => None) (fun _ _ => None))).
  - intros p _. apply step_progress.
  - apply step_measure.
  - intros summary Hscan.
    destruct (Scan_scanned _ _ _ _ _ Hn Hscan) as (scanned & Hperm & ->).
    exists scanned. repeat split; auto.
    apply Forall_forall. intros job _. apply batch_shape_holds.
Qed.

(** The floor both constructors apply to the configured concurrency. *)
Definition floored (n : Z) : Z := if n <=? 0 then 1 else n.

Lemma floored_spec n :
  1 <= floored n /\ (n <= 0 -> floored n = 1) /\ (0 < n -> floored n = n).
Proof. unfold floored. destruct (n <=? 0) eqn:H; [apply Z.leb_le in H | apply Z.leb_gt in H]; lia. Qed.

(** C6: whenever the other checks of a constructor pass (a token, a base
    URL, and for the directory client an API URL that parses and a token
    that authenticates, for the scan client a Lava binary that is found
    and a check image), it returns a client whose configuration is the
    given one with the concurrency replaced by 1 when it is 0 or less and
    unchanged when it is positive; conversely every client a constructor
    returns has that concurrency, which is at least 1, and for the scan
    client it is the number of workers [Scan] starts. *)
Theorem C6_concurrency_floor (gcfg : GHEConfig.t) (lcfg : LavaConfig.t) :
  (forall u login,
     GHEConfig.Token gcfg <> "" -> GHEConfig.BaseURL gcfg <> "" ->
     url_Parse (GHEConfig.BaseURL gcfg ++ GHEAPIPath) = inr u ->
     Users_Get u (GHEConfig.Token gcfg) = inr login ->
     github.NewClient url_Parse Users_Get gcfg
     = inr (github.mkClient
              (GHEConfig.withConcurrency gcfg (floored (GHEConfig.Concurrency gcfg))))) /\
  (forall path,
     LavaConfig.Token lcfg <> "" -> LavaConfig.BaseURL lcfg <> "" ->
     exec_LookPath (LavaConfig.BinaryPath lcfg) = inr path ->
     LavaConfig.CheckImage lcfg <> "" ->
     lava.NewClient exec_LookPath lcfg
     = inr (lava.mkClient
              (LavaConfig.withConcurrency lcfg (floored (LavaConfig.Concurrency lcfg))))) /\
  (forall gc, github.NewClient url_Parse Users_Get gcfg = inr gc ->
     github.cfg gc = GHEConfig.withConcurrency gcfg (floored (GHEConfig.Concurrency gcfg)) /\
     GHEConfig.Concurrency (github.cfg gc) = floored (GHEConfig.Concurrency gcfg)) /\
  (forall lc, lava.NewClient exec_LookPath lcfg = inr lc ->
     lava.cfg lc = LavaConfig.withConcurrency lcfg (floored (LavaConfig.Concurrency lcfg)) /\
     LavaConfig.Concurrency (lava.cfg lc) = floored (LavaConfig.Concurrency lcfg) /\
     forall targets,
       Z.of_nat (length (workers (start lc targets))) = floored (LavaConfig.Concurrency lcfg)) /\
  (forall n, 1 <= floored n /\ (n <= 0 -> floored n = 1) /\ (0 < n -> floored n = n)).
Proof.
  assert (Hg : (if GHEConfig.Concurrency gcfg <=? 0 then GHEConfig.withConcurrency gcfg 1 else gcfg)
               = GHEConfig.withConcurrency gcfg (floored (GHEConfig.Concurrency gcfg))).
  { unfold floored. destruct (GHEConfig.Concurrency gcfg <=? 0); [reflexivity|].
    destruct gcfg; reflexivity. }
  assert (Hl : (if LavaConfig.Concurrency lcfg <=? 0 then LavaConfig.withConcurrency lcfg 1 else lcfg)
               = LavaConfig.withConcurrency lcfg (floored (LavaConfig.Concurrency lcfg))).
  { unfold floored. destruct (LavaConfig.Concurrency lcfg <=? 0); [reflexivity|].
    destruct lcfg; reflexivity. }
  split; [|split; [|split; [|split]]].
  - intros u login Htoken%String.eqb_neq Hbase%String.eqb_neq Hparse Hauth.
    unfold github.NewClient. rewrite Htoken, Hbase. cbv zeta. rewrite Hg.
    cbn [GHEConfig.withConcurrency GHEConfig.BaseURL GHEConfig.Token].
    rewrite Hparse, Hauth. reflexivity.
  - intros path Htoken%String.eqb_neq Hbase%String.eqb_neq Hlook Himage%String.eqb_neq.
    unfold lava.NewClient. rewrite Htoken, Hbase. cbv zeta. rewrite Hl.
    cbn [LavaConfig.withConcurrency LavaConfig.BinaryPath LavaConfig.CheckImage].
    rewrite Hlook, Himage. reflexivity.
  - intros gc. unfold github.NewClient.
    destruct (String.eqb (GHEConfig.Token gcfg) ""); [discriminate|].
    destruct (String.eqb (GHEConfig.BaseURL gcfg) ""); [discriminate|].
    cbv zeta. rewrite Hg.
    destruct (url_Parse _) as [err|u]; [discriminate|].
    destruct (Users_Get _ _) as [err|login]; [discriminate|].
    intros [= <-]. split; reflexivity.
  - intros lc. unfold lava.NewClient.
    destruct (String.eqb (LavaConfig.Token lcfg) ""); [discriminate|].
    destruct (String.eqb (LavaConfig.BaseURL lcfg) ""); [discriminate|].
    cbv zeta. rewrite Hl.
    destruct (exec_LookPath _) as [err|path]; [discriminate|].
    destruct (String.eqb (LavaConfig.CheckImage _) ""); [discriminate|].
    intros [= <-]. split; [reflexivity|]. split; [reflexivity|].
    intros targets. unfold start. cbn [lava.cfg workers LavaConfig.withConcurrency LavaConfig.Concurrency].
    rewrite length_replicate. pose proof (floored_spec (LavaConfig.Concurrency lcfg)). lia.
  - apply floored_spec.
Qed.

End Client.

End scan_props.

(** ** Path segments: [Split] and [Trim] on one separator character *)

Module segments_props.
Import gostrings.

Definition nonEmpty (s : string) : bool := negb (String.eqb s "").

(** The path segments in the words of the specification: the non-empty
    pieces between slashes, and the first two of them. *)
Definition spec_path_segments (path : string) : list string :=
  List.filter nonEmpty (Split path "/").

Definition spec_org_repo (path : string) : option (string * string) :=
  match spec_path_segments path with
  | org :: repo :: _ => Some (org, repo)
  | _ => None
  end.

(** [a] in front of the first piece. *)
Definition consHead (a : ascii) (pieces : list string) : list string :=
  match pieces with
  | h :: t => String a h :: t
  | [] => [String a ""]
  end.

Lemma Index_char a s c :
  Index (String a s) (String c "") =
    if Ascii.eqb c a then Some 0%nat else S <$> Index s (String c "").
Proof.
  rewrite Index_unfold. cbn [HasPrefix]. rewrite HasPrefix_empty, andb_true_r.
  reflexivity.
Qed.

Lemma Split_empty c : Split "" (String c "") = [""].
Proof. reflexivity. Qed.

Lemma Split_nonnil s c : Split s (String c "") <> [].
Proof.
  cbn [Split]. rewrite splitLoop_eq. destruct (Index s _); discriminate.
Qed.

Lemma Split_cons a s c :
  Split (String a s) (String c "") =
    if Ascii.eqb c a then "" :: Split s (String c "")
    else consHead a (Split s (String c "")).
Proof.
  cbn [Split]. rewrite splitLoop_eq, Index_char.
  destruct (Ascii.eqb c a).
  - reflexivity.
  - rewrite (splitLoop_eq c "" s). destruct (Index s (String c "")) as [m|]; reflexivity.
Qed.

Lemma consHead_app a l k :
  l <> [] -> consHead a (l ++ k) = (consHead a l ++ k)%list.
Proof. destruct l; [congruence | reflexivity]. Qed.

Lemma hasChar_single a c : hasChar a (String c "") = Ascii.eqb c a.
Proof. cbn. rewrite orb_false_r. apply Ascii.eqb_sym. Qed.

Lemma TrimLeft_Split s c :
  exists k, Split s (String c "")
            = (replicate k "" ++ Split (TrimLeft s (String c "")) (String c ""))%list.
Proof.
  induction s as [|a s [k IH]].
  - exists 0%nat. reflexivity.
  - cbn [TrimLeft]. rewrite hasChar_single.
    destruct (Ascii.eqb c a) eqn:Hca.
    + exists (S k). rewrite Split_cons, Hca, IH. reflexivity.
    + exists 0%nat. reflexivity.
Qed.

Lemma TrimRight_Split s c :
  exists k, Split s (String c "")
            = (Split (TrimRight s (String c "")) (String c "") ++ replicate k "")%list.
Proof.
  induction s as [|a s [k IH]].
  - exists 0%nat. reflexivity.
  - cbn [TrimRight]. rewrite hasChar_single, Split_cons.
    destruct (TrimRight s (String c "")) as [|b r] eqn:Hr.
    + rewrite Split_empty in IH. rewrite IH.
      destruct (Ascii.eqb c a) eqn:Hca.
      * exists (S k). reflexivity.
      * exists k. rewrite Split_cons, Hca. reflexivity.
    + exists k. rewrite (Split_cons a (String b r)), IH.
      destruct (Ascii.eqb c a); [reflexivity|].
      apply consHead_app, Split_nonnil.
Qed.

Lemma filter_replicate_empty k : List.filter nonEmpty (replicate k "") = [].
Proof. induction k; [reflexivity | assumption]. Qed.

(** Trimming slashes changes no non-empty segment. *)
Lemma segments_Trim s c :
  List.filter nonEmpty (Split (Trim s (String c "")) (String c ""))
  = List.filter nonEmpty (Split s (String c "")).
Proof.
  unfold Trim.
  destruct (TrimLeft_Split s c) as [k1 ->].
  destruct (TrimRight_Split (TrimLeft s (String c "")) c) as [k2 ->].
  rewrite !List.filter_app, !filter_replicate_empty, app_nil_r. reflexivity.
Qed.

Lemma TrimLeft_head s c a r :
  TrimLeft s (String c "") = String a r -> Ascii.eqb c a = false.
Proof.
  induction s as [|b s IH]; cbn [TrimLeft]; [discriminate|].
  rewrite hasChar_single. destruct (Ascii.eqb c b) eqn:Hcb; [exact IH|].
  intros [= <- _]. exact Hcb.
Qed.

Lemma TrimRight_head s c a r :
  TrimRight s (String c "") = String a r -> exists r', s = String a r'.
Proof.
  destruct s as [|b s]; cbn [TrimRight]; [discriminate|].
  destruct (TrimRight s (String c "")); [destruct (hasChar b _)|];
    [discriminate | |]; intros [= <- _]; eauto.
Qed.

(** After trimming, the first piece is empty only if it is the only one. *)
Lemma Split_Trim_head s c org rest :
  Split (Trim s (String c "")) (String c "") = org :: rest ->
  rest <> [] -> org <> "".
Proof.
  unfold Trim. destruct (TrimRight (TrimLeft s (String c "")) (String c "")) as [|a r] eqn:Hr.
  - rewrite Split_empty. intros [= <- <-]. congruence.
  - destruct (TrimRight_head _ _ _ _ Hr) as [r' Hl].
    apply TrimLeft_head in Hl. rewrite Split_cons, Hl.
    destruct (Split r (String c "")); cbn; intros [= <- _] _; discriminate.
Qed.

(** What [orgAndRepo] takes from a path and the first two non-empty
    segments of the specification. *)
Lemma first_two_segments path org repo rest :
  Split (Trim path "/") "/" = org :: repo :: rest ->
  org <> "" /\ (repo <> "" -> spec_org_repo path = Some (org, repo)).
Proof.
  intros Hsplit.
  assert (Horg : org <> "") by (eapply Split_Trim_head; [exact Hsplit | discriminate]).
  split; [exact Horg|]. intros Hrepo.
  unfold spec_org_repo, spec_path_segments.
  rewrite <- segments_Trim, Hsplit. cbn [List.filter]. unfold nonEmpty.
  apply String.eqb_neq in Horg, Hrepo. rewrite Horg, Hrepo. reflexivity.
Qed.

Lemma TrimRight_last s c a :
  lastChar (TrimRight s (String c "")) = Some a -> Ascii.eqb c a = false.
Proof.
  induction s as [|b s IH]; cbn [TrimRight]; [discriminate|].
  destruct (TrimRight s (String c "")) as [|d r].
  - rewrite hasChar_single. destruct (Ascii.eqb c b) eqn:Hcb; [discriminate|].
    intros [= <-]. exact Hcb.
  - exact IH.
Qed.

(** A text that does not end with the separator ends with a non-empty
    piece. *)
Lemma Split_last t c :
  t <> "" ->
  (forall a, lastChar t = Some a -> Ascii.eqb c a = false) ->
  exists init l, Split t (String c "") = (init ++ [l])%list /\ l <> "".
Proof.
  induction t as [|a r IH]; [congruence|]. intros _ Hlast.
  rewrite Split_cons. destruct r as [|b r'].
  - rewrite (Hlast a eq_refl). exists [], (String a ""). split; [reflexivity | discriminate].
  - destruct IH as (init & l & Hr & Hl); [discriminate | exact Hlast |].
    rewrite Hr. destruct (Ascii.eqb c a).
    + exists ("" :: init), l. split; [reflexivity | exact Hl].
    + destruct init as [|h init].
      * exists [], (String a l). split; [reflexivity | discriminate].
      * exists (String a h :: init), l. split; [reflexivity | exact Hl].
Qed.

(** A path with fewer than two non-empty segments has fewer than two
    pieces once trimmed. *)
Lemma few_segments path :
  (length (spec_path_segments path) < 2)%nat ->
  (length (Split (Trim path "/") "/") < 2)%nat.
Proof.
  unfold spec_path_segments. rewrite <- segments_Trim.
  destruct (Split (Trim path "/") "/") as [|org [|repo rest]] eqn:Hsplit; cbn [length];
    [lia | lia |].
  intros Hfew. exfalso.
  assert (Horg : nonEmpty org = true).
  { unfold nonEmpty. apply negb_true_iff, String.eqb_neq.
    eapply Split_Trim_head; [exact Hsplit | discriminate]. }
  destruct (Split_last (Trim path "/") "/"%char) as (init & l & Hinit & Hl).
  - intros Hempty. rewrite Hempty in Hsplit. discriminate.
  - apply TrimRight_last.
  - rewrite Hsplit in Hinit.
    assert (Hin : In l (repo :: rest)).
    { destruct init as [|i0 init]; [discriminate|].
      injection Hinit as _ ->. apply in_or_app. right. left. reflexivity. }
    assert (Hl' : In l (List.filter nonEmpty (repo :: rest))).
    { apply List.filter_In. split; [exact Hin|].
      unfold nonEmpty. apply negb_true_iff, String.eqb_neq. exact Hl. }
    change (List.filter nonEmpty (org :: repo :: rest))
      with (if nonEmpty org then org :: List.filter nonEmpty (repo :: rest)
            else List.filter nonEmpty (repo :: rest)) in Hfew.
    rewrite Horg in Hfew. cbn [length] in Hfew.
    destruct (List.filter nonEmpty (repo :: rest)); [destruct Hl' | cbn in Hfew; lia].
Qed.

End segments_props.

(** ** The raw results of a scan *)

Module store_props.
Import config gostrings lava trace_props lava_props segments_props.

(** The directory of the raw results of one repository. *)
Definition resultsDir (c : Client) (org repo : string) : string :=
  LavaConfig.ResultsPath (cfg c) ++ org ++ "/" ++ repo.

(** What [storeResults] leaves when every call succeeds. *)
Definition stored (c : Client) (target org repo stdout stderr : string) : list Event :=
  let dir := resultsDir c org repo in
  [ MkdirAll dir;
    WriteFile (dir ++ "/stdout.json") stdout;
    WriteFile (dir ++ "/stderr.log") stderr;
    Log (slog.mkRecord slog.LevelDebug "Lava scan results stored"
           [("repository", slog.VString target);
            ("stdout", slog.VString (dir ++ "/stdout.json"));
            ("stderr", slog.VString (dir ++ "/stderr.log"))]) ].

Definition parseFailure (target err : string) : Event :=
  Log (slog.mkRecord slog.LevelError "failed to parse target"
         [("target", slog.VString target); ("error", slog.VError err)]).

Section Client.
Variable json_Unmarshal : string -> string + list report.Vulnerability.
Variable url_Parse : string -> string + url.URL.

Local Abbreviation scanRepo := (lava.scanRepo json_Unmarshal url_Parse).
Local Abbreviation storeResults := (lava.storeResults url_Parse).
Local Abbreviation orgAndRepo := (lava.orgAndRepo url_Parse).

Lemma orgAndRepo_pieces target u org repo rest :
  url_Parse target = inr u ->
  Split (Trim (url.Path u) "/") "/" = org :: repo :: rest ->
  orgAndRepo target = inr (org, repo).
Proof. intros Hu Hs. unfold lava.orgAndRepo. rewrite Hu. cbv zeta. rewrite Hs. reflexivity. Qed.

Lemma orgAndRepo_malformed target :
  (exists err, url_Parse target = inl err) \/
  (exists u, url_Parse target = inr u /\
             (length (Split (Trim (url.Path u) "/") "/") < 2)%nat) ->
  exists err, orgAndRepo target = inl err.
Proof.
  unfold lava.orgAndRepo. intros [[err ->] | (u & -> & Hlen)]; [eauto|]. cbv zeta.
  destruct (Split _ _) as [|org [|repo rest]]; cbn in Hlen; eauto; lia.
Qed.

Lemma storeResults_stored c w target stdout stderr org repo :
  LavaConfig.ResultsPath (cfg c) <> "" ->
  orgAndRepo target = inr (org, repo) ->
  os_MkdirAll w (resultsDir c org repo) = None ->
  os_WriteFile w (resultsDir c org repo ++ "/stdout.json") stdout = None ->
  os_WriteFile w (resultsDir c org repo ++ "/stderr.log") stderr = None ->
  trace.events (storeResults c w target stdout stderr) = stored c target org repo stdout stderr.
Proof.
  intros Hset%String.eqb_neq Horg Hmk Hout Herr. unfold lava.storeResults.
  rewrite Hset, Horg. fold (resultsDir c org repo). cbv zeta.
  rewrite events_bind, events_emit, Hmk, events_bind, events_emit, Hout,
    events_bind, events_emit, Herr.
  reflexivity.
Qed.

Lemma storeResults_skipped c w target stdout stderr err :
  LavaConfig.ResultsPath (cfg c) <> "" ->
  orgAndRepo target = inl err ->
  trace.events (storeResults c w target stdout stderr) = [parseFailure target err].
Proof.
  intros Hset%String.eqb_neq Horg. unfold lava.storeResults. rewrite Hset, Horg. reflexivity.
Qed.

(** C7 (amended): the summaries of a scan depend on the outcome of the
    scanner and its standard output only, so they are the same with and
    without a raw-results directory, whether the files were written, were
    skipped or failed; what [storeResults] does comes after the scanner
    ran and before the record that closes the scan; with no directory
    configured it does nothing; with one, the two streams are written
    under directory/org/repo where org and repo are the first two pieces
    of the URL path split at "/" after its leading and trailing slashes
    are removed: org is never empty, and when repo is not empty either
    they are the first two non-empty segments of the path; an address
    that does not parse, or whose path has fewer than two non-empty
    segments, writes nothing and logs one error. *)
Theorem C7_raw_results c w target :
  (forall c' w', run w' = run w -> outBuf w' = outBuf w ->
     trace.value (scanRepo c' w' target) = trace.value (scanRepo c w target)) /\
  (exists outcome,
     trace.events (scanRepo c w target) =
       ([ Log (slog.mkRecord slog.LevelDebug "repository scan started"
                 [("repository", slog.VString target)]);
          Log (slog.mkRecord slog.LevelDebug "scan repository command"
                 [("repository", slog.VString target);
                  ("args", slog.VString (loggedArgs c target))]);
          Exec (LavaConfig.BinaryPath (cfg c)) (lavaCmdArgs c target) ]
        ++ trace.events (storeResults c w target (outBuf w) (errBuf w))
        ++ [outcome])%list /\
     isOutcomeLog outcome) /\
  (LavaConfig.ResultsPath (cfg c) = "" ->
     trace.events (storeResults c w target (outBuf w) (errBuf w)) = []) /\
  (forall u org repo rest,
     LavaConfig.ResultsPath (cfg c) <> "" ->
     url_Parse target = inr u ->
     Split (Trim (url.Path u) "/") "/" = org :: repo :: rest ->
     org <> "" /\
     (repo <> "" -> spec_org_repo (url.Path u) = Some (org, repo)) /\
     (os_MkdirAll w (resultsDir c org repo) = None ->
      os_WriteFile w (resultsDir c org repo ++ "/stdout.json") (outBuf w) = None ->
      os_WriteFile w (resultsDir c org repo ++ "/stderr.log") (errBuf w) = None ->
      trace.events (storeResults c w target (outBuf w) (errBuf w))
        = stored c target org repo (outBuf w) (errBuf w))) /\
  (LavaConfig.ResultsPath (cfg c) <> "" ->
   (exists err, url_Parse target = inl err) \/
   (exists u, url_Parse target = inr u /\
              (length (spec_path_segments (url.Path u)) < 2)%nat) ->
   exists err,
     trace.events (storeResults c w target (outBuf w) (errBuf w)) = [parseFailure target err]).
Proof.
  split; [|split; [|split; [|split]]].
  - intros c' w' Hrun Hout. rewrite !scanRepo_value, Hrun, Hout. reflexivity.
  - apply scanRepo_events.
  - intros Hunset. unfold lava.storeResults. rewrite Hunset. reflexivity.
  - intros u org repo rest Hset Hu Hsplit.
    destruct (first_two_segments _ _ _ _ Hsplit) as [Horg Hrepo].
    split; [exact Horg|]. split; [exact Hrepo|].
    intros Hmk Hout Herr. apply storeResults_stored; auto.
    eapply orgAndRepo_pieces; eauto.
  - intros Hset Hbad.
    destruct (orgAndRepo_malformed target) as [err Herr].
    { destruct Hbad as [Herr | (u & Hu & Hfew)]; [left; exact Herr|].
      right. exists u. split; [exact Hu|]. apply few_segments. exact Hfew. }
    exists err. apply storeResults_skipped; assumption.
Qed.

End Client.

End store_props.

(** ** Replacing every instance of a text *)

Module replace_props.
Import gostrings.

Lemma HasPrefix_cons a s b w :
  HasPrefix (String a s) (String b w) = Ascii.eqb b a && HasPrefix s w.
Proof. reflexivity. Qed.

Lemma Index_None_cons a s t :
  Index (String a s) t = None <-> HasPrefix (String a s) t = false /\ Index s t = None.
Proof.
  rewrite Index_unfold. destruct (HasPrefix (String a s) t).
  - split; [discriminate | intros [[=] _]].
  - destruct (Index s t); cbn; split; try discriminate; auto. intros [_ [=]].
Qed.

Lemma lastChar_cons b w :
  lastChar (String b w) = match w with "" => Some b | _ => lastChar w end.
Proof. destruct w; reflexivity. Qed.

(** Two prefixes of one text: one is a prefix of the other. *)
Lemma HasPrefix_app x r w :
  HasPrefix (x ++ r) w = true -> HasPrefix x w = true \/ HasPrefix w x = true.
Proof.
  revert w. induction x as [|a x IH]; intros w; [right; apply HasPrefix_empty|].
  destruct w as [|b w]; [left; reflexivity|].
  cbn [append]. rewrite !HasPrefix_cons.
  intros [Hba Hw]%andb_true_iff. rewrite (Ascii.eqb_sym a b), Hba. cbn.
  apply IH. exact Hw.
Qed.

(** [borders a b]: a non-empty end of [a] is a beginning of [b], so an
    instance of [b] can start inside an instance of [a] and run past its
    end (or end with it). *)
Fixpoint borders (a b : string) : bool :=
  match a with
  | "" => false
  | String _ a' => HasPrefix b a || borders a' b
  end.

(** An instance of [a] and an instance of [b] can share a position of a
    text: one is inside the other, or an end of one is a beginning of the
    other. *)
Definition overlaps (a b : string) : bool :=
  Contains a b || Contains b a || borders a b || borders b a.

Lemma HasPrefix_refl s : HasPrefix s s = true.
Proof. induction s as [|a s IH]; [reflexivity|]. rewrite HasPrefix_cons, Ascii.eqb_refl. exact IH. Qed.

Section Replace.
(** The text to replace, [String c old'], and its replacement. *)
Variable c : ascii.
Variable old' new : string.

Local Abbreviation old := (String c old').
Local Abbreviation R := (replaceLoop c old' new).

(** No instance of [old] can overlap an instance of [new]. *)
Hypothesis old_not_in_new : Index new old = None.
Hypothesis new_not_in_old : Index old new = None.
Hypothesis old_then_new : borders old new = false.
Hypothesis new_then_old : borders new old = false.

(** A text none of whose non-empty ends begins [v] or begins with [v]:
    no instance of [v] starts inside it. *)
Definition apart (w v : string) : Prop := borders w v = false /\ Index w v = None.

Lemma apart_tail b w v : apart (String b w) v -> apart w v.
Proof.
  intros [Hb Hi]. apply Index_None_cons in Hi as [_ Hi]. split; [|exact Hi].
  cbn [borders] in Hb. apply orb_false_iff in Hb as [_ Hb]. exact Hb.
Qed.

(** An instance of [v] that starts inside [w] would begin with an end of
    [w] or lie inside it. *)
Lemma apart_head b w v r :
  apart (String b w) v -> HasPrefix (String b w ++ r) v = false.
Proof.
  intros [Hb Hi]. destruct (HasPrefix (String b w ++ r) v) eqn:Hp; [|reflexivity].
  apply HasPrefix_app in Hp as [Hp | Hp].
  - rewrite Index_unfold, Hp in Hi. discriminate.
  - cbn [borders] in Hb. rewrite Hp in Hb. discriminate.
Qed.

Lemma R_empty : R "" = "".
Proof. rewrite replaceLoop_eq. reflexivity. Qed.

Lemma R_match s :
  HasPrefix s old = true -> R s = new ++ R (drop (String.length old) s).
Proof.
  intros Hp. rewrite replaceLoop_eq, Index_unfold, Hp. reflexivity.
Qed.

Lemma R_step a s :
  HasPrefix (String a s) old = false -> R (String a s) = String a (R s).
Proof.
  intros Hp. rewrite replaceLoop_eq, Index_unfold, Hp.
  rewrite (replaceLoop_eq c old' new s).
  destruct (Index s old) as [j|]; reflexivity.
Qed.

(** A text apart from [new] that begins the result begins the source. *)
Lemma R_prefix s w :
  apart w new -> HasPrefix (R s) w = true -> HasPrefix s w = true.
Proof.
  revert w. induction s as [|a s IH]; intros w Hw.
  - rewrite R_empty. auto.
  - destruct w as [|b w]; [reflexivity|].
    destruct (HasPrefix (String a s) old) eqn:Hp.
    + rewrite (R_match _ Hp). intros [Hx | Hx]%HasPrefix_app; exfalso.
      * destruct Hw as [Hw _]. cbn [borders] in Hw. rewrite Hx in Hw. discriminate.
      * destruct Hw as [_ Hw]. rewrite Index_unfold, Hx in Hw. discriminate.
    + rewrite (R_step _ _ Hp), !HasPrefix_cons.
      intros [-> Hs]%andb_true_iff. cbn. apply IH; [|exact Hs].
      eapply apart_tail. exact Hw.
Qed.

(** In front of a text without [old], a text apart from [old] adds no
    instance of [old]. *)
Lemma Index_after x r :
  apart x old -> Index r old = None -> Index (x ++ r) old = None.
Proof.
  intros Hx Hr. induction x as [|a x IH]; [exact Hr|].
  change (String a x ++ r) with (String a (x ++ r)).
  apply Index_None_cons. split.
  - apply (apart_head a x old r Hx).
  - apply IH. eapply apart_tail. exact Hx.
Qed.

(** The result of the replacement holds no instance of [old]. *)
Lemma R_free s : Index (R s) old = None.
Proof.
  remember (String.length s) as n eqn:Hn. revert s Hn.
  induction n as [n IH] using lt_wf_ind. intros s ->.
  destruct s as [|a s]; [rewrite R_empty; reflexivity|].
  destruct (HasPrefix (String a s) old) eqn:Hp.
  - rewrite (R_match _ Hp). apply Index_after; [split; assumption|].
    eapply IH; [|reflexivity]. rewrite length_drop. cbn. lia.
  - rewrite (R_step _ _ Hp). apply Index_None_cons. split.
    + destruct (HasPrefix (String a (R s)) old) eqn:Hq; [|reflexivity].
      rewrite HasPrefix_cons in Hp, Hq.
      apply andb_true_iff in Hq as [Hca Hq]. rewrite Hca in Hp. cbn in Hp.
      apply R_prefix in Hq; [congruence|].
      apply (apart_tail c old' new). split; assumption.
    + eapply IH; [|reflexivity]. cbn. lia.
Qed.

End Replace.

(** [strings.Replace] with no limit leaves no instance of [old] when no
    instance of [old] can overlap an instance of [new]. *)
Lemma ReplaceAll_free s old new :
  overlaps old new = false ->
  Contains (ReplaceAll s old new) old = false.
Proof.
  unfold overlaps, Contains.
  intros [[[Hon Hno]%orb_false_iff Hb1]%orb_false_iff Hb2]%orb_false_iff.
  destruct (Index old new) eqn:Hi; [discriminate|].
  destruct (Index new old) eqn:Hj; [discriminate|].
  destruct old as [|c old'].
  { rewrite Index_unfold, HasPrefix_empty in Hj. discriminate. }
  unfold ReplaceAll. destruct (String.eqb (String c old') new) eqn:Heq.
  - apply String.eqb_eq in Heq. subst new.
    rewrite Index_unfold, HasPrefix_refl in Hi. discriminate.
  - rewrite R_free; auto.
Qed.

End replace_props.

(** ** The logged command line *)

Module redaction_props.
Import config gostrings lava trace_props lava_props replace_props.

Section Client.
Variable json_Unmarshal : string -> string + list report.Vulnerability.
Variable url_Parse : string -> string + url.URL.

Local Abbreviation scanRepo := (lava.scanRepo json_Unmarshal url_Parse).

(** The record of the command line is the only record with its message. *)
Lemma command_record c w repo r :
  In (Log r) (trace.events (scanRepo c w repo)) ->
  slog.msg r = "scan repository command" ->
  slog.attr r "args" = Some (slog.VString (loggedArgs c repo)).
Proof.
  destruct (scanRepo_events json_Unmarshal url_Parse c w repo)
    as (outcome & -> & (r' & -> & Hmsg)).
  cbn [app In]. intros [H | [H | [H | H]]].
  - injection H as <-. discriminate.
  - injection H as <-. reflexivity.
  - discriminate.
  - apply in_app_or in H as [H | [H | []]].
    + revert H. store_cases; cbn; intuition (try discriminate);
        match goal with H : Log _ = Log _ |- _ => injection H as <- end; discriminate.
    + injection H as <-. cbn in Hmsg. intros Hm. rewrite Hm in Hmsg.
      intuition discriminate.
Qed.

(** C9 (amended): when no instance of the token can overlap an instance
    of the marker (neither is inside the other, and no non-empty end of
    one is a beginning of the other; this leaves out the empty token),
    the string logged as the arguments of the scanner does not contain
    the token: it is the argument list joined by spaces with every
    instance of the token, taken from the left, replaced by "REDACTED";
    it is the only record of the command line. *)
Theorem C9_token_redacted c w repo :
  LavaConfig.Token (cfg c) <> "" ->
  overlaps (LavaConfig.Token (cfg c)) "REDACTED" = false ->
  loggedArgs c repo
  = ReplaceAll (Join (lavaCmdArgs c repo) " ") (LavaConfig.Token (cfg c)) "REDACTED" /\
  Contains (loggedArgs c repo) (LavaConfig.Token (cfg c)) = false /\
  forall r, In (Log r) (trace.events (scanRepo c w repo)) ->
            slog.msg r = "scan repository command" ->
            slog.attr r "args" = Some (slog.VString (loggedArgs c repo)).
Proof.
  intros Hne Hapart. split; [reflexivity|]. split.
  - unfold loggedArgs. apply ReplaceAll_free. exact Hapart.
  - intros r. apply command_record.
Qed.

End Client.

End redaction_props.

(** ** The output writer *)

Module output_props.
Import gostrings output trace_props.

Lemma writeRows_ok w k summary :
  (forall i record, csv_Write w i record = None) ->
  writeRows w k summary = (map (fun s => CsvWrite (csvRecord s)) summary, None).
Proof.
  intros Hok. revert k. induction summary as [|s rest IH]; intros k; [reflexivity|].
  cbn [writeRows map]. rewrite Hok, IH. reflexivity.
Qed.

(** C8: with an empty file path [Write] returns the output-file-required
    error and touches nothing; with a file it can create and a format
    that is neither csv nor json (in any letter case) it returns the
    unsupported-format error, a different one, and writes no record; for
    csv it writes the header repository, control_in_place,
    number_of_controls, controls, error and then one record per summary,
    in order, with the controls joined by "#"; for json it encodes the
    whole slice once with an indent of two spaces. *)
Theorem C8_output_writer w format file summary :
  Write w format "" summary = ([], Some ErrOutputFileRequired) /\
  ErrOutputFileRequired <> ErrUnsupportedFormat /\
  (file <> "" -> os_Create w file = None ->
   ToLower format <> "csv" -> ToLower format <> "json" ->
   Write w format file summary = ([Create file; Close], Some ErrUnsupportedFormat)) /\
  (file <> "" -> os_Create w file = None -> ToLower format = "csv" ->
   (forall i record, csv_Write w i record = None) ->
   Write w format file summary =
     (([Create file;
        CsvWrite ["repository"; "control_in_place"; "number_of_controls"; "controls"; "error"]]
       ++ map (fun s => CsvWrite [ lava.Repository s;
                                   FormatBool (lava.ControlInPlace s);
                                   Itoa (lava.NumberOfControls s);
                                   Join (lava.Controls s) "#";
                                   lava.Error_ s ]) summary
       ++ [CsvFlush; Close])%list, None)) /\
  (file <> "" -> os_Create w file = None -> ToLower format = "json" ->
   json_Encode w summary = None ->
   Write w format file summary = ([Create file; JsonEncode "" "  " summary; Close], None)).
Proof.
  split; [reflexivity|]. split; [discriminate|].
  split; [|split].
  - intros Hfile%String.eqb_neq Hcreate Hcsv%String.eqb_neq Hjson%String.eqb_neq.
    unfold Write. rewrite Hfile, Hcreate. cbv zeta. rewrite Hcsv, Hjson. reflexivity.
  - intros Hfile%String.eqb_neq Hcreate Hcsv Hok.
    unfold Write. rewrite Hfile, Hcreate. cbv zeta. rewrite Hcsv. cbn [String.eqb Ascii.eqb Bool.eqb].
    cbn -[writeRows]. rewrite Hok, (writeRows_ok w 1 summary Hok).
    unfold deferred, mbind, trace_bind, trace.bind. cbn.
    reflexivity.
  - intros Hfile%String.eqb_neq Hcreate Hjson Hok.
    unfold Write. rewrite Hfile, Hcreate. cbv zeta. rewrite Hjson. cbn. rewrite Hok. reflexivity.
Qed.

End output_props.

(** ** Scans of concrete repositories *)

Module scan_examples.
Import config gostrings lava trace_props lava_props pool_props scan_props
  segments_props store_props redaction_props.

Definition quote : string := String (ascii_of_nat 34) "".
Definition q (s : string) : string := quote ++ s ++ quote.

(** The report of one Finding with two controls, and its parsed form. *)
Definition report1 : string :=
  "[{" ++ q "AffectedResource" ++ ":" ++ q "org1/repo1" ++ "," ++ q "Score" ++ ":0,"
  ++ q "Resources" ++ ":[{" ++ q "Rows" ++ ":[{" ++ q "Control" ++ ":" ++ q "MFA" ++ "},{"
  ++ q "Control" ++ ":" ++ q "BranchProtection" ++ "}]}]}]".

Definition finding1 : report.Vulnerability :=
  report.mkVulnerability "org1/repo1" (S754_zero false)
    [report.mkResourcesGroup [ {[ "Control" := "MFA" ]};
                               {[ "Control" := "BranchProtection" ]} ]].

(** [json.Unmarshal] on the outputs of the examples. *)
Definition json_Unmarshal (data : string) : string + list report.Vulnerability :=
  if String.eqb data "[]" then inr []
  else if String.eqb data report1 then inr [finding1]
  else if String.eqb data "" then inl "unexpected end of JSON input"
  else inl "invalid character looking for beginning of value".

(** [url.Parse] on plain addresses: the path starts at the first slash
    after the host, is not cleaned, and is the whole text when there is no
    scheme; a text that starts with a colon has no scheme to read. *)
Definition url_Parse (rawURL : string) : string + url.URL :=
  if HasPrefix rawURL ":" then inl "missing protocol scheme"
  else match Index rawURL "://" with
       | Some i =>
           let rest := drop (i + 3) rawURL in
           inr (url.mkURL (match Index rest "/" with
                           | Some j => drop j rest
                           | None => ""
                           end))
       | None => inr (url.mkURL rawURL)
       end.

Definition exec_LookPath (file : string) : string + string := inr file.
Definition Users_Get (u : url.URL) (token : string) : string + string := inr "reposec-bot".

Definition image : string := "vulcansec/vulcan-repository-sctrl:a20516f-4aae88d".

Definition client (token : string) (concurrency : Z) (resultsPath : string) : Client :=
  mkClient (LavaConfig.mk token "https://ghe.example" concurrency "/usr/bin/lava" image resultsPath).

Definition c0 : Client := client "ghp_x7Kq2" 1 "/tmp/results/".

Definition world (r : exec.RunResult) (stdout stderr : string) : World :=
  mkWorld r stdout stderr (fun _ => None) (fun _ _ => None).

Definition wReport : World := world exec.RunOk report1 "".
Definition wEmpty : World := world exec.RunOk "[]" "".
Definition wFailed : World :=
  world (exec.RunErr "exit status 1" (Some (exec.Exited 1))) "[]" "timeout".
Definition wGarbage : World := world exec.RunOk "Usage: lava run" "".
Definition wKilled : World :=
  world (exec.RunErr "signal: killed" (Some (exec.Signaled 9))) "[]" "".

Definition repo1 : string := "https://ghe.example/org1/repo1".
Definition repo2 : string := "https://ghe.example/org1//repo1".

Local Abbreviation scanRepo := (lava.scanRepo json_Unmarshal url_Parse).

Example scan_report :
  trace.value (scanRepo c0 wReport repo1)
  = [mkSummary "org1/repo1" ["MFA"; "BranchProtection"] true 2 ""].
Proof. vm_compute. reflexivity. Qed.

Example scan_failed :
  trace.value (scanRepo c0 wFailed repo1)
  = [mkSummary repo1 [] false 0 "error running Lava: exit status 1"].
Proof. vm_compute. reflexivity. Qed.

Example scan_garbage :
  trace.value (scanRepo c0 wGarbage repo1)
  = [mkSummary repo1 [] false 0
       "error unmarsalling Lava report: invalid character looking for beginning of value"].
Proof. vm_compute. reflexivity. Qed.

(** A scanner that a signal ends has the exit code -1: its output is
    parsed like that of a scanner that exited with status zero. *)
Example scan_killed : trace.value (scanRepo c0 wKilled repo1) = [].
Proof. vm_compute. reflexivity. Qed.

Example orgAndRepo_repo1 : orgAndRepo url_Parse "https://ghe.example/org1/repo1.git" = inr ("org1", "repo1.git").
Proof. vm_compute. reflexivity. Qed.

Example orgAndRepo_one_segment :
  orgAndRepo url_Parse "https://ghe.example/org1/" = inl "invalid GitHub URL path: /org1/".
Proof. vm_compute. reflexivity. Qed.

(** One worker, one address, an empty report: a complete run of [Scan]. *)
Lemma scan_empty_run (c : Client) :
  LavaConfig.Concurrency (cfg c) = 1 ->
  Scan json_Unmarshal url_Parse c [repo1] [].
Proof.
  intros Hone. exists (mkPool [] [Done] [[]]). split; [|split].
  - unfold start. rewrite Hone.
    change (replicate (Z.to_nat 1) Idle) with [Idle].
    eapply rtc_l; [apply step_receive with (i := 0%nat); reflexivity|].
    eapply rtc_l; [apply step_scanned with (i := 0%nat) (repo := repo1) (w := wEmpty); reflexivity|].
    eapply rtc_l; [|apply rtc_refl].
    rewrite scanRepo_value.
    apply step_closed with (i := 0%nat) (ws := [Idle]). reflexivity.
  - repeat constructor.
  - reflexivity.
Qed.

(** C1 on the report above. *)
Lemma C1_summary_per_finding_witness :
  length (trace.value (scanRepo c0 wReport repo1)) = length [finding1].
Proof.
  apply (C1_summary_per_finding json_Unmarshal url_Parse c0 wReport repo1 [finding1]).
  - vm_compute. discriminate.
  - reflexivity.
Defined.

(** C2 as stated fails: a scanner that a signal ended has the exit code
    -1, which is not zero, and its output is parsed all the same; with an
    empty report no summary at all comes out. *)
Lemma C2_signalled_scanner_no_summary :
  exec.ExitCode (exec.ProcessState (run wKilled)) = -1 /\
  trace.value (scanRepo c0 wKilled repo1) = [].
Proof. split; vm_compute; reflexivity. Qed.

(** C2 on a scanner that exits with status 1, and on one whose output is
    not a report. *)
Lemma C2_error_summaries_witness :
  (trace.value (scanRepo c0 wFailed repo1)
     = [mkSummary repo1 [] false 0 ("error running Lava: " ++ exec.Error_ (run wFailed))] /\
   "error running Lava: " ++ exec.Error_ (run wFailed) <> "") /\
  trace.value (scanRepo c0 wGarbage repo1)
    = [mkSummary repo1 [] false 0
         ("error unmarsalling Lava report: "
          ++ "invalid character looking for beginning of value")].
Proof.
  split.
  - destruct (C2_error_summaries json_Unmarshal url_Parse c0 wFailed repo1) as (Hrun & _).
    apply Hrun. vm_compute. reflexivity.
  - destruct (C2_error_summaries json_Unmarshal url_Parse c0 wGarbage repo1) as (_ & Hparse & _).
    apply Hparse; [vm_compute; discriminate | reflexivity].
Defined.

(** C5 as stated fails: the address enters the scan and no summary comes
    out. *)
Lemma C5_empty_report_no_summary :
  1 <= LavaConfig.Concurrency (cfg c0) /\
  Scan json_Unmarshal url_Parse c0 [repo1] [].
Proof. split; [vm_compute; discriminate | apply scan_empty_run; reflexivity]. Qed.

Lemma C5_one_batch_per_address_witness :
  (exists summary, Scan json_Unmarshal url_Parse c0 [repo1] summary) /\
  exists scanned : list (string * World),
    [repo1] ≡ₚ scanned.*1 /\
    [] = concat (batch json_Unmarshal url_Parse c0 <$> scanned) /\
    Forall (batch_shape json_Unmarshal url_Parse c0) scanned.
Proof.
  destruct (C5_one_batch_per_address json_Unmarshal url_Parse c0 [repo1]) as (Hex & _ & _ & Hall).
  - vm_compute. discriminate.
  - split; [exact Hex|]. apply Hall. apply scan_empty_run. reflexivity.
Defined.

End scan_examples.

(** ** Clients, raw results and the logged command line on concrete inputs *)

Module client_examples.
Import config gostrings lava trace_props lava_props scan_props
  segments_props store_props redaction_props scan_examples.

Definition gcfg0 : GHEConfig.t :=
  GHEConfig.mk "ghp_x7Kq2" "https://ghe.example" 0 3145728 false false false false false 0.
Definition lcfg0 : LavaConfig.t :=
  LavaConfig.mk "ghp_x7Kq2" "https://ghe.example" (-3) "/usr/bin/lava" image "".

Example NewClient_floor :
  github.NewClient url_Parse Users_Get gcfg0
    = inr (github.mkClient (GHEConfig.withConcurrency gcfg0 1)) /\
  lava.NewClient exec_LookPath lcfg0 = inr (mkClient (LavaConfig.withConcurrency lcfg0 1)).
Proof. split; reflexivity. Qed.

(** Without the floor no worker would start and every address would be
    left in the queue. *)
Example Scan_without_workers :
  Scan json_Unmarshal url_Parse (mkClient lcfg0) [repo1; repo2] [].
Proof.
  exists (mkPool [repo1; repo2] [] []). split; [|split]; [apply rtc_refl | constructor | reflexivity].
Qed.

Lemma C6_concurrency_floor_witness :
  github.NewClient url_Parse Users_Get gcfg0
  = inr (github.mkClient (GHEConfig.withConcurrency gcfg0 (floored (GHEConfig.Concurrency gcfg0)))) /\
  lava.NewClient exec_LookPath lcfg0
  = inr (mkClient (LavaConfig.withConcurrency lcfg0 (floored (LavaConfig.Concurrency lcfg0)))) /\
  floored (GHEConfig.Concurrency gcfg0) = 1 /\
  floored (LavaConfig.Concurrency lcfg0) = 1.
Proof.
  destruct (C6_concurrency_floor exec_LookPath url_Parse Users_Get gcfg0 lcfg0)
    as (Hg & Hl & _ & _ & Hfloor).
  split; [|split; [|split]].
  - apply (Hg (url.mkURL "/api/v3/") "reposec-bot"); [discriminate | discriminate | | ]; reflexivity.
  - apply (Hl "/usr/bin/lava"); [discriminate | discriminate | reflexivity | discriminate].
  - apply (Hfloor (GHEConfig.Concurrency gcfg0)). vm_compute. discriminate.
  - apply (Hfloor (LavaConfig.Concurrency lcfg0)). vm_compute. discriminate.
Defined.

(** C7 as stated fails: on a path with two slashes in a row the second
    directory is the empty piece between them, not the second non-empty
    segment, and the files go to the directory of the organization. *)
Lemma C7_second_segment_empty :
  url_Parse repo2 = inr (url.mkURL "/org1//repo1") /\
  spec_org_repo "/org1//repo1" = Some ("org1", "repo1") /\
  orgAndRepo url_Parse repo2 = inr ("org1", "") /\
  List.filter isFileEvent
    (trace.events (storeResults url_Parse c0 wReport repo2 (outBuf wReport) (errBuf wReport)))
  = [ MkdirAll "/tmp/results/org1/";
      WriteFile "/tmp/results/org1//stdout.json" report1;
      WriteFile "/tmp/results/org1//stderr.log" "" ].
Proof. repeat split; vm_compute; reflexivity. Qed.

Lemma C7_raw_results_witness :
  "org1" <> "" /\
  spec_org_repo "/org1/repo1" = Some ("org1", "repo1") /\
  trace.events (storeResults url_Parse c0 wReport repo1 (outBuf wReport) (errBuf wReport))
  = stored c0 repo1 "org1" "repo1" (outBuf wReport) (errBuf wReport).
Proof.
  destruct (C7_raw_results json_Unmarshal url_Parse c0 wReport repo1)
    as (_ & _ & _ & Hstore & _).
  destruct (Hstore (url.mkURL "/org1/repo1") "org1" "repo1" []) as (Horg & Hrepo & Hev).
  - discriminate.
  - reflexivity.
  - reflexivity.
  - split; [exact Horg|]. split; [apply Hrepo; discriminate|].
    apply Hev; reflexivity.
Defined.

(** C9 as stated fails: a token inside the marker comes back with every
    replacement. *)
Lemma C9_token_inside_marker :
  LavaConfig.Token (cfg (client "ACT" 1 "")) <> "" /\
  loggedArgs (client "ACT" 1 "") repo1
  = "run -var GITHUB_ENTERPRISE_ENDPOINT=https://ghe.example -var GITHUB_ENTERPRISE_TOKEN=REDACTED -type=GitRepository -show info -fmt=json vulcansec/vulcan-repository-sctrl:a20516f-4aae88d https://ghe.example/org1/repo1" /\
  Contains (loggedArgs (client "ACT" 1 "") repo1) (LavaConfig.Token (cfg (client "ACT" 1 ""))) = true.
Proof. split; [discriminate|]. split; vm_compute; reflexivity. Qed.

(** A token that ends as the marker begins comes back too. *)
Example token_runs_into_marker :
  Contains (loggedArgs (client "=R" 1 "") repo1) "=R" = true.
Proof. vm_compute. reflexivity. Qed.

(** The marker ends as the token begins, and the marker inside the
    token: the replacement puts the token together again. *)
Example marker_runs_into_token :
  Contains (loggedArgs (client "Dx" 1 "") "https://ghe.example/org1/Dxx") "Dx" = true.
Proof. vm_compute. reflexivity. Qed.

Example marker_inside_token :
  Contains (loggedArgs (client "aREDACTEDb" 1 "") "https://ghe.example/org1/aaREDACTEDbb")
    "aREDACTEDb" = true.
Proof. vm_compute. reflexivity. Qed.

Example overlapping_tokens :
  map (fun token => replace_props.overlaps token "REDACTED")
    ["ACT"; "=R"; "Dx"; "aREDACTEDb"; ""]
  = [true; true; true; true; true].
Proof. vm_compute. reflexivity. Qed.

(** A token may begin or end with a letter of the marker. *)
Lemma C9_token_redacted_witness :
  Contains (loggedArgs (client "ghp_x7KqA" 1 "") repo1)
    (LavaConfig.Token (cfg (client "ghp_x7KqA" 1 ""))) = false.
Proof.
  apply (C9_token_redacted json_Unmarshal url_Parse (client "ghp_x7KqA" 1 "") wReport repo1).
  - discriminate.
  - vm_compute. reflexivity.
Defined.

End client_examples.

(** ** The output writer on a concrete collection *)

Module output_examples.
Import gostrings output output_props.

Definition ok : World := mkWorld (fun _ => None) (fun _ _ => None) (fun _ => None).

Definition summaries : list lava.Summary :=
  [ lava.mkSummary "org1/repo1" ["MFA"; "BranchProtection"] true 2 "";
    lava.mkSummary "https://ghe.example/org1/repo2" [] false 0
      "error running Lava: exit status 1" ].

Example write_csv :
  Write ok "CSV" "/tmp/reposec.csv" summaries
  = ([ Create "/tmp/reposec.csv";
       CsvWrite ["repository"; "control_in_place"; "number_of_controls"; "controls"; "error"];
       CsvWrite ["org1/repo1"; "true"; "2"; "MFA#BranchProtection"; ""];
       CsvWrite ["https://ghe.example/org1/repo2"; "false"; "0"; "";
                 "error running Lava: exit status 1"];
       CsvFlush; Close ], None).
Proof. vm_compute. reflexivity. Qed.

Example write_yaml :
  Write ok "yaml" "/tmp/reposec.yaml" summaries
  = ([Create "/tmp/reposec.yaml"; Close], Some ErrUnsupportedFormat).
Proof. vm_compute. reflexivity. Qed.

Lemma C8_output_writer_witness :
  Write ok "yaml" "/tmp/reposec.yaml" summaries
    = ([Create "/tmp/reposec.yaml"; Close], Some ErrUnsupportedFormat) /\
  Write ok "Json" "/tmp/reposec.json" summaries
    = ([Create "/tmp/reposec.json"; JsonEncode "" "  " summaries; Close], None).
Proof.
  split.
  - destruct (C8_output_writer ok "yaml" "/tmp/reposec.yaml" summaries)
      as (_ & _ & Hbad & _).
    apply Hbad; [discriminate | reflexivity | discriminate | discriminate].
  - destruct (C8_output_writer ok "Json" "/tmp/reposec.json" summaries)
      as (_ & _ & _ & _ & Hjson).
    apply Hjson; [discriminate | reflexivity | reflexivity | reflexivity].
Defined.

End output_examples.

(** * The rest of the listing: pages, organizations, fan-out *)

(** ** [orgRepositories] and [Organizations]: the page loops *)

Module listing.
Import config github.

(** How a call ends: it returns, it panics (a nil pointer or an index out
    of range), or it is still in its loop when the fuel is spent. *)
Inductive Outcome (A : Type) :=
| Returned (a : A)
| Panicked
| Looping.
Arguments Returned {A}.
Arguments Panicked {A}.
Arguments Looping {A}.

(** [gh.Organization]: the two fields read, both pointers. *)
Record Organization := mkOrganization {
  Login : option string;
  ID : option Z
}.

Definition GetLogin (o : Organization) : string := default "" (Login o).

(** What [Organizations.ListAll] answers: the page, [resp.NextPage]
    ([None] when [resp] is nil) and the error. *)
Record OrgsListed := mkOrgsListed {
  orgs : list Organization;
  orgsNext : option Z;
  orgsErr : option string
}.

Definition logged (st : ListState) (r : slog.Record) : ListState :=
  mkListState (allRepos st) (repoMetrics st) (logs st ++ [r])%list.

Section Pages.
Variable Time : Type.
Variable Before : Time -> Time -> bool.
Variable AddDate : Time -> Z -> Z -> Z -> Time.
Variable cfg : GHEConfig.t.

(** What [Repositories.ListByOrg] answers: the repositories of the page,
    each with what [time.Now] returns when the filter reaches it,
    [resp.NextPage] ([None] when [resp] is nil) and the error. *)
Record Listed := mkListed {
  repos : list (Time * Repository Time);
  next : option Z;
  err : option string
}.

(** The answer to the [call]-th request, for an organization and a page. *)
Variable ListByOrg : nat -> string -> Z -> Listed.

Definition listError (org e : string) : slog.Record :=
  slog.mkRecord slog.LevelError "failed to list repositories for organization"
    [("organization", slog.VString org); ("error", slog.VError e)].

(** The [for] loop of [orgRepositories]; [page] is [listOpts.Page] and
    [asked] the pages requested so far. *)
Fixpoint listPages (fuel call : nat) (org : string) (page : Z) (asked : list Z)
    (st : ListState) : Outcome (ListState * list Z) :=
  match fuel with
  | O => Looping
  | S fuel' =>
      let r := ListByOrg call org page in
      let asked := (asked ++ [page])%list in
      match err r with
      | Some e =>
          let st := logged st (listError org e) in
          match next r with
          | None => Panicked
          | Some nextPage =>
              if nextPage =? 0 then Returned (st, asked)
              else listPages fuel' (S call) org page asked st
          end
      | None =>
          match visitAll Time Before AddDate cfg st (repos r) with
          | None => Panicked
          | Some st =>
              match next r with
              | None => Panicked
              | Some nextPage =>
                  if nextPage =? 0 then Returned (st, asked)
                  else listPages fuel' (S call) org nextPage asked st
              end
          end
      end
  end.

(** What one run of [orgRepositories] leaves: the slice sent on the
    result channel, the final [repoMetrics], the log and the pages
    requested. *)
Record Listing := mkListing {
  sent : list string;
  counters : gmap string Z;
  listingLogs : list slog.Record;
  requested : list Z
}.

(** The calls [c.metrics.Gauge("repositories", v, tags)] of the last
    loop, one per key of [repoMetrics] (Go ranges over the map in no fixed
    order; the list follows [map_to_list]). *)
Definition gaugeCalls (org : string) (m : gmap string Z) : list (string * Z * list string) :=
  (fun kv : string * Z =>
     ("repositories", kv.2, ["status:" ++ kv.1; "organization:" ++ org]))
    <$> map_to_list m.

Definition orgRepositories (fuel : nat) (org : string) : Outcome Listing :=
  let st := logged initialState
              (slog.mkRecord slog.LevelDebug "obtaining repositories for organization"
                 [("organization", slog.VString org)]) in
  match listPages fuel 0 org 0 [] st with
  | Returned (st, asked) =>
      let st := logged st
                  (slog.mkRecord slog.LevelDebug "organization repository listing completed"
                     [("organization", slog.VString org);
                      ("repositories", slog.VInt (Z.of_nat (length (allRepos st))))]) in
      Returned (mkListing (allRepos st) (repoMetrics st) (logs st) asked)
  | Panicked => Panicked
  | Looping => Looping
  end.

End Pages.

Arguments repos {Time}.
Arguments next {Time}.
Arguments err {Time}.
Arguments mkListed {Time}.

Section Organizations.
(** The answer of [Organizations.ListAll] to the [call]-th request, for a
    value of [orgsOpts.Since]. *)
Variable ListAll : nat -> Z -> OrgsListed.

(** The loop of [Organizations]: the logins so far and the values of
    [Since] requested; the result is the slice and the error. *)
Fixpoint listOrgs (fuel call : nat) (since : Z) (asked : list Z) (allOrgs : list string)
  : Outcome (list string * option string * list Z) :=
  match fuel with
  | O => Looping
  | S fuel' =>
      let r := ListAll call since in
      let asked := (asked ++ [since])%list in
      match orgsErr r with
      | Some e => Returned ([], Some ("failed to list organizations: " ++ e), asked)
      | None =>
          let allOrgs := (allOrgs ++ map GetLogin (orgs r))%list in
          match orgsNext r with
          | None => Panicked
          | Some nextPage =>
              if nextPage =? 0 then Returned (allOrgs, None, asked)
              else match last (orgs r) with
                   | None => Panicked
                   | Some o =>
                       match ID o with
                       | None => Panicked
                       | Some id => listOrgs fuel' (S call) id asked allOrgs
                       end
                   end
          end
      end
  end.

(** What [Organizations] returns and leaves: the logins, the error, the
    values of [Since] requested and the log. *)
Record OrgsResult := mkOrgsResult {
  logins : list string;
  failure : option string;
  sinces : list Z;
  orgsLogs : list slog.Record
}.

Definition Organizations (fuel : nat) : Outcome OrgsResult :=
  let started := slog.mkRecord slog.LevelDebug "listing organizations" [] in
  match listOrgs fuel 0 0 [] [] with
  | Returned (allOrgs, None, asked) =>
      Returned (mkOrgsResult allOrgs None asked
                  [started;
                   slog.mkRecord slog.LevelDebug "listing organizations completed"
                     [("organizations", slog.VInt (Z.of_nat (length allOrgs)))]])
  | Returned (allOrgs, Some e, asked) => Returned (mkOrgsResult allOrgs (Some e) asked [started])
  | Panicked => Panicked
  | Looping => Looping
  end.

(** The first lines of [Repositories]: the organizations to list, or the
    error; [Organizations] is consulted only without a target. *)
Definition targetOrgs (fuel : nat) (targetOrg : string) : Outcome (list string + string) :=
  if negb (String.eqb targetOrg "") then Returned (inl [targetOrg])
  else match Organizations fuel with
       | Returned r =>
           match failure r with
           | None => Returned (inl (logins r))
           | Some e => Returned (inr ("failed to list organizations: " ++ e))
           end
       | Panicked => Panicked
       | Looping => Looping
       end.

End Organizations.

(** *** The fan-out of [Repositories]

    One goroutine per organization; each takes a slot of the semaphore
    [sem] (capacity [c.cfg.Concurrency]) before it lists, sends its
    repositories to the merge loop, and then runs its deferred calls: it
    gives the slot back and calls [wg.Done]. *)
Inductive Task :=
| Waiting
| Listing_
| Sent
| Finished.

Record Fan := mkFan {
  tasks : list (string * Task);
  selectedRepos : list string
}.

(** The goroutines that hold a slot. *)
Definition holders (ts : list (string * Task)) : nat :=
  length (List.filter (fun t => match t.2 with Listing_ | Sent => true | _ => false end) ts).

Definition fanStart (orgs : list string) : Fan :=
  mkFan ((fun org => (org, Waiting)) <$> orgs) [].

Section Fan.
(** The capacity of [sem], and the slices [orgRepositories] can send for
    an organization. *)
Variable capacity : nat.
Variable lists : string -> list string -> Prop.

Inductive fanStep : Fan -> Fan -> Prop :=
| fan_acquire i org ts sel :
    ts !! i = Some (org, Waiting) ->
    (holders ts < capacity)%nat ->
    fanStep (mkFan ts sel) (mkFan (<[i := (org, Listing_)]> ts) sel)
| fan_send i org repos ts sel :
    ts !! i = Some (org, Listing_) ->
    lists org repos ->
    fanStep (mkFan ts sel) (mkFan (<[i := (org, Sent)]> ts) (sel ++ repos)%list)
| fan_release i org ts sel :
    ts !! i = Some (org, Sent) ->
    fanStep (mkFan ts sel) (mkFan (<[i := (org, Finished)]> ts) sel).

(** [wg.Wait()] returns and the result channel is closed. *)
Definition fanDone (f : Fan) : Prop := Forall (fun t => t.2 = Finished) (tasks f).

Definition Repositories (orgs : list string) (selected : list string) : Prop :=
  exists f, rtc fanStep (fanStart orgs) f /\ fanDone f /\ selected = selectedRepos f.

End Fan.

End listing.

(** ** Properties of the page loops *)

Module listing_props.
Import config github github_props listing.

Section Pages.
Variable Time : Type.
Variable Before : Time -> Time -> bool.
Variable AddDate : Time -> Z -> Z -> Z -> Time.
Variable cfg : GHEConfig.t.
Variable ListByOrg : nat -> string -> Z -> Listed Time.

Local Abbreviation visit := (github.visit Time Before AddDate cfg).
Local Abbreviation visitAll := (github.visitAll Time Before AddDate cfg).
Local Abbreviation include := (spec_include Time Before AddDate cfg).
Local Abbreviation listPages := (listing.listPages Time Before AddDate cfg ListByOrg).
Local Abbreviation orgRepositories := (listing.orgRepositories Time Before AddDate cfg ListByOrg).

(** The clone addresses of the repositories the filter includes, in the
    order of the page. *)
Definition selectedURLs (page : list (Time * Repository Time)) : list string :=
  omap (fun p : Time * Repository Time => if include p.1 p.2 then CloneURL p.2 else None) page.

Definition hasCloneURL (p : Time * Repository Time) : Prop := CloneURL p.2 <> None.

Lemma visit_allRepos now st repo st' :
  visit now st repo = Some st' ->
  allRepos st' = (allRepos st ++ if include now repo then option_list (CloneURL repo) else [])%list.
Proof.
  intros Hv. pose proof (visit_first_failing Time Before AddDate cfg now st repo) as H.
  unfold spec_include. destruct (spec_first_failing _ _ _ _ _ _) as [s|].
  - destruct H as (st'' & H & Hsame & _). rewrite H in Hv. injection Hv as <-.
    rewrite Hsame, app_nil_r. reflexivity.
  - rewrite H in Hv. destruct (CloneURL repo) as [u|]; [|discriminate].
    injection Hv as <-. reflexivity.
Qed.

Lemma visit_total now st repo : CloneURL repo <> None -> is_Some (visit now st repo).
Proof.
  intros Hu. pose proof (visit_first_failing Time Before AddDate cfg now st repo) as H.
  destruct (spec_first_failing _ _ _ _ _ _) as [s|].
  - destruct H as (st' & -> & _). eauto.
  - rewrite H. destruct (CloneURL repo); [eauto | congruence].
Qed.

Lemma visitAll_app st page1 page2 :
  visitAll st (page1 ++ page2) = visitAll st page1 ≫= fun st1 => visitAll st1 page2.
Proof.
  revert st. induction page1 as [|[now repo] page1 IH]; intros st; [reflexivity|].
  cbn [app github.visitAll]. destruct (visit now st repo) as [st1|]; [apply IH | reflexivity].
Qed.

Lemma visitAll_allRepos st page st' :
  visitAll st page = Some st' -> allRepos st' = (allRepos st ++ selectedURLs page)%list.
Proof.
  revert st. induction page as [|[now repo] page IH]; intros st; cbn [github.visitAll].
  - intros [= <-]. rewrite app_nil_r. reflexivity.
  - destruct (visit now st repo) as [st1|] eqn:Hv; [|discriminate].
    intros Hrest. rewrite (IH _ Hrest), (visit_allRepos _ _ _ _ Hv), <- app_assoc.
    f_equal. unfold selectedURLs. cbn [omap list_omap fst snd].
    destruct (include now repo); [|reflexivity]. destruct (CloneURL repo); reflexivity.
Qed.

Lemma visitAll_total st page : Forall hasCloneURL page -> is_Some (visitAll st page).
Proof.
  intros Hall. revert st. induction Hall as [|[now repo] page Hu _ IH]; intros st.
  - cbn. eauto.
  - cbn [github.visitAll]. destruct (visit_total now st repo Hu) as [st1 ->]. apply IH.
Qed.

(** A run of pages listed without error, each naming a next page: from a
    request number and a page, the answers, the pages requested, and the
    page to request next. *)
Inductive pagesRun (org : string) : nat -> Z -> list (Listed Time) -> list Z -> Z -> Prop :=
| pagesRun_nil call page : pagesRun org call page [] [] page
| pagesRun_cons call page n rs pages page' :
    err (ListByOrg call org page) = None ->
    next (ListByOrg call org page) = Some n ->
    n <> 0 ->
    pagesRun org (S call) n rs pages page' ->
    pagesRun org call page (ListByOrg call org page :: rs) (page :: pages) page'.

Definition reposOf (rs : list (Listed Time)) : list (Time * Repository Time) :=
  concat (repos <$> rs).

Lemma listPages_run org call page rs pages page' :
  pagesRun org call page rs pages page' ->
  forall fuel asked st st',
    visitAll st (reposOf rs) = Some st' ->
    listPages (length rs + fuel) call org page asked st
    = listPages fuel (call + length rs) org page' (asked ++ pages)%list st'.
Proof.
  induction 1 as [call page | call page n rs pages page' Herr Hnext Hn _ IH];
    intros fuel asked st st'.
  - cbn. intros [= <-]. rewrite Nat.add_0_r, app_nil_r. reflexivity.
  - unfold reposOf. cbn [fmap list_fmap concat]. rewrite visitAll_app.
    destruct (visitAll st (repos (ListByOrg call org page))) as [st1|] eqn:Hv; [|discriminate].
    cbn [mbind option_bind]. intros Hrest.
    cbn [length Nat.add listing.listPages]. rewrite Herr, Hv, Hnext.
    apply Z.eqb_neq in Hn. rewrite Hn.
    rewrite (IH fuel (asked ++ [page])%list st1 st' Hrest), <- app_assoc, Nat.add_succ_r.
    reflexivity.
Qed.

(** A failure that names a next page is answered by the same request
    again: while it lasts the loop does not end. *)
Lemma listPages_retry org page :
  forall fuel call asked st,
    (forall k, exists e n, err (ListByOrg (call + k) org page) = Some e /\
                           next (ListByOrg (call + k) org page) = Some n /\ n <> 0) ->
    listPages fuel call org page asked st = Looping.
Proof.
  induction fuel as [|fuel IH]; intros call asked st Hfail; [reflexivity|].
  cbn [listing.listPages]. destruct (Hfail 0%nat) as (e & n & He & Hn & Hne).
  rewrite Nat.add_0_r in He, Hn. rewrite He, Hn.
  apply Z.eqb_neq in Hne. rewrite Hne. apply IH.
  intros k. specialize (Hfail (S k)). rewrite Nat.add_succ_r in Hfail. exact Hfail.
Qed.

Lemma listPages_more_fuel org fuel :
  forall call page asked st,
    listPages fuel call org page asked st <> Looping ->
    listPages (S fuel) call org page asked st = listPages fuel call org page asked st.
Proof.
  induction fuel as [|fuel IH]; intros call page asked st; [cbn; congruence|].
  intros Hnot. change (listPages (S (S fuel)) call org page asked st)
    with (listing.listPages Time Before AddDate cfg ListByOrg (S (S fuel)) call org page asked st).
  cbn [listing.listPages] in *.
  destruct (err (ListByOrg call org page)) as [e|].
  - destruct (next (ListByOrg call org page)) as [n|]; [|reflexivity].
    destruct (n =? 0); [reflexivity|]. apply IH. exact Hnot.
  - destruct (visitAll st (repos (ListByOrg call org page))) as [st1|]; [|reflexivity].
    destruct (next (ListByOrg call org page)) as [n|]; [|reflexivity].
    destruct (n =? 0); [reflexivity|]. apply IH. exact Hnot.
Qed.

Lemma listPages_fuel org fuel k call page asked st :
  listPages fuel call org page asked st <> Looping ->
  listPages (fuel + k) call org page asked st = listPages fuel call org page asked st.
Proof.
  intros Hnot. induction k as [|k IH]; [rewrite Nat.add_0_r; reflexivity|].
  rewrite Nat.add_succ_r, listPages_more_fuel; [exact IH|]. rewrite IH. exact Hnot.
Qed.

Definition started (org : string) : ListState :=
  logged initialState
    (slog.mkRecord slog.LevelDebug "obtaining repositories for organization"
       [("organization", slog.VString org)]).

Lemma reposOf_app rs r : reposOf (rs ++ [r]) = (reposOf rs ++ repos r)%list.
Proof. unfold reposOf. rewrite fmap_app, concat_app. cbn. rewrite app_nil_r. reflexivity. Qed.

Lemma selectedURLs_app p1 p2 : selectedURLs (p1 ++ p2) = (selectedURLs p1 ++ selectedURLs p2)%list.
Proof. apply omap_app. Qed.

(** *** The counters of [repoMetrics] *)

Definition statuses : list Status :=
  [too_big; empty; archived; disabled; fork; template; inactive; selected].

Definition counter (m : gmap string Z) (s : Status) : Z := default 0 (m !! statusKey s).

Definition total (m : gmap string Z) : Z := foldr (fun s acc => counter m s + acc) 0 statuses.

(** The map has the eight keys it starts with, and the counter of the
    selected repositories is the length of the slice. *)
Definition consistent (st : ListState) : Prop :=
  dom (repoMetrics st) = dom initialMetrics /\
  repoMetrics st !! "selected" = Some (Z.of_nat (length (allRepos st))).

Lemma statusKey_inj s s' : statusKey s = statusKey s' -> s = s'.
Proof. destruct s, s'; cbn; intros H; congruence || discriminate H. Qed.

Lemma statusKey_dom s : statusKey s ∈ dom initialMetrics.
Proof. apply elem_of_dom. destruct s; vm_compute; eauto. Qed.

Lemma counter_incr_eq s m : counter (incr (statusKey s) m) s = counter m s + 1.
Proof. unfold counter, incr. rewrite lookup_insert_eq. reflexivity. Qed.

Lemma counter_incr_ne s s' m : s <> s' -> counter (incr (statusKey s) m) s' = counter m s'.
Proof.
  intros Hne. unfold counter, incr. rewrite lookup_insert_ne; [reflexivity|].
  intros H%statusKey_inj. congruence.
Qed.

Lemma total_incr s m : total (incr (statusKey s) m) = total m + 1.
Proof.
  unfold total, statuses. cbn [foldr].
  destruct s; rewrite counter_incr_eq, !counter_incr_ne by discriminate; lia.
Qed.

Lemma visit_counts now st repo st' :
  visit now st repo = Some st' ->
  exists s, repoMetrics st' = incr (statusKey s) (repoMetrics st) /\
            ((s = selected /\ length (allRepos st') = S (length (allRepos st))) \/
             (s <> selected /\ allRepos st' = allRepos st)).
Proof.
  intros Hv. pose proof (visit_first_failing Time Before AddDate cfg now st repo) as H.
  destruct (spec_first_failing _ _ _ _ _ _) as [s|] eqn:Hs.
  - destruct H as (st'' & H & Hsame & Hm). rewrite H in Hv. injection Hv as <-.
    exists s. split; [exact Hm|]. right. split; [|exact Hsame].
    intros ->. revert Hs. unfold spec_first_failing, spec_predicates. cbn [List.find snd fst].
    repeat match goal with
    | |- context [if ?b then _ else _] =>
        lazymatch b with
        | context [if _ then _ else _] => fail
        | _ => destruct b
        end
    end; cbn; congruence.
  - rewrite H in Hv. destruct (CloneURL repo) as [u|]; [|discriminate].
    injection Hv as <-. exists selected. split; [reflexivity|]. left.
    split; [reflexivity|]. cbn. rewrite length_app. cbn. lia.
Qed.

Lemma visit_consistent now st repo st' :
  visit now st repo = Some st' -> consistent st ->
  consistent st' /\ total (repoMetrics st') = total (repoMetrics st) + 1.
Proof.
  intros Hv [Hdom Hsel]. destruct (visit_counts _ _ _ _ Hv) as (s & Hm & Hcase).
  unfold consistent. rewrite Hm. split; [split|apply total_incr].
  - unfold incr. rewrite dom_insert_L, Hdom.
    apply subseteq_union_1_L, singleton_subseteq_l, statusKey_dom.
  - unfold incr. destruct Hcase as [[-> Hlen] | [Hne Hsame]].
    + cbn [statusKey]. rewrite lookup_insert_eq, Hsel, Hlen. cbn. f_equal. lia.
    + rewrite lookup_insert_ne, Hsame; [exact Hsel|].
      intros H. apply Hne. apply statusKey_inj. exact H.
Qed.

Lemma visitAll_consistent st page st' :
  visitAll st page = Some st' -> consistent st ->
  consistent st' /\ total (repoMetrics st') = total (repoMetrics st) + Z.of_nat (length page).
Proof.
  revert st. induction page as [|[now repo] page IH]; intros st; cbn [github.visitAll].
  - intros [= <-] Hc. split; [exact Hc | cbn; lia].
  - destruct (visit now st repo) as [st1|] eqn:Hv; [|discriminate].
    intros Hrest Hc. destruct (visit_consistent _ _ _ _ Hv Hc) as [Hc1 Ht1].
    destruct (IH _ Hrest Hc1) as [Hc' Ht']. split; [exact Hc'|].
    rewrite Ht', Ht1. cbn [length]. lia.
Qed.

Lemma logged_consistent st r : consistent st -> consistent (logged st r).
Proof. intros H. exact H. Qed.

Lemma started_consistent org : consistent (started org).
Proof. split; reflexivity. Qed.

Lemma listPages_consistent org fuel :
  forall call page asked st st' asked',
    consistent st ->
    listPages fuel call org page asked st = Returned (st', asked') ->
    consistent st'.
Proof.
  induction fuel as [|fuel IH]; intros call page asked st st' asked' Hc; [discriminate|].
  cbn [listing.listPages].
  destruct (err (ListByOrg call org page)) as [e|].
  - destruct (next (ListByOrg call org page)) as [n|]; [|discriminate].
    destruct (n =? 0); [intros [= <- _]; exact Hc|]. apply IH. exact Hc.
  - destruct (visitAll st (repos (ListByOrg call org page))) as [st1|] eqn:Hv; [|discriminate].
    destruct (visitAll_consistent _ _ _ Hv Hc) as [Hc1 _].
    destruct (next (ListByOrg call org page)) as [n|]; [|discriminate].
    destruct (n =? 0); [intros [= <- _]; exact Hc1|]. apply IH. exact Hc1.
Qed.

Lemma total_started org : total (repoMetrics (started org)) = 0.
Proof. reflexivity. Qed.

(** X1: when every page is listed without error, [orgRepositories] sends
    the clone addresses of the repositories the filter includes, in the
    order of the pages and inside a page in its order; it requests page 0
    and then each page the previous answer names; its eight counters add
    up to the number of repositories listed. *)
Theorem orgRepositories_pages org rs pages page fuel :
  pagesRun org 0 0 rs pages page ->
  err (ListByOrg (length rs) org page) = None ->
  next (ListByOrg (length rs) org page) = Some 0 ->
  Forall hasCloneURL (reposOf (rs ++ [ListByOrg (length rs) org page])) ->
  (length rs < fuel)%nat ->
  exists l,
    orgRepositories fuel org = Returned l /\
    sent l = selectedURLs (reposOf (rs ++ [ListByOrg (length rs) org page])) /\
    requested l = (pages ++ [page])%list /\
    total (counters l) = Z.of_nat (length (reposOf (rs ++ [ListByOrg (length rs) org page]))).
Proof.
  intros Hrun Herr Hnext Hall Hfuel.
  rewrite reposOf_app in *. apply Forall_app in Hall as [H1 H2].
  destruct (visitAll_total (started org) _ H1) as [st1 Hv1].
  destruct (visitAll_total st1 _ H2) as [st2 Hv2].
  replace fuel with (length rs + S (fuel - S (length rs)))%nat by lia.
  unfold listing.orgRepositories. fold (started org).
  rewrite (listPages_run org 0 0 rs pages page Hrun _ [] (started org) st1 Hv1).
  cbn [Nat.add listing.listPages app]. rewrite Herr, Hv2, Hnext. cbn [Z.eqb].
  eexists. split; [reflexivity|]. cbn [sent requested counters logged allRepos repoMetrics].
  destruct (visitAll_consistent _ _ _ Hv1 (started_consistent org)) as [Hc1 Ht1].
  destruct (visitAll_consistent _ _ _ Hv2 Hc1) as [_ Ht2].
  rewrite (visitAll_allRepos _ _ _ Hv2), (visitAll_allRepos _ _ _ Hv1), selectedURLs_app.
  repeat split.
  rewrite Ht2, Ht1, total_started, length_app. lia.
Qed.

(** X2: when a page fails after some pages were listed, what those pages
    gave is kept: with a response that names no next page the listing
    ends, logs the error and sends the addresses selected so far; with no
    response at all ([resp] is nil) reading [resp.NextPage] panics. *)
Theorem orgRepositories_failed_page org rs pages page fuel e :
  pagesRun org 0 0 rs pages page ->
  err (ListByOrg (length rs) org page) = Some e ->
  Forall hasCloneURL (reposOf rs) ->
  (length rs < fuel)%nat ->
  (next (ListByOrg (length rs) org page) = Some 0 ->
   exists l,
     orgRepositories fuel org = Returned l /\
     sent l = selectedURLs (reposOf rs) /\
     requested l = (pages ++ [page])%list /\
     In (listError org e) (listingLogs l)) /\
  (next (ListByOrg (length rs) org page) = None ->
   orgRepositories fuel org = Panicked).
Proof.
  intros Hrun Herr Hall Hfuel.
  destruct (visitAll_total (started org) _ Hall) as [st1 Hv1].
  replace fuel with (length rs + S (fuel - S (length rs)))%nat by lia.
  unfold listing.orgRepositories. fold (started org).
  rewrite (listPages_run org 0 0 rs pages page Hrun _ [] (started org) st1 Hv1).
  cbn [Nat.add listing.listPages app]. rewrite Herr.
  split; intros ->; [|reflexivity]. cbn [Z.eqb].
  eexists. split; [reflexivity|]. cbn [sent requested counters listingLogs logged allRepos logs].
  rewrite (visitAll_allRepos _ _ _ Hv1). repeat split.
  apply in_or_app. left. apply in_or_app. right. left. reflexivity.
Qed.

(** X3: a failed page whose response names a next page is requested
    again, with the same page number and no limit: while the failure
    lasts [orgRepositories] does not return, whatever the fuel. *)
Theorem orgRepositories_retries_forever org rs pages page :
  pagesRun org 0 0 rs pages page ->
  Forall hasCloneURL (reposOf rs) ->
  (forall k, exists e n,
     err (ListByOrg (length rs + k) org page) = Some e /\
     next (ListByOrg (length rs + k) org page) = Some n /\ n <> 0) ->
  forall fuel, orgRepositories fuel org = Looping.
Proof.
  intros Hrun Hall Hfail fuel.
  destruct (visitAll_total (started org) _ Hall) as [st1 Hv1].
  pose proof (listPages_run org 0 0 rs pages page Hrun fuel [] (started org) st1 Hv1) as Hbig.
  rewrite (listPages_retry org page fuel _ _ _ Hfail) in Hbig.
  unfold listing.orgRepositories. fold (started org).
  destruct (listPages fuel 0 org 0 [] (started org)) as [[st asked]| |] eqn:Hsmall;
    [| |reflexivity].
  - rewrite Nat.add_comm, listPages_fuel in Hbig; congruence.
  - rewrite Nat.add_comm, listPages_fuel in Hbig; congruence.
Qed.

(** X4: whenever [orgRepositories] returns, it pushes exactly eight
    gauges, one per status, and the gauge of the selected repositories is
    the number of addresses it sends. *)
Theorem orgRepositories_gauges fuel org l :
  orgRepositories fuel org = Returned l ->
  length (gaugeCalls org (counters l)) = 8%nat /\
  ("repositories", Z.of_nat (length (sent l)), ["status:selected"; "organization:" ++ org])
    ∈ gaugeCalls org (counters l) /\
  forall s, exists v,
    counters l !! statusKey s = Some v /\
    ("repositories", v, ["status:" ++ statusKey s; "organization:" ++ org])
      ∈ gaugeCalls org (counters l).
Proof.
  unfold listing.orgRepositories. fold (started org).
  destruct (listPages fuel 0 org 0 [] (started org)) as [[st asked]| |] eqn:Hl; try discriminate.
  intros [= <-]. cbn [sent counters logged allRepos repoMetrics].
  destruct (listPages_consistent _ _ _ _ _ _ _ _ (started_consistent org) Hl) as [Hdom Hsel].
  unfold gaugeCalls. split; [|split].
  - rewrite length_fmap, length_map_to_list, <- size_dom, Hdom. reflexivity.
  - apply list_elem_of_fmap. exists ("selected", Z.of_nat (length (allRepos st))).
    split; [reflexivity|]. apply elem_of_map_to_list. exact Hsel.
  - intros s. pose proof (statusKey_dom s) as Hin. rewrite <- Hdom in Hin.
    apply elem_of_dom in Hin as [v Hv]. exists v. split; [exact Hv|].
    apply list_elem_of_fmap. exists (statusKey s, v).
    split; [reflexivity|]. apply elem_of_map_to_list. exact Hv.
Qed.

End Pages.

End listing_props.

(** ** Properties of [Organizations] and of the fan-out of [Repositories] *)

Module orgs_props.
Import config github listing.

Section Organizations.
Variable ListAll : nat -> Z -> OrgsListed.

Local Abbreviation listOrgs := (listing.listOrgs ListAll).
Local Abbreviation Organizations := (listing.Organizations ListAll).
Local Abbreviation targetOrgs := (listing.targetOrgs ListAll).

(** A run of pages of organizations listed without error, each naming a
    next page: the answers, the values of [Since] requested, and the value
    to request next (the ID of the last organization of the last page). *)
Inductive orgsRun : nat -> Z -> list OrgsListed -> list Z -> Z -> Prop :=
| orgsRun_nil call since : orgsRun call since [] [] since
| orgsRun_cons call since n o id rs sinces since' :
    orgsErr (ListAll call since) = None ->
    orgsNext (ListAll call since) = Some n ->
    n <> 0 ->
    last (orgs (ListAll call since)) = Some o ->
    ID o = Some id ->
    orgsRun (S call) id rs sinces since' ->
    orgsRun call since (ListAll call since :: rs) (since :: sinces) since'.

Definition loginsOf (rs : list OrgsListed) : list string :=
  concat ((fun r => map GetLogin (orgs r)) <$> rs).

Lemma loginsOf_app rs r : loginsOf (rs ++ [r]) = (loginsOf rs ++ map GetLogin (orgs r))%list.
Proof. unfold loginsOf. rewrite fmap_app, concat_app. cbn. rewrite app_nil_r. reflexivity. Qed.

Lemma listOrgs_run call since rs sinces since' :
  orgsRun call since rs sinces since' ->
  forall fuel asked allOrgs,
    listOrgs (length rs + fuel) call since asked allOrgs
    = listOrgs fuel (call + length rs) since' (asked ++ sinces)%list (allOrgs ++ loginsOf rs)%list.
Proof.
  induction 1 as [call since | call since n o id rs sinces since' Herr Hnext Hn Hlast Hid _ IH];
    intros fuel asked allOrgs.
  - cbn. rewrite Nat.add_0_r, !app_nil_r. reflexivity.
  - cbn [length Nat.add listing.listOrgs]. rewrite Herr, Hnext, Hlast, Hid.
    apply Z.eqb_neq in Hn. rewrite Hn, IH, <- !app_assoc, Nat.add_succ_r. reflexivity.
Qed.

(** X5: when every page is listed without error, [Organizations] returns
    the logins of all the pages in order (an absent login is the empty
    string); after each page that names a next one it asks for the
    organizations after the ID of the last organization of that page. *)
Theorem Organizations_pages rs sinces since fuel :
  orgsRun 0 0 rs sinces since ->
  orgsErr (ListAll (length rs) since) = None ->
  orgsNext (ListAll (length rs) since) = Some 0 ->
  (length rs < fuel)%nat ->
  exists r,
    Organizations fuel = Returned r /\
    logins r = loginsOf (rs ++ [ListAll (length rs) since]) /\
    failure r = None /\
    listing.sinces r = (sinces ++ [since])%list.
Proof.
  intros Hrun Herr Hnext Hfuel.
  replace fuel with (length rs + S (fuel - S (length rs)))%nat by lia.
  unfold listing.Organizations. rewrite (listOrgs_run 0 0 rs sinces since Hrun).
  cbn [Nat.add listing.listOrgs app]. rewrite Herr, Hnext. cbn [Z.eqb].
  eexists. split; [reflexivity|]. rewrite loginsOf_app. repeat split.
Qed.

(** X6: an error on any page makes [Organizations] return an empty slice
    with the error: the logins of the pages listed before are dropped;
    [Repositories] without a target then fails with the prefix twice,
    while with a target it lists that organization alone whatever the API
    answers.  A page that names a next page and holds no organization
    panics on [orgs[len(orgs)-1]]. *)
Theorem Organizations_failed_page rs sinces since fuel :
  orgsRun 0 0 rs sinces since ->
  (length rs < fuel)%nat ->
  (forall e, orgsErr (ListAll (length rs) since) = Some e ->
     (exists r, Organizations fuel = Returned r /\ logins r = [] /\
                failure r = Some ("failed to list organizations: " ++ e)) /\
     targetOrgs fuel ""
       = Returned (inr ("failed to list organizations: failed to list organizations: " ++ e)) /\
     forall target, target <> "" -> targetOrgs fuel target = Returned (inl [target])) /\
  (forall n, orgsErr (ListAll (length rs) since) = None ->
     orgsNext (ListAll (length rs) since) = Some n -> n <> 0 ->
     orgs (ListAll (length rs) since) = [] ->
     Organizations fuel = Panicked).
Proof.
  intros Hrun Hfuel.
  replace fuel with (length rs + S (fuel - S (length rs)))%nat by lia.
  unfold listing.targetOrgs, listing.Organizations.
  rewrite (listOrgs_run 0 0 rs sinces since Hrun).
  cbn [Nat.add listing.listOrgs app]. split.
  - intros e ->. split; [eexists; split; [reflexivity|]; split; reflexivity|].
    split; [reflexivity|].
    intros target Hne%String.eqb_neq. rewrite Hne. reflexivity.
  - intros n -> -> Hn%Z.eqb_neq ->. rewrite Hn. reflexivity.
Qed.

End Organizations.

(** *** The fan-out *)

#[global] Instance Task_eq_dec : EqDecision Task.
Proof. solve_decision. Defined.

Definition holding (t : string * Task) : nat :=
  match t.2 with Listing_ | Sent => 1 | _ => 0 end.

Definition hasSent (t : Task) : bool :=
  match t with Sent | Finished => true | _ => false end.

Definition sentOrgs (ts : list (string * Task)) : list string :=
  omap (fun t : string * Task => if hasSent t.2 then Some t.1 else None) ts.

Definition pending (t : string * Task) : nat :=
  match t.2 with Waiting => 3 | Listing_ => 2 | Sent => 1 | Finished => 0 end.

Arguments sentOrgs : simpl never.
Arguments holders : simpl never.

Lemma holders_cons t ts : holders (t :: ts) = (holding t + holders ts)%nat.
Proof. unfold holders, holding. cbn. destruct t as [org []]; reflexivity. Qed.

Lemma holders_insert ts i a b :
  ts !! i = Some a ->
  (holders (<[i := b]> ts) + holding a = holders ts + holding b)%nat.
Proof.
  revert i. induction ts as [|t ts IH]; intros [|i]; simpl; try discriminate.
  - intros [= ->]. rewrite !holders_cons. lia.
  - intros H. specialize (IH _ H). rewrite !holders_cons. lia.
Qed.

Lemma sentOrgs_cons t ts :
  sentOrgs (t :: ts) = if hasSent t.2 then t.1 :: sentOrgs ts else sentOrgs ts.
Proof. destruct t as [org []]; reflexivity. Qed.

Lemma sentOrgs_acquire ts i org :
  ts !! i = Some (org, Waiting) -> sentOrgs (<[i := (org, Listing_)]> ts) = sentOrgs ts.
Proof.
  revert i. induction ts as [|t ts IH]; intros [|i]; simpl; try discriminate.
  - intros [= ->]. reflexivity.
  - intros H. specialize (IH _ H). rewrite !sentOrgs_cons.
    destruct (hasSent t.2); first [exact IH | f_equal; exact IH].
Qed.

Lemma sentOrgs_release ts i org :
  ts !! i = Some (org, Sent) -> sentOrgs (<[i := (org, Finished)]> ts) = sentOrgs ts.
Proof.
  revert i. induction ts as [|t ts IH]; intros [|i]; simpl; try discriminate.
  - intros [= ->]. reflexivity.
  - intros H. specialize (IH _ H). rewrite !sentOrgs_cons.
    destruct (hasSent t.2); first [exact IH | f_equal; exact IH].
Qed.

Lemma sentOrgs_send ts i org :
  ts !! i = Some (org, Listing_) -> sentOrgs (<[i := (org, Sent)]> ts) ≡ₚ org :: sentOrgs ts.
Proof.
  revert i. induction ts as [|t ts IH]; intros [|i]; simpl; try discriminate.
  - intros [= ->]. reflexivity.
  - intros H. specialize (IH _ H). rewrite !sentOrgs_cons.
    destruct (hasSent t.2); rewrite IH; first [reflexivity | apply perm_swap].
Qed.


Lemma orgs_insert (ts : list (string * Task)) i org a b :
  ts !! i = Some (org, a) -> (<[i := (org, b)]> ts).*1 = ts.*1.
Proof.
  intros H. rewrite list_fmap_insert. apply list_insert_id.
  rewrite list_lookup_fmap, H. reflexivity.
Qed.

Lemma pending_insert ts i a b :
  ts !! i = Some a ->
  (sum_list (pending <$> <[i := b]> ts) + pending a = sum_list (pending <$> ts) + pending b)%nat.
Proof.
  revert i. induction ts as [|t ts IH]; intros [|i]; simpl; try discriminate.
  - intros [= ->]. lia.
  - intros H. specialize (IH _ H). unfold fmap in *. lia.
Qed.

Section Fan.
Variable capacity : nat.
Variable lists : string -> list string -> Prop.

Local Abbreviation fanStep := (listing.fanStep capacity lists).
Local Abbreviation Repositories := (listing.Repositories capacity lists).

(** The organizations are those asked for; no more goroutines hold a slot
    than the semaphore has; what was merged so far is the slices of the
    goroutines that have sent, in the order they sent. *)
Definition fan_inv (orgs : list string) (f : Fan) : Prop :=
  (tasks f).*1 = orgs /\
  (holders (tasks f) <= capacity)%nat /\
  exists merged : list (string * list string),
    selectedRepos f = concat merged.*2 /\
    Forall (fun d => lists d.1 d.2) merged /\
    merged.*1 ≡ₚ sentOrgs (tasks f).

Lemma fan_inv_start orgs : fan_inv orgs (fanStart orgs).
Proof.
  unfold fan_inv, fanStart. cbn [tasks selectedRepos]. split; [|split].
  - induction orgs as [|o orgs IH]; [reflexivity|]. cbn. f_equal. exact IH.
  - induction orgs as [|o orgs IH]; [unfold holders; cbn; lia|]. cbn [fmap list_fmap].
    rewrite holders_cons. cbn. exact IH.
  - exists []. split; [reflexivity|]. split; [constructor|].
    induction orgs as [|o orgs IH]; [reflexivity|]. cbn [fmap list_fmap].
    rewrite sentOrgs_cons. exact IH.
Qed.

Lemma fan_inv_step orgs f f' : fanStep f f' -> fan_inv orgs f -> fan_inv orgs f'.
Proof.
  unfold fan_inv. intros Hstep (Horgs & Hcap & merged & Hsel & Hall & Hperm).
  destruct Hstep as [i org ts sel Hi Hfree | i org repos ts sel Hi Hlists | i org ts sel Hi];
    cbn [tasks selectedRepos] in *.
  - split; [rewrite (orgs_insert _ _ _ _ _ Hi); exact Horgs|]. split.
    + pose proof (holders_insert ts i _ (org, Listing_) Hi) as H. cbn in H. lia.
    + exists merged. rewrite (sentOrgs_acquire _ _ _ Hi). auto.
  - split; [rewrite (orgs_insert _ _ _ _ _ Hi); exact Horgs|]. split.
    + pose proof (holders_insert ts i _ (org, Sent) Hi) as H. cbn in H. lia.
    + exists (merged ++ [(org, repos)])%list. split; [|split].
      * rewrite fmap_app, concat_app, Hsel. cbn. rewrite app_nil_r. reflexivity.
      * apply Forall_app. split; [exact Hall|]. constructor; [exact Hlists | constructor].
      * rewrite fmap_app, (sentOrgs_send _ _ _ Hi), Hperm. cbn.
        symmetry. apply Permutation_cons_append.
  - split; [rewrite (orgs_insert _ _ _ _ _ Hi); exact Horgs|]. split.
    + pose proof (holders_insert ts i _ (org, Finished) Hi) as H. cbn in H. lia.
    + exists merged. rewrite (sentOrgs_release _ _ _ Hi). auto.
Qed.

Lemma fan_inv_rtc orgs f : rtc fanStep (fanStart orgs) f -> fan_inv orgs f.
Proof.
  revert f. apply (rtc_ind_r (fan_inv orgs) (fanStart orgs)).
  - apply fan_inv_start.
  - eauto using fan_inv_step.
Qed.


Lemma fanStep_measure f f' :
  fanStep f f' ->
  (sum_list (pending <$> tasks f') < sum_list (pending <$> tasks f))%nat.
Proof.
  intros [i org ts sel Hi Hfree | i org repos ts sel Hi Hlists | i org ts sel Hi]; cbn [tasks].
  - pose proof (pending_insert ts i _ (org, Listing_) Hi) as H. cbn in H. lia.
  - pose proof (pending_insert ts i _ (org, Sent) Hi) as H. cbn in H. lia.
  - pose proof (pending_insert ts i _ (org, Finished) Hi) as H. cbn in H. lia.
Qed.

(** The goroutine waits for a slot or has given it back. *)
Definition idle (t : Task) : bool :=
  match t with Waiting | Finished => true | _ => false end.

Lemma holders_zero ts :
  Forall (fun t : string * Task => idle t.2 = true) ts -> holders ts = 0%nat.
Proof.
  induction 1 as [|t ts Ht _ IH]; [reflexivity|].
  rewrite holders_cons, IH. unfold holding. destruct (t.2); first [reflexivity | discriminate].
Qed.

(** What is left to do in the fan-out. *)
Definition remaining (f : Fan) : nat := sum_list (pending <$> tasks f).

Lemma fan_never_stuck orgs f :
  (forall org, org ∈ orgs -> exists repos, lists org repos) ->
  (1 <= capacity)%nat ->
  rtc fanStep (fanStart orgs) f -> ~ fanDone f -> exists f', fanStep f f'.
Proof.
  intros Hlists Hcap Hrtc Hnot.
  destruct (fan_inv_rtc orgs f Hrtc) as (Horgs & _ & _).
  destruct f as [ts sel]. unfold fanDone in Hnot. cbn [tasks] in *.
  destruct (decide (Forall (fun t : string * Task => idle t.2 = true) ts)) as [Hidle|Hbusy].
  - apply not_Forall_Exists in Hnot; [|intros t; apply Task_eq_dec].
    apply Exists_exists in Hnot as ([org t] & Hin & Ht).
    assert (Hi : idle t = true).
    { pose proof (proj1 (Forall_forall _ _) Hidle) as Hall. apply (Hall (org, t)), Hin. }
    assert (t = Waiting) as ->.
    { destruct t; first [reflexivity | discriminate Hi | exfalso; apply Ht; reflexivity]. }
    apply list_elem_of_lookup in Hin as [i Hlook].
    eexists. apply fan_acquire with (i := i) (org := org); [exact Hlook|].
    rewrite (holders_zero _ Hidle). lia.
  - apply not_Forall_Exists in Hbusy; [|intros t; apply bool_decide_eq_true_1 || solve_decision].
    apply Exists_exists in Hbusy as ([org t] & Hin & Ht). cbn [snd] in Ht.
    apply list_elem_of_lookup in Hin as [i Hlook].
    destruct t; try (exfalso; apply Ht; reflexivity).
    + destruct (Hlists org) as [repos Hrepos].
      { rewrite <- Horgs. apply list_elem_of_fmap. exists (org, Listing_).
        split; [reflexivity | eapply list_elem_of_lookup_2; exact Hlook]. }
      eexists. apply fan_send with (i := i) (org := org) (repos := repos); eauto.
    + eexists. apply fan_release with (i := i) (org := org). exact Hlook.
Qed.

Lemma fan_runs_to_end orgs :
  (forall org, org ∈ orgs -> exists repos, lists org repos) ->
  (1 <= capacity)%nat ->
  forall n f, (remaining f <= n)%nat -> rtc fanStep (fanStart orgs) f ->
    exists f', rtc fanStep f f' /\ fanDone f'.
Proof.
  intros Hlists Hcap. induction n as [|n IH]; intros f Hn Hrtc.
  - exists f. split; [apply rtc_refl|].
    destruct (decide (Forall (fun t : string * Task => t.2 = Finished) (tasks f))) as [Hd|Hnot];
      [exact Hd|].
    destruct (fan_never_stuck orgs f Hlists Hcap Hrtc Hnot) as [f' Hstep].
    pose proof (fanStep_measure _ _ Hstep). unfold remaining in Hn. lia.
  - destruct (decide (Forall (fun t : string * Task => t.2 = Finished) (tasks f))) as [Hd|Hnot].
    + exists f. split; [apply rtc_refl | exact Hd].
    + destruct (fan_never_stuck orgs f Hlists Hcap Hrtc Hnot) as [f' Hstep].
      pose proof (fanStep_measure _ _ Hstep) as Hlt.
      destruct (IH f') as (f'' & Hrun & Hdone).
      * unfold remaining in *. lia.
      * eapply rtc_r; [exact Hrtc | exact Hstep].
      * exists f''. split; [|exact Hdone]. eapply rtc_l; [exact Hstep | exact Hrun].
Qed.

(** X8: every step of the fan-out decreases what is left to do, so no
    run is infinite.  When every listing can end and the capacity is at
    least 1 the fan-out is never stuck: as long as a goroutine has not
    finished, one can take a slot, send its slice or give its slot back,
    so every run can be continued to the end and [Repositories] returns.
    With a capacity of 0 no goroutine ever gets a slot and [Repositories]
    never returns when there is an organization to list. *)
Theorem Repositories_progress orgs :
  (forall org, org ∈ orgs -> exists repos, lists org repos) ->
  (forall f f', fanStep f f' -> (remaining f' < remaining f)%nat) /\
  ((1 <= capacity)%nat ->
   (forall f, rtc fanStep (fanStart orgs) f -> ~ fanDone f -> exists f', fanStep f f') /\
   (forall f, rtc fanStep (fanStart orgs) f -> exists f', rtc fanStep f f' /\ fanDone f') /\
   exists selected, Repositories orgs selected) /\
  (capacity = 0%nat -> orgs <> [] ->
   (forall f, rtc fanStep (fanStart orgs) f -> f = fanStart orgs /\ ~ fanDone f) /\
   forall selected, ~ Repositories orgs selected).
Proof.
  intros Hlists. split; [apply fanStep_measure|]. split.
  - intros Hcap. split; [|split].
    + intros f. apply fan_never_stuck; assumption.
    + intros f Hrtc. apply (fan_runs_to_end orgs Hlists Hcap (remaining f) f); [lia | exact Hrtc].
    + destruct (fan_runs_to_end orgs Hlists Hcap (remaining (fanStart orgs)) (fanStart orgs))
        as (f' & Hrun & Hdone); [lia | apply rtc_refl|].
      exists (selectedRepos f'), f'. auto.
  - intros Hzero Hne.
    assert (Hstay : forall f, rtc fanStep (fanStart orgs) f -> f = fanStart orgs /\ ~ fanDone f).
    { intros f Hrtc.
      assert (Hf : f = fanStart orgs).
      { revert f Hrtc.
        apply (rtc_ind_r (fun f => f = fanStart orgs) (fanStart orgs)); [reflexivity|].
        intros f f' _ Hstep ->. exfalso. unfold fanStart in Hstep.
        inversion Hstep as [i org ts sel Hi Hfree | i org repos ts sel Hi Hl | i org ts sel Hi];
          subst.
        - lia.
        - rewrite list_lookup_fmap in Hi. destruct (orgs !! i); discriminate.
        - rewrite list_lookup_fmap in Hi. destruct (orgs !! i); discriminate. }
      split; [exact Hf|]. subst f. unfold fanDone, fanStart. cbn [tasks].
      destruct orgs as [|o orgs']; [congruence|]. intros H. inversion H; discriminate. }
    split; [exact Hstay|].
    intros selected (f & Hrtc & Hdone & _). destruct (Hstay f Hrtc) as [_ Hnot]. auto.
Qed.

End Fan.

End orgs_props.

(** ** More on the scan: every summary of [Scan], the pool without workers,
    the failures of [storeResults] *)

Module scan_more_props.
Import config gostrings lava trace_props lava_props pool_props segments_props store_props.

(** What [scanRepo] puts in every summary it returns for [repo]. *)
Definition wellFormed (repo : string) (s : Summary) : Prop :=
  NumberOfControls s = Z.of_nat (length (Controls s)) /\
  (Error_ s <> "" -> Repository s = repo /\ Controls s = [] /\ ControlInPlace s = false).

Lemma Split_pieces s c : Forall (fun piece => hasChar c piece = false) (Split s (String c "")).
Proof.
  induction s as [|a s IH]; [rewrite Split_empty; repeat constructor|].
  rewrite Split_cons. destruct (Ascii.eqb c a) eqn:Hca.
  - constructor; [reflexivity | exact IH].
  - destruct (Split s (String c "")) as [|h t]; cbn [consHead].
    + repeat constructor. cbn. rewrite Hca. reflexivity.
    + inversion IH as [|? ? Hh Ht]; subst. constructor; [|exact Ht].
      cbn. rewrite Hca, Hh. reflexivity.
Qed.

Lemma Contains_char s c : Contains s (String c "") = hasChar c s.
Proof.
  unfold Contains. induction s as [|a s IH]; [reflexivity|].
  rewrite Index_char. cbn [hasChar]. destruct (Ascii.eqb c a); [reflexivity|].
  cbn. rewrite <- IH. destruct (Index s (String c "")); reflexivity.
Qed.

Section Client.
Variable json_Unmarshal : string -> string + list report.Vulnerability.
Variable url_Parse : string -> string + url.URL.

Local Abbreviation scanRepo := (lava.scanRepo json_Unmarshal url_Parse).
Local Abbreviation storeResults := (lava.storeResults url_Parse).
Local Abbreviation orgAndRepo := (lava.orgAndRepo url_Parse).
Local Abbreviation Scan := (lava.Scan json_Unmarshal url_Parse).
Local Abbreviation step := (lava.step json_Unmarshal url_Parse).

Lemma scanRepo_wellFormed c w repo :
  Forall (wellFormed repo) (trace.value (scanRepo c w repo)).
Proof.
  rewrite scanRepo_value. destruct (0 <? _); [|destruct (json_Unmarshal (outBuf w)) as [e|lr]].
  - repeat constructor.
  - repeat constructor.
  - apply List.Forall_forall. intros s (r & <- & _)%in_map_iff.
    rewrite summarize_spec. split; [reflexivity|]. cbn. congruence.
Qed.

(** X9: every summary [Scan] returns, with any number of workers, has a
    number of controls equal to the length of its control list; a summary
    with an error has no control, is not in place and carries the address
    of one of the targets. *)
Theorem Scan_summaries_wellformed c targets summary :
  Scan c targets summary ->
  Forall (fun s =>
            NumberOfControls s = Z.of_nat (length (Controls s)) /\
            (Error_ s <> "" ->
             Repository s ∈ targets /\ Controls s = [] /\ ControlInPlace s = false))
         summary.
Proof.
  intros (p & Hrtc & _ & ->).
  destruct (pool_inv_rtc json_Unmarshal url_Parse c targets p Hrtc)
    as (scanned & Hres & Hperm & _ & _).
  unfold collect. rewrite Hres. apply List.Forall_forall.
  intros s Hin. apply in_concat in Hin as (b & Hb & Hs).
  apply (proj2 (list_elem_of_In _ _)) in Hb.
  apply list_elem_of_fmap in Hb as ([repo w] & -> & Hjob).
  pose proof (scanRepo_wellFormed c w repo) as Hwf. rewrite List.Forall_forall in Hwf.
  destruct (Hwf s) as [Hn He]; [exact Hs|].
  split; [exact Hn|]. intros Herr. destruct (He Herr) as (-> & Hc & Hp).
  split; [|auto]. rewrite Hperm. apply elem_of_app. left.
  apply list_elem_of_fmap. exists (repo, w). auto.
Qed.

(** X10: [Scan] on a client whose concurrency is 0 or less starts no
    worker, waits for none and returns an empty slice, whatever the
    targets: none of them is scanned. *)
Theorem Scan_without_worker c targets :
  LavaConfig.Concurrency (cfg c) <= 0 ->
  Scan c targets [] /\
  forall summary, Scan c targets summary -> summary = [].
Proof.
  intros Hzero. split.
  { exists (start c targets). split; [reflexivity|]. split; [|reflexivity].
    unfold finished, start. cbn [workers].
    replace (Z.to_nat (LavaConfig.Concurrency (cfg c))) with 0%nat by lia. constructor. }
  intros summary (p & Hrtc & _ & ->).
  assert (Hp : p = start c targets).
  { revert p Hrtc. apply (rtc_ind_r (fun p => p = start c targets) (start c targets)); [reflexivity|].
    intros p p' _ Hstep ->. exfalso. unfold start in Hstep.
    replace (Z.to_nat (LavaConfig.Concurrency (cfg c))) with 0%nat in Hstep by lia.
    inversion Hstep; subst; discriminate. }
  rewrite Hp. reflexivity.
Qed.

(** X11: [orgAndRepo] returns two pieces of the path that hold no slash,
    the first one not empty, so the raw results of a repository go to a
    directory exactly two levels below the configured one. *)
Theorem orgAndRepo_no_slash target org repo :
  orgAndRepo target = inr (org, repo) ->
  org <> "" /\ Contains org "/" = false /\ Contains repo "/" = false.
Proof.
  unfold lava.orgAndRepo. destruct (url_Parse target) as [e|u]; [discriminate|]. cbv zeta.
  destruct (Split (Trim (url.Path u) "/") "/") as [|o [|r rest]] eqn:Hsplit; try discriminate.
  intros [= <- <-].
  pose proof (Split_pieces (Trim (url.Path u) "/") "/"%char) as Hall.
  rewrite Hsplit in Hall. inversion Hall as [|? ? Ho Hrest]; subst.
  inversion Hrest as [|? ? Hr _]; subst.
  rewrite !Contains_char. split; [|auto].
  eapply Split_Trim_head; [exact Hsplit | discriminate].
Qed.

Definition isLog (e : Event) : bool :=
  match e with Log _ => true | _ => false end.

Definition isWrite (e : Event) : bool :=
  match e with WriteFile _ _ => true | _ => false end.

Lemma append_inj_l a x y : a ++ x = a ++ y -> x = y.
Proof. induction a as [|ch a IH]; cbn; [auto | intros [= H]; auto]. Qed.

(** X12: [storeResults] stops at its first failure: when the directory
    cannot be created no file is written, and when standard output cannot
    be written standard error is not written either; it writes nothing
    but the two files of the repository; with a directory configured it
    logs exactly one record, with none it does nothing. *)
Theorem storeResults_failures c w target stdout stderr :
  let evs := trace.events (storeResults c w target stdout stderr) in
  (LavaConfig.ResultsPath (cfg c) = "" -> evs = []) /\
  (LavaConfig.ResultsPath (cfg c) <> "" -> length (List.filter isLog evs) = 1%nat) /\
  (forall org repo, orgAndRepo target = inr (org, repo) ->
     os_MkdirAll w (resultsDir c org repo) <> None -> List.filter isWrite evs = []) /\
  (forall org repo, orgAndRepo target = inr (org, repo) ->
     os_WriteFile w (resultsDir c org repo ++ "/stdout.json") stdout <> None ->
     ~ In (WriteFile (resultsDir c org repo ++ "/stderr.log") stderr) evs) /\
  (forall path data, In (WriteFile path data) evs ->
     exists org repo, orgAndRepo target = inr (org, repo) /\
       ((path = resultsDir c org repo ++ "/stdout.json" /\ data = stdout) \/
        (path = resultsDir c org repo ++ "/stderr.log" /\ data = stderr))).
Proof using url_Parse.
  clear json_Unmarshal. cbv zeta. unfold lava.storeResults.
  destruct (String.eqb (LavaConfig.ResultsPath (cfg c)) "") eqn:Hset.
  { apply String.eqb_eq in Hset. cbn.
    split; [reflexivity|]. split; [congruence|]. split; [reflexivity|].
    split; [tauto|]. intros path data []. }
  apply String.eqb_neq in Hset. split; [congruence|].
  destruct (lava.orgAndRepo url_Parse target) as [e|[org repo]] eqn:Horg.
  { cbn. split; [reflexivity|]. split; [discriminate|]. split; [discriminate|].
    intros path data [H|[]]. discriminate. }
  fold (resultsDir c org repo). set (dir := resultsDir c org repo).
  assert (Hdiff : dir ++ "/stdout.json" <> dir ++ "/stderr.log")
    by (intros H%append_inj_l; discriminate).
  destruct (os_MkdirAll w dir) as [e1|] eqn:Hmk;
    [|destruct (os_WriteFile w (dir ++ "/stdout.json") stdout) as [e2|] eqn:Hout;
      [|destruct (os_WriteFile w (dir ++ "/stderr.log") stderr) as [e3|] eqn:Herr]].
  all: cbv zeta; rewrite events_bind, events_emit, ?Hmk, ?events_bind, ?events_emit, ?Hout,
         ?events_bind, ?events_emit, ?Herr; unfold logf; rewrite ?events_emit; cbn [app].
  all: split; [intros _; reflexivity|].
  all: split; [intros org' repo' [= <- <-]; fold dir; rewrite Hmk;
               first [intros _; reflexivity | congruence]|].
  all: split; [intros org' repo' [= <- <-]; fold dir; rewrite ?Hout;
               first [congruence | intros _ [H|[H|[H|[]]]]; congruence
                      | intros _ [H|[H|[]]]; congruence]|].
  all: intros path data Hin; exists org, repo; split; [reflexivity|]; fold dir;
       cbn in Hin; intuition (try discriminate; try (left; split; congruence);
                              try (right; split; congruence)).
Qed.

End Client.

End scan_more_props.

(** ** [output.Write] when a call fails *)

Module output_more_props.
Import gostrings output trace_props.

(** The records [Write] hands to the CSV writer when none fails. *)
Definition csvRecords (summary : list lava.Summary) : list (list string) :=
  csvHeader :: map csvRecord summary.

Lemma writeRows_prefix w summary :
  forall k, exists n,
    (n <= length summary)%nat /\
    trace.events (writeRows w k summary) = map CsvWrite (firstn n (map csvRecord summary)) /\
    (trace.value (writeRows w k summary) = None -> n = length summary).
Proof.
  induction summary as [|s rest IH]; intros k.
  - exists 0%nat. repeat split. cbn. lia.
  - cbn [writeRows]. destruct (csv_Write w k (csvRecord s)) as [e|].
    + exists 1%nat. split; [cbn; lia|]. split; [reflexivity|]. discriminate.
    + destruct (IH (S k)) as (n & Hn & Hev & Hval). exists (S n).
      destruct (writeRows w (S k) rest) as [evs v] eqn:Hrows. cbn in Hev, Hval.
      split; [cbn; lia|]. split; [cbn; f_equal; exact Hev|].
      cbn. intros Hv. f_equal. auto.
Qed.

Lemma writeRows_fail w summary :
  forall k0 k s e,
    summary !! k = Some s ->
    (forall i s', (i < k)%nat -> summary !! i = Some s' ->
                  csv_Write w (k0 + i) (csvRecord s') = None) ->
    csv_Write w (k0 + k) (csvRecord s) = Some e ->
    writeRows w k0 summary
    = (map CsvWrite (firstn (S k) (map csvRecord summary)), Some (ErrIO e)).
Proof.
  induction summary as [|s0 rest IH]; intros k0 k s e Hk Hbefore Hfail; [discriminate|].
  destruct k as [|k].
  - injection Hk as ->. cbn [writeRows]. rewrite Nat.add_0_r in Hfail. rewrite Hfail.
    reflexivity.
  - cbn in Hk. cbn [writeRows].
    pose proof (Hbefore 0%nat s0 ltac:(lia) eq_refl) as H0. rewrite Nat.add_0_r in H0.
    rewrite H0, (IH (S k0) k s e Hk).
    + reflexivity.
    + intros i s' Hi Hs'. replace (S k0 + i)%nat with (k0 + S i)%nat by lia.
      apply Hbefore; [lia | exact Hs'].
    + replace (S k0 + k)%nat with (k0 + S k)%nat by lia. exact Hfail.
Qed.

(** X13: [Write] creates the file before it looks at the format, so a
    format it does not support still creates (and truncates) the file; a
    file that cannot be created is not closed and its error is returned;
    a file that was created is closed exactly once, as the last call,
    whatever fails in between; the CSV writer is flushed just before, and
    [Write] returns no error only if the format is csv or json and, for
    csv, the header and every record were written. *)
Theorem Write_file_lifecycle w format file summary :
  file <> "" ->
  (forall e, os_Create w file = Some e ->
             Write w format file summary = ([Create file], Some (ErrIO e))) /\
  (os_Create w file = None ->
   exists mid,
     trace.events (Write w format file summary) = (Create file :: mid ++ [Close])%list /\
     Forall (fun ev => match ev with Create _ | Close => False | _ => True end) mid /\
     (trace.value (Write w format file summary) = None ->
      ToLower format = "csv" \/ ToLower format = "json") /\
     (ToLower format = "csv" ->
      exists n, (n <= length summary)%nat /\
        mid = (map CsvWrite (firstn (S n) (csvRecords summary)) ++ [CsvFlush])%list /\
        (trace.value (Write w format file summary) = None -> n = length summary))).
Proof.
  intros Hfile%String.eqb_neq. unfold Write. rewrite Hfile. split.
  { intros e ->. reflexivity. }
  intros ->. cbv zeta.
  destruct (String.eqb (ToLower format) "csv") eqn:Hcsv.
  - apply String.eqb_eq in Hcsv.
    destruct (csv_Write w 0 csvHeader) as [e|] eqn:Hhead.
    + exists [CsvWrite csvHeader; CsvFlush]. cbn.
      split; [reflexivity|]. split; [repeat constructor|]. split; [discriminate|].
      intros _. exists 0%nat. split; [lia|]. split; [reflexivity | discriminate].
    + destruct (writeRows_prefix w summary 1) as (n & Hn & Hev & Hval).
      destruct (writeRows w 1 summary) as [evs v] eqn:Hrows. cbn in Hev, Hval. subst evs.
      exists (CsvWrite csvHeader :: map CsvWrite (firstn n (map csvRecord summary)) ++ [CsvFlush])%list.
      cbn -[writeRows]. rewrite ?Hhead, ?Hrows. cbn.
      split; [rewrite <- app_assoc; reflexivity|].
      split.
      { constructor; [exact I|]. apply Forall_app. split; [|repeat constructor].
        apply List.Forall_forall. intros ev (r & <- & _)%in_map_iff. exact I. }
      split; [auto|]. intros _. exists n. split; [exact Hn|]. split; [reflexivity | exact Hval].
  - apply String.eqb_neq in Hcsv.
    destruct (String.eqb (ToLower format) "json") eqn:Hjson.
    + apply String.eqb_eq in Hjson. exists [JsonEncode "" "  " summary].
      cbn. destruct (json_Encode w summary); cbn.
      all: split; [reflexivity|]; split; [repeat constructor|]; split; [auto | congruence].
    + exists []. cbn. split; [reflexivity|]. split; [constructor|].
      split; [discriminate | congruence].
Qed.

(** X14: the CSV branch of [Write] stops at the first record the writer
    refuses: the header and the records up to that one are handed to the
    writer, none after it; the writer is still flushed and the file closed,
    and the error returned is that of the refused record. *)
Theorem Write_csv_first_failure w format file summary k r e :
  file <> "" ->
  os_Create w file = None ->
  ToLower format = "csv" ->
  csvRecords summary !! k = Some r ->
  (forall i r', (i < k)%nat -> csvRecords summary !! i = Some r' -> csv_Write w i r' = None) ->
  csv_Write w k r = Some e ->
  Write w format file summary
  = ((Create file :: map CsvWrite (firstn (S k) (csvRecords summary)) ++ [CsvFlush; Close])%list,
     Some (ErrIO e)).
Proof.
  intros Hfile%String.eqb_neq Hcreate Hcsv Hk Hbefore Hfail.
  unfold Write. rewrite Hfile, Hcreate. cbv zeta. rewrite Hcsv.
  cbn [String.eqb Ascii.eqb Bool.eqb]. unfold csvRecords in *.
  destruct k as [|k].
  - injection Hk as <-. cbn -[writeRows]. rewrite Hfail. reflexivity.
  - change ((csvRecord <$> summary) !! k = Some r) in Hk.
    rewrite list_lookup_fmap in Hk.
    destruct (summary !! k) as [s|] eqn:Hs; [|discriminate]. injection Hk as <-.
    pose proof (Hbefore 0%nat csvHeader ltac:(lia) eq_refl) as Hhead.
    cbn -[writeRows]. rewrite Hhead.
    rewrite (writeRows_fail w summary 1 k s e Hs).
    + reflexivity.
    + intros i s' Hi Hs'. apply (Hbefore (S i)); [lia|].
      change ((csvRecord <$> summary) !! i = Some (csvRecord s')).
      rewrite list_lookup_fmap, Hs'. reflexivity.
    + exact Hfail.
Qed.

End output_more_props.

(** * Metrics, the summary gauges of [main] and [config.Load] *)

(** ** [internal/metrics] *)

Module metrics.

Definition ClientNotInitializedMsg : string := "metrics client not initialized".
Definition DefaultMetricsClientAddr : string := "localhost:8125".

(** [config.MetricsConfig]: the four fields the package reads. *)
Record MetricsConfig := mkMetricsConfig {
  Enabled : bool;
  Address : string;
  Namespace : string;
  Tags : list string
}.

(** [*statsd.Client]: the address it was created for. *)
Record Statsd := mkStatsd { addr : string }.

(** [ctx] is stored and never read.  [logger] is a pointer: [false] is
    nil. *)
Record Client := mkClient {
  cfg : MetricsConfig;
  client : option Statsd;
  logger : bool
}.

(** [&Client{}]: every field has its zero value. *)
Definition zeroClient : Client := mkClient (mkMetricsConfig false "" "" []) None false.

(** [float64(value)] for an [int]: rounding to nearest, ties to even. *)
Definition float64 (value : Z) : spec_float := binary_normalize 53 1024 value 0 false.

(** The arguments of a log record. *)
Inductive Arg :=
| AString (s : string)
| AInt (n : Z)
| AStrings (l : list string)
| AError (err : string).

Inductive Event :=
| Log (level : slog.Level) (msg : string) (args : list (string * Arg))
| StatsdNew (address : string)
| StatsdGauge (sd : Statsd) (name : string) (value : spec_float) (tags : list string)
    (rate : spec_float)
| StatsdServiceCheck (sd : Statsd) (name : string) (status : Z) (tags : list string)
    (message : string)
| StatsdClose (sd : Statsd)
| StatsdFlush (sd : Statsd).

(** The errors of the statsd library; [None] is success. *)
Record World := mkWorld {
  statsd_New : string -> option string;
  statsd_Gauge : string -> spec_float -> list string -> option string;
  statsd_ServiceCheck : string -> Z -> list string -> string -> option string;
  statsd_Close : option string;
  statsd_Flush : option string
}.

(** A call on [c.logger]; with a nil logger the call panics, which is the
    value [None]. *)
Definition log (c : Client) (level : slog.Level) (msg : string) (args : list (string * Arg))
  : trace.M Event (option unit) :=
  if logger c then trace.emit (Log level msg args) ;; trace.ret (Some tt)
  else trace.ret None.

(** [NewClient]; [logger] is the address of a variable of [main], never
    nil. *)
Definition NewClient (w : World) (cfg : MetricsConfig) : trace.M Event (string + Client) :=
  if negb (Enabled cfg) then
    trace.emit (Log slog.LevelInfo "metrics reporting disabled" []) ;;
    trace.ret (inr zeroClient)
  else
    address ← (if String.eqb (Address cfg) "" then
                 trace.emit (Log slog.LevelWarn "metrics address not provided, using default"
                               [("address", AString DefaultMetricsClientAddr)]) ;;
                 trace.ret DefaultMetricsClientAddr
               else trace.ret (Address cfg));
    trace.emit (StatsdNew address) ;;
    match statsd_New w address with
    | Some err => trace.ret (inl err)
    | None => trace.ret (inr (mkClient cfg (Some (mkStatsd address)) true))
    end.

(** The two guards every method starts with. *)
Definition guarded (c : Client) (body : Statsd -> trace.M Event (option unit))
  : trace.M Event (option unit) :=
  if negb (Enabled (cfg c)) then trace.ret (Some tt)
  else match client c with
       | None => log c slog.LevelWarn ClientNotInitializedMsg []
       | Some sd => body sd
       end.

Definition Gauge (w : World) (c : Client) (name : string) (value : Z) (tags : list string)
  : trace.M Event (option unit) :=
  guarded c (fun sd =>
    let tags := (tags ++ Tags (cfg c))%list in
    let name := Namespace (cfg c) ++ "." ++ name in
    trace.emit (StatsdGauge sd name (float64 value) tags (float64 1)) ;;
    match statsd_Gauge w name (float64 value) tags with
    | Some err => log c slog.LevelError "gauge metric push error" [("error", AError err)]
    | None => log c slog.LevelDebug "gauge metric pushed"
                [("name", AString name); ("value", AInt value); ("tags", AStrings tags)]
    end).

Definition ServiceCheck (w : World) (c : Client) (status : Z) (message : string)
    (tags : list string) : trace.M Event (option unit) :=
  guarded c (fun sd =>
    let tags := (tags ++ Tags (cfg c))%list in
    let name := Namespace (cfg c) ++ ".service_check" in
    trace.emit (StatsdServiceCheck sd name status tags message) ;;
    match statsd_ServiceCheck w name status tags message with
    | Some err => log c slog.LevelError "service check push error" [("error", AError err)]
    | None => log c slog.LevelDebug "service check pushed"
                [("status", AInt status); ("message", AString message)]
    end).

Definition Close (w : World) (c : Client) : trace.M Event (option unit) :=
  guarded c (fun sd =>
    trace.emit (StatsdClose sd) ;;
    match statsd_Close w with
    | Some err => log c slog.LevelError "metrics client close error" [("error", AError err)]
    | None => log c slog.LevelDebug "metrics client closed" []
    end).

Definition Flush (w : World) (c : Client) : trace.M Event (option unit) :=
  guarded c (fun sd =>
    trace.emit (StatsdFlush sd) ;;
    match statsd_Flush w with
    | Some err => log c slog.LevelError "metrics client flush error" [("error", AError err)]
    | None => log c slog.LevelDebug "metrics client flushed" []
    end).

End metrics.

(** ** [main]: the gauges of the summary *)

Module main.
Import lava.

(** The two maps of [pushSummaryMetrics]. *)
Record Tally := mkTally {
  sm : gmap string Z;
  cm : gmap string Z
}.

Definition initialTally : Tally :=
  mkTally (<["with_controls" := 0]> (<["without_controls" := 0]> (<["error" := 0]> ∅))) ∅.

(** The body of the first loop, for one summary. *)
Definition tally1 (t : Tally) (s : Summary) : Tally :=
  if negb (String.eqb (Error_ s) "") then mkTally (github.incr "error" (sm t)) (cm t)
  else
    mkTally
      (github.incr (if ControlInPlace s then "with_controls" else "without_controls") (sm t))
      (fold_left (fun cm c => github.incr c cm) (Controls s) (cm t)).

Definition tally (s : list Summary) : Tally := fold_left tally1 s initialTally.

(** The calls of [m.Gauge] of the two last loops (Go ranges over a map in
    no fixed order; the lists follow [map_to_list]). *)
Definition gauges (t : Tally) : list (string * Z * list string) :=
  app ((fun kv : string * Z => ("summary.status", kv.2, ["target:" ++ kv.1]))
         <$> map_to_list (sm t))
      ((fun kv : string * Z => ("summary.controls", kv.2, ["control:" ++ kv.1]))
         <$> map_to_list (cm t)).

(** The calls in order; a panic in one ends the function. *)
Fixpoint pushAll (w : metrics.World) (m : metrics.Client) (calls : list (string * Z * list string))
  : trace.M metrics.Event (option unit) :=
  match calls with
  | [] => trace.ret (Some tt)
  | (name, value, tags) :: rest =>
      r ← metrics.Gauge w m name value tags;
      match r with
      | None => trace.ret None
      | Some _ => pushAll w m rest
      end
  end.

Definition pushSummaryMetrics (w : metrics.World) (m : metrics.Client) (s : list Summary)
  : trace.M metrics.Event (option unit) :=
  pushAll w m (gauges (tally s)).

End main.

(** ** [config.Load] *)

Module config_load.
Import gostrings config.

(** [strings.HasSuffix]. *)
Definition HasSuffix (s suffix : string) : bool :=
  (String.length suffix <=? String.length s)%nat
  && String.eqb (drop (String.length s - String.length suffix) s) suffix.

Record Config := mkConfig {
  LogLevel : string;
  LogOutput : string;
  LogFormat : string;
  TargetOrg : string;
  OutputFilePath : string;
  OutputFormat : string;
  GHECfg : GHEConfig.t;
  LavaCfg : LavaConfig.t
}.

Definition withResultsPath (cfg : Config) (path : string) : Config :=
  mkConfig (LogLevel cfg) (LogOutput cfg) (LogFormat cfg) (TargetOrg cfg)
    (OutputFilePath cfg) (OutputFormat cfg) (GHECfg cfg)
    (LavaConfig.mk (LavaConfig.Token (LavaCfg cfg)) (LavaConfig.BaseURL (LavaCfg cfg))
       (LavaConfig.Concurrency (LavaCfg cfg)) (LavaConfig.BinaryPath (LavaCfg cfg))
       (LavaConfig.CheckImage (LavaCfg cfg)) path).

(** [Load]; [parsed] is what [env.ParseWithOptions] with the prefix
    [REPOSEC_] makes of the environment: an error or the filled-in
    configuration. *)
Definition Load (parsed : string + Config) : string + Config :=
  match parsed with
  | inl err => inl err
  | inr cfg =>
      let path := LavaConfig.ResultsPath (LavaCfg cfg) in
      if negb (String.eqb path "") && negb (HasSuffix path "/")
      then inr (withResultsPath cfg (path ++ "/"))
      else inr cfg
  end.

End config_load.

(** ** Properties of the metrics client *)

Module metrics_props.
Import metrics trace_props.

(** The address [NewClient] hands to [statsd.New]. *)
Definition effectiveAddress (cfg : MetricsConfig) : string :=
  if String.eqb (Address cfg) "" then DefaultMetricsClientAddr else Address cfg.

Definition notInitialized (e : Event) : Prop :=
  exists level args, e = Log level ClientNotInitializedMsg args.

Lemma NewClient_value w cfg c :
  trace.value (NewClient w cfg) = inr c ->
  if Enabled cfg then c = mkClient cfg (Some (mkStatsd (effectiveAddress cfg))) true
  else c = zeroClient.
Proof.
  unfold NewClient, effectiveAddress. destruct (Enabled cfg); cbn [negb].
  - destruct (String.eqb (Address cfg) ""); cbn.
    + destruct (statsd_New w DefaultMetricsClientAddr); cbn; congruence.
    + destruct (statsd_New w (Address cfg)); cbn; congruence.
  - cbn. congruence.
Qed.

(** X15: a client [NewClient] returns can always be used: with metrics
    disabled every method returns at once and leaves nothing (the logger
    of the empty client is nil and is never called); with metrics enabled
    the statsd client was created for the configured address, or for
    [localhost:8125] when none is configured, no method panics and none
    logs that the client is not initialized.  [NewClient] fails exactly
    when metrics are enabled and [statsd.New] fails. *)
Theorem NewClient_usable w cfg :
  (forall e, trace.value (NewClient w cfg) = inl e <->
             Enabled cfg = true /\ statsd_New w (effectiveAddress cfg) = Some e) /\
  (forall c, trace.value (NewClient w cfg) = inr c ->
     (Enabled cfg = false ->
      forall name v tags status message,
        Gauge w c name v tags = ([], Some tt) /\
        ServiceCheck w c status message tags = ([], Some tt) /\
        Flush w c = ([], Some tt) /\
        Close w c = ([], Some tt)) /\
     (Enabled cfg = true ->
      client c = Some (mkStatsd (effectiveAddress cfg)) /\
      In (StatsdNew (effectiveAddress cfg)) (trace.events (NewClient w cfg))) /\
     (forall name v tags status message m,
        In m [Gauge w c name v tags; ServiceCheck w c status message tags;
              Flush w c; Close w c] ->
        trace.value m = Some tt /\
        Forall (fun ev => ~ notInitialized ev) (trace.events m))).
Proof.
  split.
  { intros e. unfold NewClient, effectiveAddress. destruct (Enabled cfg); cbn [negb].
    - destruct (String.eqb (Address cfg) ""); cbn.
      + destruct (statsd_New w DefaultMetricsClientAddr); cbn; split;
          first [intros [= ->]; auto | intros [_ [= ->]]; reflexivity
                 | discriminate | intros [_ [=]]].
      + destruct (statsd_New w (Address cfg)); cbn; split;
          first [intros [= ->]; auto | intros [_ [= ->]]; reflexivity
                 | discriminate | intros [_ [=]]].
    - cbn. split; [discriminate | intros [[=] _]]. }
  intros c Hc. pose proof (NewClient_value w cfg c Hc) as Hval.
  destruct (Enabled cfg) eqn:Hen; subst c.
  - split; [discriminate|]. split.
    { intros _. split; [reflexivity|].
      unfold NewClient, effectiveAddress. rewrite Hen. cbn [negb].
      destruct (String.eqb (Address cfg) ""); cbn.
      - destruct (statsd_New w DefaultMetricsClientAddr); cbn; auto.
      - destruct (statsd_New w (Address cfg)); cbn; auto. }
    intros name v tags status message m Hm.
    assert (Hno : forall level msg args, msg <> ClientNotInitializedMsg ->
                                         ~ notInitialized (Log level msg args)).
    { intros level msg args Hne (l & a & [= _ Hmsg _]). auto. }
    cbn [In] in Hm. destruct Hm as [<-|[<-|[<-|[<-|[]]]]].
    all: unfold Gauge, ServiceCheck, Flush, Close, guarded, log; cbn [metrics.cfg client logger];
      rewrite Hen; cbn [negb].
    + destruct (statsd_Gauge w _ _ _); cbn; (split; [reflexivity|]);
        repeat constructor; try (apply Hno; discriminate); intros (l & a & [=]).
    + destruct (statsd_ServiceCheck w _ _ _ _); cbn; (split; [reflexivity|]);
        repeat constructor; try (apply Hno; discriminate); intros (l & a & [=]).
    + destruct (statsd_Flush w); cbn; (split; [reflexivity|]);
        repeat constructor; try (apply Hno; discriminate); intros (l & a & [=]).
    + destruct (statsd_Close w); cbn; (split; [reflexivity|]);
        repeat constructor; try (apply Hno; discriminate); intros (l & a & [=]).
  - split; [|split; [discriminate|]].
    { intros _ name v tags status message. repeat split. }
    intros name v tags status message m Hm.
    cbn [In] in Hm. destruct Hm as [<-|[<-|[<-|[<-|[]]]]]; split; first [reflexivity | constructor].
Qed.

End metrics_props.

(** ** Properties of the summary gauges *)

Module main_props.
Import lava metrics main trace_props metrics_props.

Definition failed (x : Summary) : bool := negb (String.eqb (Error_ x) "").

Definition status (x : Summary) : string :=
  if failed x then "error"
  else if ControlInPlace x then "with_controls" else "without_controls".

Definition count {A} (p : A -> bool) (l : list A) : Z := Z.of_nat (length (List.filter p l)).

(** The controls of the summaries without an error, with repetitions. *)
Definition scannedControls (s : list Summary) : list string :=
  concat (Controls <$> List.filter (fun x => negb (failed x)) s).

Lemma count_cons {A} (p : A -> bool) x l :
  count p (x :: l) = (if p x then 1 else 0) + count p l.
Proof. unfold count. cbn. destruct (p x); cbn [length]; lia. Qed.

Lemma count_app {A} (p : A -> bool) l1 l2 : count p (l1 ++ l2) = count p l1 + count p l2.
Proof. unfold count. rewrite List.filter_app, length_app. lia. Qed.

Lemma count_ext {A} (p q : A -> bool) l : (forall x, p x = q x) -> count p l = count q l.
Proof. intros H. unfold count. rewrite (List.filter_ext p q H). reflexivity. Qed.

Lemma count_pos {A} (p : A -> bool) l : 0 < count p l <-> exists x, In x l /\ p x = true.
Proof.
  induction l as [|y l IH]; [unfold count; cbn; split; [lia | intros (x & [] & _)]|].
  rewrite count_cons. destruct (p y) eqn:Hy.
  - split; [intros _; exists y; cbn; auto | intros _; unfold count; lia].
  - rewrite Z.add_0_l, IH. split; intros (x & Hin & Hx).
    + exists x. cbn. auto.
    + destruct Hin as [->|Hin]; [congruence | eauto].
Qed.

Lemma lookup_incr k k' m :
  default 0 (github.incr k m !! k') = default 0 (m !! k') + (if String.eqb k' k then 1 else 0).
Proof.
  unfold github.incr. destruct (String.eqb k' k) eqn:Hk.
  - apply String.eqb_eq in Hk as ->. rewrite lookup_insert_eq. reflexivity.
  - apply String.eqb_neq in Hk. rewrite lookup_insert_ne by congruence. cbn. lia.
Qed.

Lemma dom_incr k m : dom (github.incr k m) = {[k]} ∪ dom m.
Proof. unfold github.incr. apply dom_insert_L. Qed.

Lemma controls_fold l :
  forall m,
    (forall c, default 0 (fold_left (fun cm c => github.incr c cm) l m !! c)
               = default 0 (m !! c) + count (String.eqb c) l) /\
    dom (fold_left (fun cm c => github.incr c cm) l m) = list_to_set l ∪ dom m.
Proof.
  induction l as [|x l IH]; intros m.
  - split; [intros c; unfold count; cbn; lia|]. cbn. rewrite union_empty_l_L. reflexivity.
  - cbn [fold_left]. destruct (IH (github.incr x m)) as [Hv Hd]. split.
    + intros c. rewrite Hv, lookup_incr, count_cons. lia.
    + rewrite Hd, dom_incr. cbn [list_to_set]. rewrite union_assoc_L, (union_comm_L _ {[x]}).
      reflexivity.
Qed.

Lemma scannedControls_cons x s :
  scannedControls (x :: s)
  = ((if failed x then [] else Controls x) ++ scannedControls s)%list.
Proof. unfold scannedControls. cbn. destruct (failed x); reflexivity. Qed.

Lemma tally_fold s :
  forall t,
    (forall k, default 0 (sm (fold_left tally1 s t) !! k)
               = default 0 (sm t !! k) + count (fun x => String.eqb k (status x)) s) /\
    dom (sm (fold_left tally1 s t)) = list_to_set (status <$> s) ∪ dom (sm t) /\
    (forall c, default 0 (cm (fold_left tally1 s t) !! c)
               = default 0 (cm t !! c) + count (String.eqb c) (scannedControls s)) /\
    dom (cm (fold_left tally1 s t)) = list_to_set (scannedControls s) ∪ dom (cm t).
Proof.
  induction s as [|x s IH]; intros t.
  - cbn. rewrite !union_empty_l_L. repeat split; intros; unfold count; cbn; lia.
  - cbn [fold_left]. destruct (IH (tally1 t x)) as (Hs & Hds & Hc & Hdc).
    assert (Hsm : sm (tally1 t x) = github.incr (status x) (sm t)).
    { unfold tally1, status, failed. destruct (negb _); reflexivity. }
    assert (Hcm : cm (tally1 t x)
                  = fold_left (fun cm c => github.incr c cm)
                      (if failed x then [] else Controls x) (cm t)).
    { unfold tally1, failed. destruct (negb _); reflexivity. }
    destruct (controls_fold (if failed x then [] else Controls x) (cm t)) as [Hv Hd].
    split; [|split; [|split]].
    + intros k. rewrite Hs, Hsm, lookup_incr, count_cons. lia.
    + rewrite Hds, Hsm, dom_incr. cbn [fmap list_fmap list_to_set].
      rewrite union_assoc_L, (union_comm_L _ {[status x]}). reflexivity.
    + intros c. rewrite Hc, Hcm, Hv, scannedControls_cons, count_app. lia.
    + rewrite Hdc, Hcm, Hd, scannedControls_cons, list_to_set_app_L, union_assoc_L,
        (union_comm_L (list_to_set (scannedControls s))). reflexivity.
Qed.

Lemma status_keys x :
  status x ∈ dom (sm initialTally).
Proof.
  unfold status. apply elem_of_dom.
  destruct (failed x); [|destruct (ControlInPlace x)]; vm_compute; eauto.
Qed.

Lemma tally_dom s : dom (sm (tally s)) = dom (sm initialTally).
Proof.
  unfold tally. destruct (tally_fold s initialTally) as (_ & -> & _).
  apply subseteq_union_1_L. intros k Hk. apply elem_of_list_to_set in Hk.
  apply list_elem_of_fmap in Hk as (x & -> & _). apply status_keys.
Qed.

Lemma tally_lookup s k :
  k ∈ dom (sm initialTally) ->
  sm (tally s) !! k = Some (count (fun x => String.eqb k (status x)) s).
Proof.
  intros Hk. pose proof Hk as Hk'. rewrite <- (tally_dom s) in Hk'.
  apply elem_of_dom in Hk' as [v Hv]. apply elem_of_dom in Hk as [v0 Hv0].
  destruct (tally_fold s initialTally) as (Hs & _). specialize (Hs k).
  fold (tally s) in Hs. rewrite Hv, Hv0 in Hs. cbn in Hs. rewrite Hv. f_equal.
  revert Hv0. unfold initialTally. cbn [sm]. intros Hv0.
  assert (v0 = 0) as ->; [|rewrite Z.add_0_l in Hs; exact Hs].
  destruct (decide (k = "with_controls")) as [->|H1];
    [rewrite lookup_insert_eq in Hv0; congruence|rewrite lookup_insert_ne in Hv0 by congruence].
  destruct (decide (k = "without_controls")) as [->|H2];
    [rewrite lookup_insert_eq in Hv0; congruence|rewrite lookup_insert_ne in Hv0 by congruence].
  destruct (decide (k = "error")) as [->|H3];
    [rewrite lookup_insert_eq in Hv0; congruence|rewrite lookup_insert_ne in Hv0 by congruence].
  rewrite lookup_empty in Hv0. discriminate.
Qed.

(** X16: the three status counters of [pushSummaryMetrics] partition the
    summaries: a summary with an error counts as error whatever its
    control flag, the others as with or without controls; the map keeps
    its three keys, so three status gauges are pushed even for an empty
    summary, and the three values add up to the number of summaries. *)
Theorem tally_status s :
  sm (tally s) !! "error" = Some (count failed s) /\
  sm (tally s) !! "with_controls"
    = Some (count (fun x => negb (failed x) && ControlInPlace x) s) /\
  sm (tally s) !! "without_controls"
    = Some (count (fun x => negb (failed x) && negb (ControlInPlace x)) s) /\
  size (sm (tally s)) = 3%nat /\
  count failed s
  + count (fun x => negb (failed x) && ControlInPlace x) s
  + count (fun x => negb (failed x) && negb (ControlInPlace x)) s
  = Z.of_nat (length s).
Proof.
  split; [|split; [|split; [|split]]].
  - rewrite tally_lookup by (apply elem_of_dom; vm_compute; eauto).
    f_equal. apply count_ext. intros x. unfold status.
    destruct (failed x); [|destruct (ControlInPlace x)]; reflexivity.
  - rewrite tally_lookup by (apply elem_of_dom; vm_compute; eauto).
    f_equal. apply count_ext. intros x. unfold status.
    destruct (failed x); [|destruct (ControlInPlace x)]; reflexivity.
  - rewrite tally_lookup by (apply elem_of_dom; vm_compute; eauto).
    f_equal. apply count_ext. intros x. unfold status.
    destruct (failed x); [|destruct (ControlInPlace x)]; reflexivity.
  - rewrite <- size_dom, tally_dom. reflexivity.
  - induction s as [|x s IH]; [reflexivity|]. rewrite !count_cons. cbn [length].
    destruct (failed x); [|destruct (ControlInPlace x)]; cbn [negb andb]; lia.
Qed.

Lemma tally_cm s :
  (forall c, default 0 (cm (tally s) !! c) = count (String.eqb c) (scannedControls s)) /\
  dom (cm (tally s)) = list_to_set (scannedControls s).
Proof.
  unfold tally. destruct (tally_fold s initialTally) as (_ & _ & Hc & Hd). split.
  - intros c. rewrite Hc. cbn. rewrite lookup_empty. reflexivity.
  - rewrite Hd. cbn. rewrite dom_empty_L, union_empty_r_L. reflexivity.
Qed.

(** X17: [pushSummaryMetrics] pushes one control gauge per distinct
    control of the summaries without an error, with the number of times
    the control occurs in them (at least 1); the controls of a summary
    with an error are not counted, and a control that occurs in none has
    no gauge. *)
Theorem tally_controls s c :
  (c ∈ scannedControls s ->
   cm (tally s) !! c = Some (count (String.eqb c) (scannedControls s)) /\
   0 < count (String.eqb c) (scannedControls s)) /\
  (c ∉ scannedControls s -> cm (tally s) !! c = None) /\
  (forall n, ("summary.controls", n, ["control:" ++ c]) ∈ gauges (tally s) <->
             c ∈ scannedControls s /\ n = count (String.eqb c) (scannedControls s)).
Proof.
  destruct (tally_cm s) as [Hv Hd].
  assert (Hin : c ∈ scannedControls s ->
                cm (tally s) !! c = Some (count (String.eqb c) (scannedControls s))).
  { intros Hc. assert (Hdom : c ∈ dom (cm (tally s))) by (rewrite Hd; apply elem_of_list_to_set, Hc).
    apply elem_of_dom in Hdom as [v Hlook]. specialize (Hv c). rewrite Hlook in Hv.
    cbn in Hv. rewrite Hlook, Hv. reflexivity. }
  assert (Hout : c ∉ scannedControls s -> cm (tally s) !! c = None).
  { intros Hc. apply not_elem_of_dom. rewrite Hd. intros H%elem_of_list_to_set. auto. }
  split; [|split; [exact Hout|]].
  - intros Hc. split; [auto|]. apply count_pos. exists c.
    split; [apply list_elem_of_In, Hc | apply String.eqb_refl].
  - intros n. unfold gauges. rewrite elem_of_app, !list_elem_of_fmap. split.
    + intros [([k v] & [=] & _) | ([k v] & Heq & Hkv)].
      injection Heq as -> Hk. change (c = k) in Hk. subst k.
      apply elem_of_map_to_list in Hkv.
      destruct (decide (c ∈ scannedControls s)) as [Hc|Hc].
      * split; [exact Hc|]. rewrite (Hin Hc) in Hkv. congruence.
      * rewrite (Hout Hc) in Hkv. discriminate.
    + intros [Hc ->]. right. exists (c, count (String.eqb c) (scannedControls s)).
      split; [reflexivity|]. apply elem_of_map_to_list. auto.
Qed.

Definition isGaugeEvent (e : Event) : bool :=
  match e with StatsdGauge _ _ _ _ _ => true | _ => false end.

Lemma pushAll_disabled w calls : pushAll w zeroClient calls = ([], Some tt).
Proof.
  induction calls as [|[[name v] tags] calls IH]; [reflexivity|].
  cbn [pushAll]. unfold Gauge, guarded. cbn -[pushAll]. rewrite IH. reflexivity.
Qed.

Lemma pushAll_enabled w cfg sd calls :
  Enabled cfg = true ->
  trace.value (pushAll w (mkClient cfg (Some sd) true) calls) = Some tt /\
  List.filter isGaugeEvent (trace.events (pushAll w (mkClient cfg (Some sd) true) calls))
  = map (fun call : string * Z * list string =>
           StatsdGauge sd (Namespace cfg ++ "." ++ call.1.1) (float64 call.1.2)
             (call.2 ++ Tags cfg) (float64 1)) calls /\
  length (trace.events (pushAll w (mkClient cfg (Some sd) true) calls))
  = (2 * length calls)%nat.
Proof.
  intros Hen. induction calls as [|[[name v] tags] calls (IHv & IHg & IHl)];
    [repeat split|].
  cbn [pushAll]. unfold Gauge, guarded, log. cbn [metrics.cfg client logger].
  rewrite Hen. cbn [negb].
  destruct (pushAll w (mkClient cfg (Some sd) true) calls) as [evs r] eqn:Hrest.
  cbn in IHv, IHg, IHl. subst r.
  destruct (statsd_Gauge w _ _ _); cbn; rewrite ?Hrest; cbn.
  all: split; [reflexivity|]; split; [f_equal; exact IHg | lia].
Qed.

(** X18: through a client [NewClient] returned, [pushSummaryMetrics]
    never panics; with metrics disabled it sends nothing; with metrics
    enabled it sends one statsd gauge per entry of its two maps, each under
    the configured namespace, with the configured tags appended after the
    target or control tag, and logs one record per gauge whether the push
    succeeded or not: a failed push does not stop the others. *)
Theorem pushSummaryMetrics_sends w cfg c s :
  trace.value (NewClient w cfg) = inr c ->
  (Enabled cfg = false -> pushSummaryMetrics w c s = ([], Some tt)) /\
  (Enabled cfg = true ->
   trace.value (pushSummaryMetrics w c s) = Some tt /\
   List.filter isGaugeEvent (trace.events (pushSummaryMetrics w c s))
   = map (fun call : string * Z * list string =>
            StatsdGauge (mkStatsd (effectiveAddress cfg)) (Namespace cfg ++ "." ++ call.1.1)
              (float64 call.1.2) (call.2 ++ Tags cfg) (float64 1))
         (gauges (tally s)) /\
   length (trace.events (pushSummaryMetrics w c s)) = (2 * length (gauges (tally s)))%nat).
Proof.
  intros Hc. pose proof (NewClient_value w cfg c Hc) as Hval. unfold pushSummaryMetrics.
  destruct (Enabled cfg) eqn:Hen; subst c.
  - split; [discriminate|]. intros _. apply pushAll_enabled. exact Hen.
  - split; [|discriminate]. intros _. apply pushAll_disabled.
Qed.

End main_props.

(** ** Properties of [config.Load] *)

Module config_load_props.
Import gostrings config config_load.

Lemma HasSuffix_char s c :
  HasSuffix s (String c "") = true <-> lastChar s = Some c.
Proof.
  unfold HasSuffix. induction s as [|a s IH].
  - cbn. split; discriminate.
  - cbn [String.length]. replace (S (String.length s) - 1)%nat with (String.length s) by lia.
    change (1 <=? S (String.length s))%nat with true. cbn [andb].
    destruct s as [|b s].
    + cbn. rewrite Ascii.eqb_sym. destruct (Ascii.eqb_spec c a) as [->|Hne]; split;
        first [reflexivity | discriminate | intros [= ->]; congruence].
    + cbn [String.length drop lastChar].
      cbn [String.length] in IH.
      replace (S (String.length s) - 1)%nat with (String.length s) in IH by lia.
      change (1 <=? S (String.length s))%nat with true in IH. cbn [andb] in IH. exact IH.
Qed.

Lemma lastChar_app_char p c : lastChar (p ++ String c "") = Some c.
Proof.
  induction p as [|a p IH]; [reflexivity|].
  change (String a p ++ String c "") with (String a (p ++ String c "")).
  rewrite replace_props.lastChar_cons.
  destruct (p ++ String c "") eqn:Hp; [destruct p; discriminate | exact IH].
Qed.

(** X19: [Load] returns the parse error as it is; otherwise it changes
    nothing but the results path: an empty path stays empty, a path that
    ends with a slash stays as it is, and any other path gets one slash
    appended, so a loaded results path is empty or ends with a slash, a
    path configured with or without its final slash loads to the same
    configuration, and loading a loaded configuration changes nothing. *)
Theorem Load_results_path parsed :
  (forall e, parsed = inl e -> Load parsed = inl e) /\
  (forall cfg0, parsed = inr cfg0 ->
     exists cfg,
       Load parsed = inr cfg /\
       cfg = withResultsPath cfg0 (LavaConfig.ResultsPath (LavaCfg cfg)) /\
       (LavaConfig.ResultsPath (LavaCfg cfg0) = "" -> cfg = cfg0) /\
       (LavaConfig.ResultsPath (LavaCfg cfg0) <> "" ->
        lastChar (LavaConfig.ResultsPath (LavaCfg cfg)) = Some "/"%char /\
        (LavaConfig.ResultsPath (LavaCfg cfg) = LavaConfig.ResultsPath (LavaCfg cfg0) \/
         (lastChar (LavaConfig.ResultsPath (LavaCfg cfg0)) <> Some "/"%char /\
          LavaConfig.ResultsPath (LavaCfg cfg) = LavaConfig.ResultsPath (LavaCfg cfg0) ++ "/"))) /\
       Load (inr cfg) = inr cfg /\
       (forall p, p <> "" -> lastChar p <> Some "/"%char ->
          Load (inr (withResultsPath cfg0 p)) = Load (inr (withResultsPath cfg0 (p ++ "/"))))).
Proof.
  split; [intros e ->; reflexivity|].
  intros cfg0 ->. unfold Load. cbv zeta.
  assert (Heta : cfg0 = withResultsPath cfg0 (LavaConfig.ResultsPath (LavaCfg cfg0))).
  { destruct cfg0 as [? ? ? ? ? ? ? []]. reflexivity. }
  assert (Hnorm : forall p, p <> "" -> lastChar p <> Some "/"%char ->
            Load (inr (withResultsPath cfg0 p)) = Load (inr (withResultsPath cfg0 (p ++ "/")))).
  { intros p Hp Hlast. unfold Load. cbn [withResultsPath LavaCfg LavaConfig.ResultsPath].
    apply String.eqb_neq in Hp. rewrite Hp.
    destruct (HasSuffix p "/") eqn:Hs; [apply HasSuffix_char in Hs; congruence|].
    cbn [negb andb]. cbn [withResultsPath LavaCfg LavaConfig.ResultsPath].
    replace (HasSuffix (p ++ "/") "/") with true
      by (symmetry; apply HasSuffix_char, lastChar_app_char).
    rewrite andb_false_r. reflexivity. }
  destruct (String.eqb (LavaConfig.ResultsPath (LavaCfg cfg0)) "") eqn:Hempty.
  - apply String.eqb_eq in Hempty. cbn [negb andb]. exists cfg0.
    split; [reflexivity|]. split; [exact Heta|]. split; [reflexivity|].
    split; [congruence|]. split; [|exact Hnorm].
    rewrite Hempty. reflexivity.
  - apply String.eqb_neq in Hempty. cbn [negb andb].
    destruct (HasSuffix (LavaConfig.ResultsPath (LavaCfg cfg0)) "/") eqn:Hs; cbn [negb].
    + exists cfg0. split; [reflexivity|]. split; [exact Heta|]. split; [reflexivity|].
      split; [intros _; split; [apply HasSuffix_char, Hs | left; reflexivity]|].
      split; [|exact Hnorm]. rewrite Hs, andb_false_r. reflexivity.
    + eexists. split; [reflexivity|].
      cbn [withResultsPath LavaCfg LavaConfig.ResultsPath].
      split; [reflexivity|]. split; [congruence|].
      split.
      { intros _. split; [apply lastChar_app_char|]. right. split; [|reflexivity].
        intros H%HasSuffix_char. congruence. }
      split; [|exact Hnorm].
      replace (HasSuffix (LavaConfig.ResultsPath (LavaCfg cfg0) ++ "/") "/") with true
        by (symmetry; apply HasSuffix_char, lastChar_app_char).
      rewrite andb_false_r. reflexivity.
Qed.

End config_load_props.

(** ** The controls column of the CSV output *)

Module controls_column_props.
Import gostrings lava output segments_props scan_more_props.

Lemma Split_whole e c : hasChar c e = false -> Split e (String c "") = [e].
Proof.
  induction e as [|a e IH]; [reflexivity|].
  cbn [hasChar]. intros [Ha He]%orb_false_iff. rewrite Split_cons, Ha, (IH He). reflexivity.
Qed.

Lemma Split_piece e rest c :
  hasChar c e = false ->
  Split (e ++ String c rest) (String c "") = e :: Split rest (String c "").
Proof.
  induction e as [|a e IH].
  - intros _. change ("" ++ String c rest) with (String c rest).
    rewrite Split_cons, Ascii.eqb_refl. reflexivity.
  - cbn [hasChar]. intros [Ha He]%orb_false_iff.
    change (String a e ++ String c rest) with (String a (e ++ String c rest)).
    rewrite Split_cons, Ha, (IH He). reflexivity.
Qed.

(** X20: the controls column of a CSV record can be split back into the
    controls at "#" when no control holds a "#", except that a summary
    with no control and a summary with one empty control are written
    alike (an empty column). *)
Theorem csvRecord_controls s :
  Forall (fun control => Contains control "#" = false) (Controls s) ->
  Split (nth 3 (csvRecord s) "") "#"
  = match Controls s with [] => [""] | controls => controls end.
Proof.
  cbn [csvRecord nth]. induction 1 as [|e rest He _ IH]; [reflexivity|].
  rewrite Contains_char in He. destruct rest as [|e' rest].
  - cbn [Join]. apply Split_whole, He.
  - change (Join (e :: e' :: rest) "#") with (e ++ String "#" (Join (e' :: rest) "#")).
    rewrite (Split_piece _ _ _ He), IH. reflexivity.
Qed.

End controls_column_props.

(** ** The listing on concrete answers of the API *)

Module listing_examples.
Import config github github_props listing listing_props orgs_props github_examples.

(** Two pages of organization org1: page 0 names page 2, page 2 is the
    last. *)
Definition ListByOrg (call : nat) (org : string) (page : Z) : Listed Z :=
  if page =? 0 then mkListed [(day 100, repo1); (day 100, huge)] (Some 2) None
  else if page =? 2 then mkListed [(day 100, dormant); (day 100, bare)] (Some 0) None
  else mkListed [] (Some 0) None.

(** The second page fails; [last] tells whether the failed response names
    no next page. *)
Definition ListByOrgFailing (last : bool) (call : nat) (org : string) (page : Z) : Listed Z :=
  if page =? 0 then mkListed [(day 100, repo1); (day 100, huge)] (Some 2) None
  else mkListed [] (Some (if last then 0 else 2)) (Some "502 Bad Gateway").

Lemma firstPage (L : nat -> string -> Z -> Listed Z) :
  err (L 0%nat "org1" 0) = None ->
  next (L 0%nat "org1" 0) = Some 2 ->
  pagesRun Z L "org1" 0 0 [L 0%nat "org1" 0] [0] 2.
Proof.
  intros Herr Hnext.
  apply (pagesRun_cons Z L "org1" 0%nat 0 2 [] [] 2 Herr Hnext); [discriminate|].
  apply pagesRun_nil.
Qed.

Example listing_two_pages :
  (fun l => (sent l, requested l))
    <$> (match orgRepositories Z Before AddDate recent30 ListByOrg 5 "org1" with
         | Returned l => Some l
         | _ => None
         end)
  = Some (["https://ghe.example/org1/repo1"; "https://ghe.example/org1/bare"], [0; 2]).
Proof. vm_compute. reflexivity. Qed.

Lemma orgRepositories_pages_witness :
  exists l,
    orgRepositories Z Before AddDate recent30 ListByOrg 5 "org1" = Returned l /\
    sent l = selectedURLs Z Before AddDate recent30
               (reposOf Z ([ListByOrg 0 "org1" 0] ++ [ListByOrg 1 "org1" 2])) /\
    requested l = ([0] ++ [2])%list /\
    total (counters l)
    = Z.of_nat (length (reposOf Z ([ListByOrg 0 "org1" 0] ++ [ListByOrg 1 "org1" 2]))).
Proof.
  apply (orgRepositories_pages Z Before AddDate recent30 ListByOrg "org1"
           [ListByOrg 0 "org1" 0] [0] 2 5).
  - apply firstPage; reflexivity.
  - reflexivity.
  - reflexivity.
  - repeat constructor; discriminate.
  - cbn. lia.
Defined.

Lemma orgRepositories_failed_page_witness :
  (exists l,
     orgRepositories Z Before AddDate recent30 (ListByOrgFailing true) 5 "org1" = Returned l /\
     sent l = selectedURLs Z Before AddDate recent30
                (reposOf Z [ListByOrgFailing true 0 "org1" 0]) /\
     requested l = ([0] ++ [2])%list /\
     In (listError "org1" "502 Bad Gateway") (listingLogs l)).
Proof.
  destruct (orgRepositories_failed_page Z Before AddDate recent30 (ListByOrgFailing true) "org1"
              [ListByOrgFailing true 0 "org1" 0] [0] 2 5 "502 Bad Gateway") as [Hlast _].
  - apply firstPage; reflexivity.
  - reflexivity.
  - repeat constructor; discriminate.
  - cbn. lia.
  - apply Hlast. reflexivity.
Defined.

Lemma orgRepositories_retries_forever_witness :
  orgRepositories Z Before AddDate recent30 (ListByOrgFailing false) 1000 "org1" = Looping.
Proof.
  apply (orgRepositories_retries_forever Z Before AddDate recent30 (ListByOrgFailing false) "org1"
           [ListByOrgFailing false 0 "org1" 0] [0] 2).
  - apply firstPage; reflexivity.
  - repeat constructor; discriminate.
  - intros k. exists "502 Bad Gateway", 2. repeat split. discriminate.
Defined.

Lemma orgRepositories_gauges_witness :
  match orgRepositories Z Before AddDate recent30 ListByOrg 5 "org1" with
  | Returned l =>
      length (gaugeCalls "org1" (counters l)) = 8%nat /\
      ("repositories", Z.of_nat (length (sent l)), ["status:selected"; "organization:" ++ "org1"])
        ∈ gaugeCalls "org1" (counters l)
  | _ => False
  end.
Proof.
  destruct (orgRepositories Z Before AddDate recent30 ListByOrg 5 "org1") as [l| |] eqn:Hl.
  - destruct (orgRepositories_gauges Z Before AddDate recent30 ListByOrg 5 "org1" l Hl)
      as (H8 & Hsel & _).
    split; [exact H8 | exact Hsel].
  - vm_compute in Hl. discriminate.
  - vm_compute in Hl. discriminate.
Defined.

(** Two pages of organizations: the first names a next page and ends with
    the organization of ID 9. *)
Definition ListAll (call : nat) (since : Z) : OrgsListed :=
  if since =? 0 then
    mkOrgsListed [mkOrganization (Some "org1") (Some 7); mkOrganization None (Some 9)]
      (Some 2) None
  else if since =? 9 then mkOrgsListed [mkOrganization (Some "org3") (Some 12)] (Some 0) None
  else mkOrgsListed [] (Some 0) None.

Definition ListAllFailing (call : nat) (since : Z) : OrgsListed :=
  if since =? 0 then
    mkOrgsListed [mkOrganization (Some "org1") (Some 7); mkOrganization None (Some 9)]
      (Some 2) None
  else mkOrgsListed [] None (Some "401 Unauthorized").

Lemma firstOrgs (L : nat -> Z -> OrgsListed) :
  L 0%nat 0
  = mkOrgsListed [mkOrganization (Some "org1") (Some 7); mkOrganization None (Some 9)]
      (Some 2) None ->
  orgsRun L 0 0 [L 0%nat 0] [0] 9.
Proof.
  intros HL.
  apply (orgsRun_cons L 0%nat 0 2 (mkOrganization None (Some 9)) 9 [] [] 9).
  - rewrite HL. reflexivity.
  - rewrite HL. reflexivity.
  - discriminate.
  - rewrite HL. reflexivity.
  - reflexivity.
  - apply orgsRun_nil.
Qed.

Lemma Organizations_pages_witness :
  exists r,
    Organizations ListAll 5 = Returned r /\
    logins r = loginsOf ([ListAll 0 0] ++ [ListAll 1 9]) /\
    failure r = None /\
    sinces r = ([0] ++ [9])%list.
Proof.
  apply (Organizations_pages ListAll [ListAll 0 0] [0] 9 5).
  - apply firstOrgs. reflexivity.
  - reflexivity.
  - reflexivity.
  - cbn. lia.
Defined.

Lemma Organizations_failed_page_witness :
  (exists r, Organizations ListAllFailing 5 = Returned r /\ logins r = [] /\
             failure r = Some ("failed to list organizations: " ++ "401 Unauthorized")) /\
  targetOrgs ListAllFailing 5 ""
  = Returned (inr ("failed to list organizations: failed to list organizations: "
                   ++ "401 Unauthorized")).
Proof.
  destruct (Organizations_failed_page ListAllFailing [ListAllFailing 0 0] [0] 9 5) as [Hfail _].
  - apply firstOrgs. reflexivity.
  - cbn. lia.
  - destruct (Hfail "401 Unauthorized" eq_refl) as (Hr & Ht & _).
    split; [exact Hr | exact Ht].
Defined.

(** The fan-out over two organizations with one slot. *)
Definition lists (org : string) (repos : list string) : Prop :=
  repos = ["https://ghe.example/" ++ org ++ "/app"].



Lemma Repositories_progress_witness :
  (exists f', fanStep 1 lists (fanStart ["org1"; "org2"]) f') /\
  exists selected, Repositories 1 lists ["org1"; "org2"] selected.
Proof.
  destruct (Repositories_progress 1 lists ["org1"; "org2"]) as (_ & Hrun & _).
  - intros org _. eexists. reflexivity.
  - destruct Hrun as (Hstep & _ & Hends); [lia|]. split; [|exact Hends].
    apply Hstep; [apply rtc_refl|].
    intros Hdone. inversion Hdone as [|? ? Hsent _]. discriminate Hsent.
Defined.

End listing_examples.

(** ** More scans, writes and gauges on concrete inputs *)

Module more_examples.
Import config gostrings lava trace_props lava_props pool_props store_props
  scan_more_props scan_examples.

(** One worker, one address, a scanner that exits with status 1. *)
Lemma scan_failed_run :
  Scan json_Unmarshal url_Parse c0 [repo1]
    [mkSummary repo1 [] false 0 "error running Lava: exit status 1"].
Proof.
  exists (mkPool [] [Done] [[mkSummary repo1 [] false 0 "error running Lava: exit status 1"]]).
  split; [|split; [repeat constructor | reflexivity]].
  change (start c0 [repo1]) with (mkPool [repo1] [Idle] []).
  eapply rtc_l; [apply step_receive with (i := 0%nat); reflexivity|].
  eapply rtc_l; [apply step_scanned with (i := 0%nat) (repo := repo1) (w := wFailed); reflexivity|].
  eapply rtc_l; [|apply rtc_refl].
  rewrite scanRepo_value.
  apply step_closed with (i := 0%nat) (ws := [Idle]). reflexivity.
Qed.

Lemma Scan_summaries_wellformed_witness :
  Forall (fun s =>
            NumberOfControls s = Z.of_nat (length (Controls s)) /\
            (Error_ s <> "" ->
             Repository s ∈ [repo1] /\ Controls s = [] /\ ControlInPlace s = false))
         [mkSummary repo1 [] false 0 "error running Lava: exit status 1"].
Proof.
  apply (Scan_summaries_wellformed json_Unmarshal url_Parse c0 [repo1]). exact scan_failed_run.
Defined.

Lemma Scan_without_worker_witness :
  Scan json_Unmarshal url_Parse (client "ghp_x7Kq2" 0 "") [repo1; repo2] [] /\
  forall summary,
    Scan json_Unmarshal url_Parse (client "ghp_x7Kq2" 0 "") [repo1; repo2] summary ->
    summary = [].
Proof.
  apply (Scan_without_worker json_Unmarshal url_Parse (client "ghp_x7Kq2" 0 "") [repo1; repo2]).
  cbn. lia.
Defined.

Lemma orgAndRepo_no_slash_witness :
  "org1" <> "" /\ Contains "org1" "/" = false /\ Contains "repo1" "/" = false.
Proof.
  apply (orgAndRepo_no_slash url_Parse repo1 "org1" "repo1"). reflexivity.
Defined.

(** The directory cannot be created. *)
Definition wReadOnly : World :=
  mkWorld exec.RunOk report1 "" (fun _ => Some "read-only file system") (fun _ _ => None).

Lemma storeResults_failures_witness :
  List.filter isWrite
    (trace.events (storeResults url_Parse c0 wReadOnly repo1 report1 "")) = [].
Proof.
  destruct (storeResults_failures url_Parse c0 wReadOnly repo1 report1 "")
    as (_ & _ & Hmkdir & _).
  apply (Hmkdir "org1" "repo1"); [reflexivity | discriminate].
Defined.

End more_examples.

Module output_more_examples.
Import gostrings output output_more_props output_examples.

(** The disk is full when the second record is written. *)
Definition wFull : World :=
  mkWorld (fun _ => None)
    (fun k _ => if (k =? 1)%nat then Some "no space left on device" else None)
    (fun _ => None).

Definition wDenied : World :=
  mkWorld (fun _ => Some "permission denied") (fun _ _ => None) (fun _ => None).

Lemma Write_file_lifecycle_witness :
  Write wDenied "yaml" "/tmp/reposec.yaml" summaries
    = ([Create "/tmp/reposec.yaml"], Some (ErrIO "permission denied")) /\
  exists mid,
    trace.events (Write wFull "csv" "/tmp/reposec.csv" summaries)
    = (Create "/tmp/reposec.csv" :: mid ++ [Close])%list /\
    Forall (fun ev => match ev with Create _ | Close => False | _ => True end) mid.
Proof.
  split.
  - apply (proj1 (Write_file_lifecycle wDenied "yaml" "/tmp/reposec.yaml" summaries
                    ltac:(discriminate))).
    reflexivity.
  - destruct (proj2 (Write_file_lifecycle wFull "csv" "/tmp/reposec.csv" summaries
                       ltac:(discriminate)) eq_refl) as (mid & Hev & Hmid & _).
    exists mid. split; [exact Hev | exact Hmid].
Defined.

Lemma Write_csv_first_failure_witness :
  Write wFull "csv" "/tmp/reposec.csv" summaries
  = ((Create "/tmp/reposec.csv"
      :: map CsvWrite (firstn 2 (csvRecords summaries)) ++ [CsvFlush; Close])%list,
     Some (ErrIO "no space left on device")).
Proof.
  apply (Write_csv_first_failure wFull "csv" "/tmp/reposec.csv" summaries 1
           ["org1/repo1"; "true"; "2"; "MFA#BranchProtection"; ""]).
  - discriminate.
  - reflexivity.
  - reflexivity.
  - reflexivity.
  - intros [|i] r' Hi Hr; [reflexivity | lia].
  - reflexivity.
Defined.

End output_more_examples.

Module metrics_examples.
Import lava metrics main metrics_props main_props config_load config_load_props
  controls_column_props.

Definition statsdUp : World :=
  mkWorld (fun _ => None) (fun _ _ _ => None) (fun _ _ _ _ => None) None None.

Definition enabled : MetricsConfig := mkMetricsConfig true "" "reposec" ["env:pro"].
Definition disabled : MetricsConfig := mkMetricsConfig false "statsd:8125" "reposec" [].

Definition scanned : list Summary :=
  [ mkSummary "org1/repo1" ["MFA"; "BranchProtection"] true 2 "";
    mkSummary "org1/repo2" ["MFA"] false 1 "";
    mkSummary "https://ghe.example/org1/repo3" ["Ignored"] false 1
      "error running Lava: exit status 1" ].

Example tally_scanned :
  map (fun k => sm (tally scanned) !! k) ["with_controls"; "without_controls"; "error"]
  = [Some 1; Some 1; Some 1] /\
  map (fun k => cm (tally scanned) !! k) ["MFA"; "BranchProtection"; "Ignored"]
  = [Some 2; Some 1; None].
Proof. split; vm_compute; reflexivity. Qed.

Lemma NewClient_usable_witness :
  client (mkClient enabled (Some (mkStatsd "localhost:8125")) true)
  = Some (mkStatsd (effectiveAddress enabled)) /\
  In (StatsdNew (effectiveAddress enabled)) (trace.events (NewClient statsdUp enabled)).
Proof.
  destruct (NewClient_usable statsdUp enabled) as [_ Hc].
  destruct (Hc (mkClient enabled (Some (mkStatsd "localhost:8125")) true) eq_refl)
    as (_ & Hen & _).
  apply Hen. reflexivity.
Defined.

Lemma tally_controls_witness :
  cm (tally scanned) !! "MFA" = Some (count (String.eqb "MFA") (scannedControls scanned)) /\
  0 < count (String.eqb "MFA") (scannedControls scanned).
Proof.
  apply (proj1 (tally_controls scanned "MFA")).
  constructor.
Defined.

Lemma pushSummaryMetrics_sends_witness :
  pushSummaryMetrics statsdUp zeroClient scanned = ([], Some tt) /\
  length (trace.events
            (pushSummaryMetrics statsdUp
               (mkClient enabled (Some (mkStatsd "localhost:8125")) true) scanned))
  = (2 * length (gauges (tally scanned)))%nat.
Proof.
  split.
  - apply (proj1 (pushSummaryMetrics_sends statsdUp disabled zeroClient scanned eq_refl)).
    reflexivity.
  - destruct (proj2 (pushSummaryMetrics_sends statsdUp enabled
                       (mkClient enabled (Some (mkStatsd "localhost:8125")) true) scanned eq_refl)
                eq_refl) as (_ & _ & Hlen).
    exact Hlen.
Defined.

Definition parsed (resultsPath : string) : Config :=
  mkConfig "info" "stdout" "text" "" "/tmp/reposec.csv" "csv"
    github_examples.defaults
    (config.LavaConfig.mk "ghp_token" "https://ghe.example" 10 "/usr/bin/lava"
       scan_examples.image resultsPath).

Example Load_paths :
  Load (inr (parsed "/tmp/results")) = inr (parsed "/tmp/results/") /\
  Load (inr (parsed "/tmp/results/")) = inr (parsed "/tmp/results/") /\
  Load (inr (parsed "")) = inr (parsed "") /\
  Load (inr (parsed "/tmp/results//")) = inr (parsed "/tmp/results//").
Proof. repeat split; reflexivity. Qed.

Lemma Load_results_path_witness :
  exists cfg,
    Load (inr (parsed "/tmp/results")) = inr cfg /\
    gostrings.lastChar (config.LavaConfig.ResultsPath (LavaCfg cfg)) = Some "/"%char.
Proof.
  destruct (proj2 (Load_results_path (inr (parsed "/tmp/results"))) (parsed "/tmp/results") eq_refl)
    as (cfg & Hload & _ & _ & Hpath & _).
  exists cfg. split; [exact Hload|]. apply Hpath. discriminate.
Defined.

Lemma csvRecord_controls_witness :
  gostrings.Split (nth 3 (output.csvRecord (mkSummary "org1/repo1" ["MFA"; "BranchProtection"] true 2 "")) "") "#"
  = ["MFA"; "BranchProtection"].
Proof.
  apply (csvRecord_controls (mkSummary "org1/repo1" ["MFA"; "BranchProtection"] true 2 "")).
  repeat constructor.
Defined.

End metrics_examples.
